(** * OmahaEquity: hand-strength ladder and equity engine

    A shallow embedding of [omahaequity.py] and the properties of its
    specification.

    Conventions of the embedding.
    - Python integers (ranks, suits, the wildcard [anything]) are [Z];
      lengths and counts, which the program only obtains from [len] and
      [range], are [nat].
    - A Python exception is a value of [exn]; code that can raise lives in
      the [result] monad.
    - The quotients the program computes with [/] are Python floats.  They
      are read here as the exact rationals ([Q]) they round; rounding is
      outside the model.  [int / int] raises [ZeroDivisionError] on a zero
      divisor, and so does [true_div].
    - The dict built by [tally_ranks] is a [gmap Z Z].
    - [all_levels], [specify] and [utility] call neither [shuffle] nor
      [sample], read no variable that the program assigns twice, and
      change only lists that they build themselves: they are embedded as
      functions of their arguments.  [deal_random_cards], which shuffles
      its argument in place, is not embedded. *)

From Stdlib Require Import ZArith QArith Lia Lqa.
From stdpp Require Import base option list sorting gmap strings pretty.

Local Open Scope Z_scope.

(** ** Parameters and constants *)

Definition num_ranks : Z := 13.
Definition num_suits : Z := 4.
Definition board_size : nat := 5.
Definition holding_size : nat := 4.
Definition num_players : nat := 6.

Definition num_couplets_per_holding : nat :=
  (holding_size * (holding_size - 1) / 2)%nat.
Definition num_opponents : nat := (num_players - 1)%nat.
Definition num_opponents_couplets : nat :=
  (num_opponents * num_couplets_per_holding)%nat.

Definition ace : Z := 12.
Definition king : Z := 11.
Definition queen : Z := 10.
Definition jack : Z := 9.
Definition ten : Z := 8.
Definition nine : Z := 7.
Definition eight : Z := 6.
Definition seven : Z := 5.
Definition six : Z := 4.
Definition five : Z := 3.
Definition four : Z := 2.
Definition three : Z := 1.
Definition deuce : Z := 0.
Definition deprecated_ace : Z := -1.
Definition hearts : Z := 3.
Definition spades : Z := 2.
Definition diamonds : Z := 1.
Definition clubs : Z := 0.
Definition anything : Z := 999.

(** ** Exceptions *)

Inductive exn : Set :=
| KeyError
| IndexError
| TypeError
| ZeroDivisionError.

Inductive result (A : Type) : Type :=
| Ok (a : A)
| Raise (e : exn).
Arguments Ok {A} a.
Arguments Raise {A} e.

#[global] Instance result_ret : MRet result := λ A a, Ok a.

#[global] Instance result_bind : MBind result := λ A B f m,
  match m with
  | Ok a => f a
  | Raise e => Raise e
  end.

Definition is_ok {A} (r : result A) : bool :=
  match r with Ok _ => true | Raise _ => false end.

(** ** Cards and couplets *)

Record Card : Set := mkCard { rank : Z; suit : Z }.

Record Couplet : Set := mkCouplet { card_1 : Card; card_2 : Card }.

#[global] Instance Card_eq_dec : EqDecision Card.
Proof. solve_decision. Defined.

#[global] Instance Couplet_eq_dec : EqDecision Couplet.
Proof. solve_decision. Defined.

Module CardOps.

Definition is_copy (self target_card : Card) : bool :=
  (rank self =? rank target_card) && (suit self =? suit target_card).

Definition fulfills (self target_card : Card) : bool :=
  let rank_fulfills :=
    (rank target_card =? anything) || (rank self =? rank target_card) in
  let suit_fulfills :=
    (suit target_card =? anything) || (suit self =? suit target_card) in
  rank_fulfills && suit_fulfills.

Fixpoint is_compatible (self : Card) (board : list Card) : bool :=
  match board with
  | [] => true
  | target_card :: rest =>
      if is_copy self target_card then false else is_compatible self rest
  end.

End CardOps.

Module CoupletOps.

Definition fulfills (self target_couplet : Couplet) : bool :=
  let fulfills_in_order :=
    CardOps.fulfills (card_1 self) (card_1 target_couplet)
    && CardOps.fulfills (card_2 self) (card_2 target_couplet) in
  let fulfills_out_of_order :=
    CardOps.fulfills (card_1 self) (card_2 target_couplet)
    && CardOps.fulfills (card_2 self) (card_1 target_couplet) in
  fulfills_in_order || fulfills_out_of_order.

Definition is_compatible (self : Couplet) (board : list Card) : bool :=
  CardOps.is_compatible (card_1 self) board
  && CardOps.is_compatible (card_2 self) board.

End CoupletOps.

(** ** Printing

    [rank_to_str] is the part of the printing code that does not colour
    its result.  A Python string is read as the bytes of its UTF-8
    encoding; [str] of an integer is its decimal notation, [pretty]. *)

Definition rank_to_str (rank : Z) : string :=
  if (rank =? ace) || (rank =? deprecated_ace) then "A"
  else if rank =? king then "K"
  else if rank =? queen then "Q"
  else if rank =? jack then "J"
  else if rank =? ten then "Ю"
  else if (rank <=? nine) && (rank >=? deuce) then pretty (rank + 2)
  else "X".

(** ** Ranges, deck and board analysis *)

(** Python's [range(a, b)]. *)
Definition py_range (a b : Z) : list Z := seqZ a (b - a).

Definition rank_range : list Z := reverse (py_range 0 num_ranks).

Definition suit_range : list Z := reverse (py_range 0 num_suits).

Definition assemble_deck : list Card :=
  flat_map (λ rank, map (λ suit, mkCard rank suit) suit_range) rank_range.

Definition partition_by_suit (board : list Card) : list (list Card) :=
  map (λ s, filter (λ card, suit card = s) board) suit_range.

Definition extract_ranks (board : list Card) (include_deprecation : bool)
  : list Z :=
  let board_ranks := map rank board in
  if include_deprecation
  then board_ranks ++ map (λ _, deprecated_ace) (filter (λ r, r = ace) board_ranks)
  else board_ranks.

(** [rank_tallies[board_rank] += 1]: a rank that is no key of the dict
    raises [KeyError]. *)
Fixpoint tally_loop (board_ranks : list Z) (rank_tallies : gmap Z Z)
  : result (gmap Z Z) :=
  match board_ranks with
  | [] => Ok rank_tallies
  | board_rank :: rest =>
      match rank_tallies !! board_rank with
      | None => Raise KeyError
      | Some n => tally_loop rest (<[board_rank := n + 1]> rank_tallies)
      end
  end.

Definition tally_ranks (board : list Card) : result (gmap Z Z) :=
  let board_ranks := extract_ranks board false in
  let rank_tallies : gmap Z Z := list_to_map (map (λ r, (r, 0)) rank_range) in
  tally_loop board_ranks rank_tallies.

(** [rank_tallies[rank]] at a rank of [rank_range].  The dicts of this
    program have every rank of [rank_range] as a key (lemma
    [tally_ranks_keys] below), so that the subscript cannot raise. *)
Definition tally (rank_tallies : gmap Z Z) (rank : Z) : Z :=
  default 0 (rank_tallies !! rank).

Definition max_tally (rank_tallies : gmap Z Z) : Z :=
  fold_left
    (λ most_of_one_rank rank,
       let rank_tally := tally rank_tallies rank in
       if rank_tally >? most_of_one_rank then rank_tally else most_of_one_rank)
    rank_range 0.

Fixpoint first_repeated (rank_tallies : gmap Z Z) (ranks : list Z)
  : option Z :=
  match ranks with
  | [] => None
  | rank :: rest =>
      if tally rank_tallies rank >? 1 then Some rank
      else first_repeated rank_tallies rest
  end.

Definition highest_repeated_rank (rank_tallies : gmap Z Z) : option Z :=
  first_repeated rank_tallies rank_range.

(** ** Small helpers of the level builders *)

Definition pair_couplet (rank : Z) : Couplet :=
  mkCouplet (mkCard rank anything) (mkCard rank anything).

Definition couplify (cards : list Card) : result Couplet :=
  match cards with
  | c0 :: c1 :: _ => Ok (mkCouplet c0 c1)
  | _ => Raise IndexError
  end.

Definition couplify_ranks (ranks : list Z) (suit : Z) : result Couplet :=
  match ranks with
  | r0 :: r1 :: _ =>
      Ok (mkCouplet (mkCard (r0 mod num_ranks) suit)
                    (mkCard (r1 mod num_ranks) suit))
  | _ => Raise IndexError
  end.

Definition remove_incompatible_couplets (level : list Couplet)
    (forbidden_cards : list Card) : list Couplet :=
  filter (λ couplet, CoupletOps.is_compatible couplet forbidden_cards) level.

Fixpoint index_from (target_couplet : Couplet) (levels : list (list Couplet))
    (level_index : nat) : option nat :=
  match levels with
  | [] => None
  | level :: rest =>
      if existsb (CoupletOps.fulfills target_couplet) level
      then Some level_index
      else index_from target_couplet rest (S level_index)
  end.

Definition index_of_level_containing (target_couplet : Couplet)
    (levels : list (list Couplet)) : option nat :=
  index_from target_couplet levels 0.

(** [itertools.combinations(zet, n)], in its order of generation. *)
Fixpoint subsets_of_size {A} (n : nat) (zet : list A) : list (list A) :=
  match n with
  | O => [[]]
  | S n' =>
      match zet with
      | [] => []
      | x :: xs =>
          map (cons x) (subsets_of_size n' xs) ++ subsets_of_size (S n') xs
      end
  end.

Definition flatten {A} (lizt : list (list A)) : list A := concat lizt.

Definition remove_empty_levels (levels : list (list Couplet))
  : list (list Couplet) :=
  filter (λ level, (0 < length level)%nat) levels.

(** ** Level builders

    A level is a list of couplets; every builder returns the list of the
    levels of its category, strongest first. *)

Definition four_of_a_kind_levels (board : list Card)
  : result (list (list Couplet)) :=
  rank_tallies ← tally_ranks board;
  mret (flat_map
    (λ rank,
       let rank_tally := tally rank_tallies rank in
       if rank_tally =? 2 then [[pair_couplet rank]]
       else if rank_tally >=? 3
       then [[mkCouplet (mkCard rank anything) (mkCard anything anything)]]
       else [])
    rank_range).

Definition full_house_levels (board : list Card)
  : result (list (list Couplet)) :=
  rank_tallies ← tally_ranks board;
  let most_of_one_rank := max_tally rank_tallies in
  if most_of_one_rank =? 2 then
    mret (flat_map
      (λ rank,
         let rank_tally := tally rank_tallies rank in
         if rank_tally =? 1 then [[pair_couplet rank]]
         else if rank_tally =? 2 then
           map (λ inner_rank,
                  [mkCouplet (mkCard rank anything) (mkCard inner_rank anything)])
               (filter (λ inner_rank,
                          tally rank_tallies inner_rank = 1
                          ∨ (tally rank_tallies inner_rank = 2 ∧ inner_rank < rank))
                       rank_range)
         else [])
      rank_range)
  else if most_of_one_rank >=? 3 then
    mret (snd (fold_left
      (λ '(continue_scan, levels) rank,
         if continue_scan : bool then
           let rank_tally := tally rank_tallies rank in
           if rank_tally =? 1 then (continue_scan, levels ++ [[pair_couplet rank]])
           else if rank_tally >=? 3 then
             (false,
              levels ++
              map (λ inner_rank, [pair_couplet inner_rank])
                  (filter (λ inner_rank,
                             tally rank_tallies inner_rank = 0
                             ∨ (tally rank_tallies inner_rank = 1 ∧ inner_rank < rank))
                          rank_range))
           else (continue_scan, levels)
         else (continue_scan, levels))
      rank_range (true, [])))
  else mret [].

Definition flush_levels (board : list Card) : result (list (list Couplet)) :=
  blocks ← mapM
    (λ subboard,
       if bool_decide (3 ≤ length subboard)%nat then
         match subboard with
         | first_card :: _ =>
             let subboard_suit := suit first_card in
             mret (map
               (λ novel_rank,
                  [mkCouplet (mkCard novel_rank subboard_suit)
                             (mkCard anything subboard_suit)])
               (filter (λ rank, rank ∉ extract_ranks subboard false)
                       (reverse (py_range three num_ranks))))
         | [] => Raise IndexError
         end
       else mret [])
    (partition_by_suit board);
  mret (concat blocks).

(** The comprehension that appends a rank to [unique_board_ranks] unless it
    is there already. *)
Definition unique_ranks (ranks : list Z) : list Z :=
  fold_left
    (λ unique_board_ranks rank,
       if bool_decide (rank ∈ unique_board_ranks) then unique_board_ranks
       else unique_board_ranks ++ [rank])
    ranks [].

(** [sorted(ranks, reverse=True)]. *)
Definition sorted_reverse (ranks : list Z) : list Z :=
  merge_sort Z.ge ranks.

Definition straight_level_with_suit (high_rank : Z) (board_ranks : list Z)
    (suit_to_record : Z) : result (list Couplet) :=
  let straight_ranks := reverse (py_range (high_rank - 4) (high_rank + 1)) in
  mapM
    (λ subset,
       couplify_ranks (filter (λ rank, rank ∉ subset) straight_ranks)
                      suit_to_record)
    (filter (λ subset, subset ∈ subsets_of_size 3 straight_ranks)
            (subsets_of_size 3 (sorted_reverse board_ranks))).

Definition straight_levels_with_suit (board : list Card) (suit_to_record : Z)
  : result (list (list Couplet)) :=
  let unique_board_ranks := unique_ranks (extract_ranks board true) in
  levels ← mapM
    (λ rank, straight_level_with_suit rank unique_board_ranks suit_to_record)
    (reverse (py_range five num_ranks));
  mret (remove_empty_levels levels).

Definition straight_levels (board : list Card) : result (list (list Couplet)) :=
  straight_levels_with_suit board anything.

Definition straight_flush_levels (board : list Card)
  : result (list (list Couplet)) :=
  blocks ← mapM
    (λ subboard,
       if bool_decide (3 ≤ length subboard)%nat then
         match subboard with
         | first_card :: _ =>
             let subboard_suit := suit first_card in
             straight_levels_with_suit subboard subboard_suit
         | [] => Raise IndexError
         end
       else mret [])
    (partition_by_suit board);
  let levels := concat blocks in
  mret (remove_empty_levels
          (map (λ inner_level, remove_incompatible_couplets inner_level board)
               levels)).

(** The nested loop shared by the kicker enumerations: every pair of a
    higher and a strictly lower rank of [kicker_rank_range], one level
    each. *)
Definition kicker_levels (kicker_rank_range : list Z) : list (list Couplet) :=
  flat_map
    (λ higher_kicker_rank,
       let lower_kicker_rank_range :=
         filter (λ inner_rank, inner_rank < higher_kicker_rank) kicker_rank_range in
       map (λ lower_kicker_rank,
              [mkCouplet (mkCard higher_kicker_rank anything)
                         (mkCard lower_kicker_rank anything)])
           lower_kicker_rank_range)
    kicker_rank_range.

Definition three_of_a_kind_levels (board : list Card)
  : result (list (list Couplet)) :=
  rank_tallies ← tally_ranks board;
  let most_of_one_rank := max_tally rank_tallies in
  if most_of_one_rank =? 1 then
    mret (flat_map
      (λ rank,
         if tally rank_tallies rank =? 1 then [[pair_couplet rank]] else [])
      rank_range)
  else if most_of_one_rank =? 2 then
    mret (flat_map
      (λ rank,
         if tally rank_tallies rank =? 2 then
           map (λ inner_rank,
                  [mkCouplet (mkCard rank anything) (mkCard inner_rank anything)])
               (filter (λ inner_rank, tally rank_tallies inner_rank = 0) rank_range)
         else [])
      rank_range)
  else if most_of_one_rank >=? 3 then
    mret (snd (fold_left
      (λ '(continue_scan, tally_2_overranks, levels) rank,
         if continue_scan : bool then
           let rank_tally := tally rank_tallies rank in
           if rank_tally =? 2 then
             (continue_scan,
              tally_2_overranks ++ [rank],
              levels ++
              map (λ inner_rank,
                     [mkCouplet (mkCard rank anything) (mkCard inner_rank anything)])
                  (filter (λ inner_rank, tally rank_tallies inner_rank = 0)
                          rank_range))
           else if rank_tally =? 3 then
             let higher_kicker_rank_range :=
               filter (λ inner_rank,
                         inner_rank ≠ rank ∧ inner_rank ∉ tally_2_overranks)
                      rank_range in
             (false, tally_2_overranks,
              levels ++ kicker_levels higher_kicker_rank_range)
           else (continue_scan, tally_2_overranks, levels)
         else (continue_scan, tally_2_overranks, levels))
      rank_range (true, [], [])))
  else mret [].

(** [two_pair_levels] compares ranks with [board_pair_rank], the value of
    [highest_repeated_rank]; on [None] such a comparison is a [TypeError]. *)
Definition two_pair_levels (board : list Card) : result (list (list Couplet)) :=
  rank_tallies ← tally_ranks board;
  let most_of_one_rank := max_tally rank_tallies in
  if most_of_one_rank =? 1 then
    let higher_pair_rank_range :=
      filter (λ rank, tally rank_tallies rank = 1) rank_range in
    mret (kicker_levels higher_pair_rank_range)
  else if most_of_one_rank =? 2 then
    match highest_repeated_rank rank_tallies with
    | None => Raise TypeError
    | Some board_pair_rank =>
        mret (flat_map
          (λ rank,
             let rank_tally := tally rank_tallies rank in
             (if rank_tally =? 0 then [[pair_couplet rank]] else [])
             ++
             (if rank_tally =? 1 then
                map (λ inner_rank,
                       [mkCouplet (mkCard rank anything)
                                  (mkCard inner_rank anything)])
                    (filter (λ inner_rank,
                               inner_rank > board_pair_rank
                               ∧ tally rank_tallies inner_rank = 1
                               ∧ inner_rank ≠ rank)
                            rank_range)
                ++
                map (λ inner_rank,
                       [mkCouplet (mkCard rank anything)
                                  (mkCard inner_rank anything)])
                    (filter (λ inner_rank,
                               inner_rank < board_pair_rank
                               ∨ tally rank_tallies inner_rank = 0)
                            rank_range)
              else []))
          rank_range)
    end
  else mret [].

Definition one_pair_levels (board : list Card) : result (list (list Couplet)) :=
  rank_tallies ← tally_ranks board;
  let most_of_one_rank := max_tally rank_tallies in
  if most_of_one_rank =? 1 then
    mret (flat_map
      (λ rank,
         let rank_tally := tally rank_tallies rank in
         (if rank_tally =? 0 then [[pair_couplet rank]] else [])
         ++
         (if rank_tally =? 1 then
            map (λ inner_rank,
                   [mkCouplet (mkCard rank anything) (mkCard inner_rank anything)])
                (filter (λ inner_rank, tally rank_tallies inner_rank = 0)
                        rank_range)
          else []))
      rank_range)
  else if most_of_one_rank =? 2 then
    let higher_kicker_rank_range :=
      filter (λ rank, tally rank_tallies rank = 0) rank_range in
    mret (kicker_levels higher_kicker_rank_range)
  else mret [].

Definition high_card_levels (board : list Card) : result (list (list Couplet)) :=
  rank_tallies ← tally_ranks board;
  let most_of_one_rank := max_tally rank_tallies in
  if most_of_one_rank =? 1 then
    let higher_kicker_rank_range :=
      filter (λ rank, tally rank_tallies rank = 0) rank_range in
    mret (kicker_levels higher_kicker_rank_range)
  else mret [].

Definition catch_all : Couplet :=
  mkCouplet (mkCard anything anything) (mkCard anything anything).

Definition all_levels (board : list Card) : result (list (list Couplet)) :=
  sf ← straight_flush_levels board;
  fk ← four_of_a_kind_levels board;
  fh ← full_house_levels board;
  fl ← flush_levels board;
  st ← straight_levels board;
  tk ← three_of_a_kind_levels board;
  tp ← two_pair_levels board;
  op ← one_pair_levels board;
  hc ← high_card_levels board;
  mret (sf ++ fk ++ fh ++ fl ++ st ++ tk ++ tp ++ op ++ hc ++ [[catch_all]]).

(** ** The ladder resolver *)

(** The loops of [specify] for one concrete couplet.  Their state is the
    flag [continue_scan] and the list [specific_levels], whose entry
    [level_index] is appended to in place.  [scan_level] is the innermost
    loop, over the patterns of one generic level. *)
Definition scan_level (specific_couplet : Couplet) (level_index : nat)
    (state : bool * list (list Couplet)) (generic_level : list Couplet)
  : bool * list (list Couplet) :=
  fold_left
    (λ '(continue_scan, specific_levels) generic_couplet,
       if (continue_scan : bool)
          && CoupletOps.fulfills specific_couplet generic_couplet
       then (false,
             alter (λ level, level ++ [specific_couplet])
                   level_index specific_levels)
       else (continue_scan, specific_levels))
    generic_level state.

Definition place (generic_levels : list (list Couplet))
    (specific_levels : list (list Couplet)) (specific_couplet : Couplet)
  : list (list Couplet) :=
  snd (fold_left
    (λ state level_index,
       let generic_level := generic_levels !!! level_index in
       scan_level specific_couplet level_index state generic_level)
    (seq 0 (length generic_levels)) (true, specific_levels)).

Definition specify (generic_levels : list (list Couplet)) (board : list Card)
  : result (list (list Couplet)) :=
  let deck := filter (λ card, CardOps.is_compatible card board) assemble_deck in
  specific_couplets ← mapM couplify (subsets_of_size 2 deck);
  let specific_levels := map (λ _, []) generic_levels in
  mret (remove_empty_levels
          (fold_left (place generic_levels) specific_couplets specific_levels)).

(** ** The equity engine *)

Fixpoint fact (n : nat) : Z :=
  match n with
  | O => 1
  | S n' => Z.of_nat n * fact n'
  end.

(** [math.comb(n, k)] on non-negative arguments: [n! / (k! * (n - k)!)]
    when [k <= n], and zero when [k > n]. *)
Definition comb (n k : nat) : Z :=
  if (n <? k)%nat then 0 else fact n / (fact k * fact (n - k)).

(** [a / b] on two Python integers. *)
Definition true_div (a b : Z) : result Q :=
  if b =? 0 then Raise ZeroDivisionError
  else Ok (inject_Z a / inject_Z b)%Q.

(** The loop that scans the couplets of the holding for the best level. *)
Fixpoint best_level_loop (levels : list (list Couplet))
    (couplets : list Couplet) (best_level_index : nat) : result nat :=
  match couplets with
  | [] => Ok best_level_index
  | couplet :: rest =>
      match index_of_level_containing couplet levels with
      | None => Raise TypeError
      | Some level_index =>
          best_level_loop levels rest
            (if (level_index <? best_level_index)%nat then level_index
             else best_level_index)
      end
  end.

(** The body of the [try] block: the accumulator
    [expected_pot_fraction_given_best_hand] keeps its value when an
    iteration raises. *)
Fixpoint tie_loop (num_equipotent_couplets num_worse_couplets : nat)
    (ks : list nat) (expected_pot_fraction_given_best_hand : Q)
  : Q * result unit :=
  match ks with
  | [] => (expected_pot_fraction_given_best_hand, Ok tt)
  | num_equipotent_opponents_couplets :: rest =>
      let num_worse_opponents_couplets :=
        (num_opponents_couplets - num_equipotent_opponents_couplets)%nat in
      match true_div
              (comb num_equipotent_couplets num_equipotent_opponents_couplets
               * comb num_worse_couplets num_worse_opponents_couplets)
              (comb (num_equipotent_couplets + num_worse_couplets)
                    num_opponents_couplets) with
      | Raise e => (expected_pot_fraction_given_best_hand, Raise e)
      | Ok prob_num_equipotent_opponents_couplets =>
          let num_winners := S num_equipotent_opponents_couplets in
          tie_loop num_equipotent_couplets num_worse_couplets rest
            (expected_pot_fraction_given_best_hand
             + prob_num_equipotent_opponents_couplets
               / inject_Z (Z.of_nat num_winners))%Q
      end
  end.

(** Steps 5 to 7 of [utility] (from the assignment of [prob_best_hand] to
    the [return]), as a function of the three counts.  The division for
    [prob_best_hand] stands before the [try]; the [except] clause catches
    [ZeroDivisionError] only. *)
Definition pot_fraction
    (num_better_couplets num_equipotent_couplets num_worse_couplets : nat)
  : result Q :=
  prob_best_hand ←
    true_div
      (comb (num_equipotent_couplets + num_worse_couplets)
            num_opponents_couplets)
      (comb (num_better_couplets + num_equipotent_couplets + num_worse_couplets)
            num_opponents_couplets);
  let '(expected_pot_fraction_given_best_hand, outcome) :=
    tie_loop num_equipotent_couplets num_worse_couplets
      (seq 0 (Nat.min (num_equipotent_couplets + 1) (num_opponents_couplets + 1)))
      0%Q in
  match outcome with
  | Ok _ | Raise ZeroDivisionError =>
      Ok (prob_best_hand * expected_pot_fraction_given_best_hand)%Q
  | Raise e => Raise e
  end.

Definition utility (holding board : list Card) : result Q :=
  generic_levels ← all_levels board;
  levels ← specify generic_levels board;
  couplets ← mapM couplify (subsets_of_size 2 holding);
  best_level_index ← best_level_loop levels couplets (length levels);
  let num_better_couplets :=
    length (remove_incompatible_couplets
              (flatten (take best_level_index levels)) holding) in
  equipotent_level ←
    match levels !! best_level_index with
    | Some level => Ok level
    | None => Raise IndexError
    end;
  let num_equipotent_couplets :=
    length (remove_incompatible_couplets equipotent_level holding) in
  let num_worse_couplets :=
    length (remove_incompatible_couplets
              (flatten (drop (S best_level_index) levels)) holding) in
  pot_fraction num_better_couplets num_equipotent_couplets num_worse_couplets.

(** The board-only entry point. *)
Definition rank_ladder (board : list Card) : result (list (list Couplet)) :=
  generic_levels ← all_levels board;
  specify generic_levels board.

(** ** Predicates of the specification *)

(** A rank-tally mapping has every rank of [rank_range] as a key. *)
Definition rank_tally_mapping (rank_tallies : gmap Z Z) : Prop :=
  Forall (λ rank, is_Some (rank_tallies !! rank)) rank_range.

(** The any-any wildcard card. *)
Definition any_any : Card := mkCard anything anything.

(** *** Flush levels, in the words of the specification

    For a suit, the ranks from the ace down to [three] that no board card of
    that suit has; a suit with at least three board cards contributes one
    level per such rank, the pattern "that rank of the suit, anything of the
    suit"; the suits are taken from the highest down. *)

Definition suited_count (board : list Card) (s : Z) : nat :=
  length (filter (λ card, suit card = s) board).

Definition missing_suited_ranks (board : list Card) (s : Z) : list Z :=
  filter (λ r, mkCard r s ∉ board) (reverse (py_range three num_ranks)).

Definition flush_level (s r : Z) : list Couplet :=
  [mkCouplet (mkCard r s) (mkCard anything s)].

Definition flush_levels_of_suit (board : list Card) (s : Z)
  : list (list Couplet) :=
  if bool_decide (3 ≤ suited_count board s)%nat
  then map (flush_level s) (missing_suited_ranks board s)
  else [].

Definition flush_levels_spec (board : list Card) : list (list Couplet) :=
  flat_map (flush_levels_of_suit board) suit_range.

(** *** The universe of concrete couplets

    [remaining_deck] is the first line of [specify]: the deck without the
    cards of the board.  [couplets_of deck] lists what
    [[couplify(subset) for subset in subsets_of_size(2, deck)]] evaluates
    to (lemma [couplify_subsets]). *)

Definition remaining_deck (board : list Card) : list Card :=
  filter (λ card, CardOps.is_compatible card board) assemble_deck.

Fixpoint couplets_of (deck : list Card) : list Couplet :=
  match deck with
  | [] => []
  | x :: xs => map (mkCouplet x) xs ++ couplets_of xs
  end.

(** [j] is the first generic level with a pattern that [couplet] fulfills. *)
Definition first_level_fulfilled (couplet : Couplet)
    (generic_levels : list (list Couplet)) (j : nat) : Prop :=
  (∃ level pattern,
     generic_levels !! j = Some level ∧ pattern ∈ level
     ∧ CoupletOps.fulfills couplet pattern = true)
  ∧ ∀ j' level' pattern,
      (j' < j)%nat → generic_levels !! j' = Some level' → pattern ∈ level' →
      CoupletOps.fulfills couplet pattern = false.

(** *** Physical cards

    A dealt card has a rank of [rank_range] and a suit of [suit_range]; the
    cards with a wildcard are patterns. *)

Definition physical (card : Card) : Prop :=
  (0 ≤ rank card < num_ranks) ∧ (0 ≤ suit card < num_suits).

#[global] Instance physical_dec card : Decision (physical card).
Proof. unfold physical. apply _. Defined.

(** The ranks that make up a [high_rank]-high straight, in descending
    order, as [straight_level_with_suit] lists them. *)
Definition straight_ranks (high_rank : Z) : list Z :=
  reverse (py_range (high_rank - 4) (high_rank + 1)).

(** What is left of the five ranks of a straight when three of them are
    taken out. *)
Definition window_split (high_rank : Z) (subset : list Z) : bool :=
  match subset, filter (λ rank, rank ∉ subset) (straight_ranks high_rank) with
  | [a; b; c], [r0; r1] =>
      bool_decide (c < b < a) && bool_decide (r1 < r0)
      && bool_decide ([r0; r1; a; b; c] ≡ₚ straight_ranks high_rank)
  | _, _ => false
  end.

(** The concrete couplets sorted by the index of the first generic level
    they fulfill: one class per generic level, in ladder order. *)
Definition first_match_classes (generic_levels : list (list Couplet))
    (couplets : list Couplet) : list (list Couplet) :=
  map (λ j, filter (λ couplet,
                      index_of_level_containing couplet generic_levels = Some j)
                   couplets)
      (seq 0 (length generic_levels)).

(** *** Binomial coefficients

    Pascal's triangle, and the partial sums of the Vandermonde convolution
    [sum (k < m) of C(e, k) * C(w, r - k)]; [comb] is related to them in
    lemma [comb_binom]. *)

Fixpoint binom (n k : nat) : Z :=
  match n, k with
  | _, O => 1
  | O, S _ => 0
  | S n', S k' => binom n' k' + binom n' k
  end.

Fixpoint vsum (e w r m : nat) : Z :=
  match m with
  | O => 0
  | S m' => vsum e w r m' + binom e m' * binom w (r - m')
  end.

(** *** Matching a ladder

    A couplet matches a list of levels when it fulfills a pattern of one of
    them. *)

Definition fulfills_a_level (couplet : Couplet) (levels : list (list Couplet))
  : Prop :=
  ∃ level pattern,
    level ∈ levels ∧ pattern ∈ level
    ∧ CoupletOps.fulfills couplet pattern = true.

(** *** Inputs of the examples *)

(** The scenario of the specification: board A♥ A♠ K♦ 7♣ 2♥, holding
    A♦ K♥ Q♣ J♠. *)
Definition scenario_board : list Card :=
  [mkCard ace hearts; mkCard ace spades; mkCard king diamonds;
   mkCard seven clubs; mkCard deuce hearts].

Definition scenario_holding : list Card :=
  [mkCard ace diamonds; mkCard king hearts; mkCard queen clubs;
   mkCard jack spades].

(** The same board with the ace of spades replaced by a second ace of
    hearts. *)
Definition duplicate_board : list Card :=
  [mkCard ace hearts; mkCard ace hearts; mkCard king diamonds;
   mkCard seven clubs; mkCard deuce hearts].

(** A board of the forty cards from the aces down to the fives, and the
    four fours as the holding: eight cards remain for the opponents. *)
Definition crowded_board : list Card := take 40 assemble_deck.

Definition crowded_holding : list Card :=
  [mkCard four hearts; mkCard four spades; mkCard four diamonds;
   mkCard four clubs].

(** A board with a card whose rank is the wildcard. *)
Definition wildcard_board : list Card :=
  [mkCard ace hearts; mkCard anything spades; mkCard king diamonds].

(** A board without a repeated rank, with three hearts. *)
Definition unpaired_board : list Card :=
  [mkCard ace hearts; mkCard king diamonds; mkCard nine hearts;
   mkCard seven clubs; mkCard deuce hearts].

(** The tallies of the scenario board. *)
Definition scenario_tallies : gmap Z Z :=
  list_to_map
    [(12, 2); (11, 1); (10, 0); (9, 0); (8, 0); (7, 0); (6, 0); (5, 1);
     (4, 0); (3, 0); (2, 0); (1, 0); (0, 1)].

(** * Properties *)

(** A closed decidable proposition is settled by evaluating its decision
    procedure. *)
Ltac by_evaluation := apply (bool_decide_unpack _); vm_compute; exact I.

(** ** The program on some inputs *)

Example itertools_order :
  subsets_of_size 2 [1; 2; 3; 4] = [[1; 2]; [1; 3]; [1; 4]; [2; 3]; [2; 4]; [3; 4]].
Proof. reflexivity. Qed.

Example comb_values : comb 5 2 = 10 ∧ comb 52 5 = 2598960 ∧ comb 28 30 = 0.
Proof. vm_compute. auto. Qed.

Example scenario_quads :
  four_of_a_kind_levels scenario_board = Ok [[pair_couplet ace]].
Proof. vm_compute. reflexivity. Qed.

Example scenario_full_houses :
  full_house_levels scenario_board
  = Ok [[mkCouplet (mkCard ace anything) (mkCard king anything)];
        [mkCouplet (mkCard ace anything) (mkCard seven anything)];
        [mkCouplet (mkCard ace anything) (mkCard deuce anything)];
        [pair_couplet king]; [pair_couplet seven]; [pair_couplet deuce]].
Proof. vm_compute. reflexivity. Qed.

(** A wheel: with A, 3 and 2 on the board, a five and a four make the
    five-high straight through the deprecated ace. *)
Example wheel_straight :
  straight_levels
    [mkCard ace hearts; mkCard deuce spades; mkCard three clubs;
     mkCard king spades; mkCard king diamonds]
  = Ok [[mkCouplet (mkCard five anything) (mkCard four anything)]].
Proof. vm_compute. reflexivity. Qed.

Example three_hearts_flushes :
  flush_levels
    [mkCard king hearts; mkCard nine hearts; mkCard four hearts;
     mkCard deuce spades; mkCard deuce diamonds]
  = Ok (map (λ r, [mkCouplet (mkCard r hearts) (mkCard anything hearts)])
            [ace; queen; jack; ten; eight; seven; six; five; three]).
Proof. vm_compute. reflexivity. Qed.

(** The concrete ladder of the scenario board has 91 levels, which hold the
    1081 two-card combinations of the 47 remaining cards; the strongest
    level is the pair of the two remaining aces. *)
Example scenario_ladder_shape :
  ∃ levels,
    rank_ladder scenario_board = Ok levels
    ∧ length levels = 91%nat ∧ length (concat levels) = 1081%nat
    ∧ levels !! 0%nat
      = Some [mkCouplet (mkCard ace diamonds) (mkCard ace clubs)].
Proof. eexists. split; [vm_compute; reflexivity |]. vm_compute. auto. Qed.

(** A holding that repeats the ace of diamonds: the couplet of the two
    copies is in no level. *)
Example repeated_card_equity :
  utility (mkCard ace diamonds :: scenario_holding) scenario_board
  = Raise TypeError.
Proof. vm_compute. reflexivity. Qed.

(** ** The ranges *)

Lemma rank_range_eq : rank_range = [12; 11; 10; 9; 8; 7; 6; 5; 4; 3; 2; 1; 0].
Proof. reflexivity. Qed.

Lemma suit_range_eq : suit_range = [3; 2; 1; 0].
Proof. reflexivity. Qed.

Lemma elem_of_py_range a b x : x ∈ py_range a b ↔ a ≤ x < b.
Proof. unfold py_range. rewrite elem_of_seqZ. lia. Qed.

Lemma elem_of_rank_range r : r ∈ rank_range ↔ 0 ≤ r < num_ranks.
Proof. unfold rank_range. rewrite elem_of_reverse. apply elem_of_py_range. Qed.

Lemma elem_of_suit_range s : s ∈ suit_range ↔ 0 ≤ s < num_suits.
Proof. unfold suit_range. rewrite elem_of_reverse. apply elem_of_py_range. Qed.

(** [reversed(range(a, b))] is strictly descending. *)
Lemma reverse_py_range_sorted a b :
  StronglySorted (λ x y, y < x) (reverse (py_range a b)).
Proof.
  unfold py_range.
  destruct (Z.le_gt_cases (b - a) 0) as [Hle | Hgt].
  { replace (seqZ a (b - a)) with (@nil Z); [constructor |].
    unfold seqZ. replace (Z.to_nat (b - a)) with 0%nat by lia. done. }
  rewrite <- (Z2Nat.id (b - a)) by lia.
  generalize (Z.to_nat (b - a)) as n. clear.
  induction n as [| n IH]; [constructor |].
  rewrite seqZ_S, reverse_snoc.
  constructor; [exact IH |].
  apply Forall_forall. intros y Hy.
  apply elem_of_reverse, elem_of_seqZ in Hy. lia.
Qed.

Lemma rank_range_sorted : StronglySorted (λ x y, y < x) rank_range.
Proof. apply reverse_py_range_sorted. Qed.

(** ** Matching of cards and couplets *)

Lemma card_fulfills_refl c : CardOps.fulfills c c = true.
Proof.
  unfold CardOps.fulfills. rewrite !Z.eqb_refl, !orb_true_r. reflexivity.
Qed.

Lemma is_copy_eq c d : CardOps.is_copy c d = true ↔ c = d.
Proof.
  unfold CardOps.is_copy. destruct c as [r s], d as [r' s']; simpl.
  rewrite andb_true_iff, !Z.eqb_eq. split; [intros [-> ->] | intros [= -> ->]]; done.
Qed.

Lemma card_is_compatible_spec c board :
  CardOps.is_compatible c board = true ↔ c ∉ board.
Proof.
  induction board as [| d board IH]; simpl.
  - split; [intros _; apply not_elem_of_nil | done].
  - rewrite not_elem_of_cons. destruct (CardOps.is_copy c d) eqn:E.
    + apply is_copy_eq in E. split; [done | intros [? _]; done].
    + rewrite IH. split; [| tauto]. intros H. split; [| done].
      intros ->. assert (CardOps.is_copy d d = true) by by apply is_copy_eq.
      congruence.
Qed.

(** C5. The matching of a couplet against a pattern couplet does not depend
    on the order of the two cards of the couplet, nor on the order of the two
    cards of the pattern: swapping either pair, or both, leaves
    [Couplet.fulfills] unchanged. *)
Theorem couplet_fulfills_swap (c1 c2 p1 p2 : Card) :
  CoupletOps.fulfills (mkCouplet c2 c1) (mkCouplet p1 p2)
  = CoupletOps.fulfills (mkCouplet c1 c2) (mkCouplet p1 p2)
  ∧ CoupletOps.fulfills (mkCouplet c1 c2) (mkCouplet p2 p1)
    = CoupletOps.fulfills (mkCouplet c1 c2) (mkCouplet p1 p2)
  ∧ CoupletOps.fulfills (mkCouplet c2 c1) (mkCouplet p2 p1)
    = CoupletOps.fulfills (mkCouplet c1 c2) (mkCouplet p1 p2).
Proof.
  unfold CoupletOps.fulfills; simpl.
  destruct (CardOps.fulfills c1 p1), (CardOps.fulfills c2 p2),
    (CardOps.fulfills c1 p2), (CardOps.fulfills c2 p1); auto.
Qed.

(** C6, as the code has it.  Every card fulfills the any-any card, but the
    any-any card fulfills a card only when that card is any-any itself: in
    [w.fulfills(c)] the wildcard test is made on the target [c], not on
    [w]. *)
Theorem any_any_fulfills (c : Card) :
  CardOps.fulfills c any_any = true
  ∧ (CardOps.fulfills any_any c = true ↔ c = any_any).
Proof.
  split; [reflexivity |].
  destruct c as [r s]. unfold CardOps.fulfills, any_any; cbn [rank suit].
  rewrite andb_true_iff, !orb_true_iff, !Z.eqb_eq.
  split.
  - intros [Hr Hs]. f_equal; [destruct Hr | destruct Hs]; congruence.
  - intros [= -> ->]. auto.
Qed.

(** C6, counterexample: the any-any card does not fulfill the ace of
    hearts, so that not every card is fulfilled in both directions. *)
Lemma any_any_fulfills_both_fails :
  ¬ (∀ c : Card,
       CardOps.fulfills c any_any = true ∧ CardOps.fulfills any_any c = true).
Proof.
  intros H. destruct (H (mkCard ace hearts)) as [_ H2].
  vm_compute in H2. discriminate.
Qed.

(** ** Rank tallies *)

Lemma tally_lookup t r n : t !! r = Some n → tally t r = n.
Proof. unfold tally. intros ->. reflexivity. Qed.

Lemma max_tally_fold_ge t ranks most :
  most ≤ fold_left
    (λ most_of_one_rank rank,
       let rank_tally := tally t rank in
       if rank_tally >? most_of_one_rank then rank_tally else most_of_one_rank)
    ranks most.
Proof.
  revert most. induction ranks as [| r ranks IH]; intros most; simpl; [lia |].
  destruct (Z.gtb_spec (tally t r) most); etrans; [| apply IH | | apply IH]; lia.
Qed.

Lemma max_tally_fold_witness t ranks most k :
  most < k →
  k ≤ fold_left
    (λ most_of_one_rank rank,
       let rank_tally := tally t rank in
       if rank_tally >? most_of_one_rank then rank_tally else most_of_one_rank)
    ranks most →
  ∃ r, r ∈ ranks ∧ k ≤ tally t r.
Proof.
  revert most. induction ranks as [| r ranks IH]; intros most Hlt; simpl; [lia |].
  intros Hk. destruct (Z.le_gt_cases k (tally t r)) as [Hr | Hr].
  - exists r. split; [left | done].
  - destruct (IH (if tally t r >? most then tally t r else most)) as (r' & ? & ?).
    + destruct (Z.gtb_spec (tally t r) most); lia.
    + exact Hk.
    + exists r'. split; [by right | done].
Qed.

Lemma max_tally_fold_upper t ranks most k :
  most ≤ k → (∀ r, r ∈ ranks → tally t r ≤ k) →
  fold_left
    (λ most_of_one_rank rank,
       let rank_tally := tally t rank in
       if rank_tally >? most_of_one_rank then rank_tally else most_of_one_rank)
    ranks most ≤ k.
Proof.
  revert most. induction ranks as [| r ranks IH]; intros most Hm Hall; simpl; [lia |].
  apply IH.
  - destruct (Z.gtb_spec (tally t r) most); [apply Hall; left | done].
  - intros r' Hr'. apply Hall. by right.
Qed.

(** The maximal tally is attained at a rank, as soon as it is positive. *)
Lemma max_tally_witness t k :
  0 < k → k ≤ max_tally t → ∃ r, r ∈ rank_range ∧ k ≤ tally t r.
Proof. apply max_tally_fold_witness. Qed.

Lemma max_tally_upper t r : r ∈ rank_range → tally t r ≤ max_tally t.
Proof.
  unfold max_tally. generalize 0 as most. induction rank_range as [| x l IH];
    intros most Hr; [by apply elem_of_nil in Hr |].
  simpl. apply elem_of_cons in Hr as [-> | Hr]; [| by apply IH].
  etrans; [| apply max_tally_fold_ge].
  destruct (Z.gtb_spec (tally t x) most); lia.
Qed.

Lemma max_tally_nonneg t : 0 ≤ max_tally t.
Proof. apply max_tally_fold_ge. Qed.

Lemma first_repeated_sorted t ranks :
  StronglySorted (λ x y, y < x) ranks →
  match first_repeated t ranks with
  | Some r =>
      r ∈ ranks ∧ 1 < tally t r
      ∧ ∀ r', r' ∈ ranks → 1 < tally t r' → r' ≤ r
  | None => ∀ r', r' ∈ ranks → tally t r' ≤ 1
  end.
Proof.
  induction 1 as [| x l Hl IH Hx]; simpl.
  - intros r' Hr'. by apply elem_of_nil in Hr'.
  - destruct (Z.gtb_spec (tally t x) 1) as [Hgt | Hle].
    + split; [left |]. split; [done |].
      intros r' Hr' _. apply elem_of_cons in Hr' as [-> | Hr']; [done |].
      rewrite Forall_forall in Hx. specialize (Hx _ Hr'). lia.
    + destruct (first_repeated t l) as [r |].
      * destruct IH as (Hr & Ht & Hmax). split; [by right |]. split; [done |].
        intros r' Hr' Ht'. apply elem_of_cons in Hr' as [-> | Hr']; [lia |].
        by apply Hmax.
      * intros r' Hr'. apply elem_of_cons in Hr' as [-> | Hr']; [done |].
        by apply IH.
Qed.

(** C7. On a rank-tally mapping whose maximal tally is at least 2,
    [highest_repeated_rank] returns the highest rank whose tally is at
    least 2; when every tally is below 2 it returns [None]. *)
Theorem highest_repeated_rank_spec (rank_tallies : gmap Z Z) :
  rank_tally_mapping rank_tallies →
  (2 ≤ max_tally rank_tallies →
   ∃ r n, highest_repeated_rank rank_tallies = Some r
          ∧ r ∈ rank_range
          ∧ rank_tallies !! r = Some n ∧ 2 ≤ n
          ∧ ∀ r' n', r' ∈ rank_range → rank_tallies !! r' = Some n' →
                     2 ≤ n' → r' ≤ r)
  ∧ ((∀ r n, r ∈ rank_range → rank_tallies !! r = Some n → n < 2) →
     highest_repeated_rank rank_tallies = None).
Proof.
  intros Hkeys. unfold rank_tally_mapping in Hkeys. rewrite Forall_forall in Hkeys.
  pose proof (first_repeated_sorted rank_tallies rank_range rank_range_sorted) as Hscan.
  fold (highest_repeated_rank rank_tallies) in Hscan.
  split.
  - intros Hmax. destruct (max_tally_witness rank_tallies 2) as (r0 & Hr0 & Ht0);
      [lia | done |].
    destruct (highest_repeated_rank rank_tallies) as [r |].
    + destruct Hscan as (Hr & Ht & Hhigh).
      destruct (Hkeys r Hr) as [n Hn]. exists r, n.
      rewrite (tally_lookup _ _ _ Hn) in Ht.
      repeat split; [done | done | lia |].
      intros r' n' Hr' Hn' Hge. apply Hhigh; [done |].
      rewrite (tally_lookup _ _ _ Hn'). lia.
    + specialize (Hscan r0 Hr0). lia.
  - intros Hlow. destruct (highest_repeated_rank rank_tallies) as [r |]; [| done].
    destruct Hscan as (Hr & Ht & _). destruct (Hkeys r Hr) as [n Hn].
    rewrite (tally_lookup _ _ _ Hn) in Ht. specialize (Hlow r n Hr Hn). lia.
Qed.

(** ** The result monad *)

Lemma bind_Ok {A B} (a : A) (f : A → result B) : Ok a ≫= f = f a.
Proof. reflexivity. Qed.

Lemma bind_Ok_inv {A B} (m : result A) (f : A → result B) b :
  m ≫= f = Ok b → ∃ a, m = Ok a ∧ f a = Ok b.
Proof. destruct m as [a |]; [by exists a | done]. Qed.

Lemma mapM_map_Ok {A B C} (f : B → result C) (h : A → B) (g : A → C) l :
  (∀ x, x ∈ l → f (h x) = Ok (g x)) →
  mapM f (map h l) = Ok (map g l).
Proof.
  induction l as [| x l IH]; intros Hall; [reflexivity |].
  cbn. rewrite (Hall x) by left. cbn.
  rewrite IH by (intros y Hy; apply Hall; by right). reflexivity.
Qed.

Lemma mapM_Ok {A B} (f : A → result B) (g : A → B) l :
  (∀ x, x ∈ l → f x = Ok (g x)) → mapM f l = Ok (map g l).
Proof.
  intros H. rewrite <- (map_id l) at 1. by apply mapM_map_Ok.
Qed.

(** ** Flush levels *)

Lemma StronglySorted_filter_list {A} (R : relation A) (P : A → Prop)
    `{∀ x, Decision (P x)} (l : list A) :
  StronglySorted R l → StronglySorted R (filter P l).
Proof.
  induction 1 as [| x l Hl IH Hx]; [constructor |].
  rewrite filter_cons. case_decide; [| exact IH].
  constructor; [exact IH |].
  rewrite Forall_forall in Hx. apply Forall_forall.
  intros y Hy. apply list_elem_of_filter in Hy as [_ Hy]. by apply Hx.
Qed.

Lemma missing_suited_ranks_sorted board s :
  StronglySorted (λ x y, y < x) (missing_suited_ranks board s).
Proof.
  unfold missing_suited_ranks. apply StronglySorted_filter_list, reverse_py_range_sorted.
Qed.

Lemma elem_of_missing_suited_ranks board s r :
  r ∈ missing_suited_ranks board s
  ↔ three ≤ r < num_ranks ∧ mkCard r s ∉ board.
Proof.
  unfold missing_suited_ranks.
  rewrite list_elem_of_filter, elem_of_reverse, elem_of_py_range. tauto.
Qed.

Lemma suited_rank_absent board s r :
  r ∉ extract_ranks (filter (λ card, suit card = s) board) false
  ↔ mkCard r s ∉ board.
Proof.
  unfold extract_ranks. apply not_iff_compat.
  rewrite list_elem_of_fmap. split.
  - intros ([r' s'] & -> & Hc). apply list_elem_of_filter in Hc as [Hs Hc].
    simpl in *. by subst.
  - intros Hc. exists (mkCard r s). split; [done |].
    by apply list_elem_of_filter.
Qed.

Lemma flush_levels_Ok board :
  flush_levels board = Ok (flush_levels_spec board).
Proof.
  unfold flush_levels, flush_levels_spec, partition_by_suit.
  erewrite (mapM_map_Ok _ _ (flush_levels_of_suit board)).
  - cbn. by rewrite flat_map_concat_map.
  - intros s _. unfold flush_levels_of_suit, suited_count.
    case_bool_decide as Hlen; [| reflexivity].
    destruct (filter (λ card, suit card = s) board) as [| first_card rest] eqn:E;
      [simpl in Hlen; lia |].
    assert (suit first_card = s) as Hfirst.
    { assert (first_card ∈ filter (λ card, suit card = s) board) as Hin
        by (rewrite E; left).
      by apply list_elem_of_filter in Hin as [? _]. }
    rewrite Hfirst, <- E. cbn. do 2 f_equal.
    unfold missing_suited_ranks. apply list_filter_iff.
    intros r. apply suited_rank_absent.
Qed.

(** C8. [flush_levels] agrees with the specification's description: the
    suits are scanned from the highest down; a suit with fewer than three
    board cards gives nothing; a suit with at least three board cards gives
    exactly one level for every rank that is at least [three] and is not
    among the board cards of that suit, in descending rank order, and the
    level is the single pattern (that rank of the suit, anything of the
    suit). *)
Theorem flush_levels_correct (board : list Card) :
  flush_levels board = Ok (flat_map (flush_levels_of_suit board) suit_range)
  ∧ ∀ s,
      ((suited_count board s < 3)%nat → flush_levels_of_suit board s = [])
      ∧ ((3 ≤ suited_count board s)%nat →
         ∃ ranks,
           flush_levels_of_suit board s
           = map (λ r, [mkCouplet (mkCard r s) (mkCard anything s)]) ranks
           ∧ StronglySorted (λ x y, y < x) ranks
           ∧ ∀ r, r ∈ ranks ↔ three ≤ r < num_ranks ∧ mkCard r s ∉ board).
Proof.
  split; [apply flush_levels_Ok |].
  intros s. unfold flush_levels_of_suit. split; intros Hc.
  - case_bool_decide; [lia | reflexivity].
  - case_bool_decide; [| lia]. exists (missing_suited_ranks board s).
    split; [reflexivity |]. split; [apply missing_suited_ranks_sorted |].
    apply elem_of_missing_suited_ranks.
Qed.

(** ** Two-card combinations *)

Lemma mapM_app_Ok {A B} (f : A → result B) l1 l2 r1 r2 :
  mapM f l1 = Ok r1 → mapM f l2 = Ok r2 → mapM f (l1 ++ l2) = Ok (r1 ++ r2).
Proof.
  revert r1. induction l1 as [| x l1 IH]; intros r1; cbn.
  - intros [= <-] ->. reflexivity.
  - destruct (f x) as [y |]; cbn; [| discriminate].
    destruct (mapM f l1) as [ys |] eqn:E; cbn; [| discriminate].
    intros [= <-] H2. rewrite (IH ys eq_refl H2). reflexivity.
Qed.

Lemma subsets_of_size_1 {A} (l : list A) :
  subsets_of_size 1 l = map (λ x, [x]) l.
Proof.
  induction l as [| x l IH]; [reflexivity |].
  cbn. destruct l; cbn in *; by rewrite ?IH.
Qed.

Lemma couplify_subsets (deck : list Card) :
  mapM couplify (subsets_of_size 2 deck) = Ok (couplets_of deck).
Proof.
  induction deck as [| x xs IH]; [reflexivity |].
  change (subsets_of_size 2 (x :: xs))
    with (map (cons x) (subsets_of_size 1 xs) ++ subsets_of_size 2 xs).
  apply mapM_app_Ok; [| exact IH].
  rewrite subsets_of_size_1, map_map. apply mapM_map_Ok. reflexivity.
Qed.

Lemma elem_of_couplets_of deck cp :
  cp ∈ couplets_of deck →
  card_1 cp ∈ deck ∧ card_2 cp ∈ deck.
Proof.
  induction deck as [| x xs IH]; simpl; [by intros ?%elem_of_nil |].
  rewrite elem_of_app, list_elem_of_fmap. intros [(y & -> & Hy) | H].
  - simpl. split; [left | by right].
  - destruct (IH H). split; by right.
Qed.

Lemma couplets_of_NoDup deck : NoDup deck → NoDup (couplets_of deck).
Proof.
  induction 1 as [| x xs Hx Hxs IH]; simpl; [constructor |].
  apply NoDup_app. split; [| split; [| exact IH]].
  - apply NoDup_fmap_2; [| exact Hxs]. intros y z [= ->]. reflexivity.
  - intros cp (y & -> & Hy)%list_elem_of_fmap Hcp.
    apply elem_of_couplets_of in Hcp as [Hcp _]. done.
Qed.

Lemma couplets_of_distinct deck cp :
  NoDup deck → cp ∈ couplets_of deck → card_1 cp ≠ card_2 cp.
Proof.
  induction 1 as [| x xs Hx Hxs IH]; simpl; [by intros ?%elem_of_nil |].
  rewrite elem_of_app, list_elem_of_fmap. intros [(y & -> & Hy) | H]; [| by apply IH].
  simpl. intros ->. done.
Qed.

(** Every unordered pair of distinct cards of the deck is listed, in one of
    its two orders. *)
Lemma couplets_of_complete deck c1 c2 :
  c1 ∈ deck → c2 ∈ deck → c1 ≠ c2 →
  mkCouplet c1 c2 ∈ couplets_of deck ∨ mkCouplet c2 c1 ∈ couplets_of deck.
Proof.
  induction deck as [| x xs IH]; [by intros ?%elem_of_nil |].
  intros H1 H2 Hne. simpl. rewrite !elem_of_app, !list_elem_of_fmap.
  apply elem_of_cons in H1 as [-> | H1]; apply elem_of_cons in H2 as [-> | H2].
  - done.
  - left. left. by exists c2.
  - right. left. by exists c1.
  - destruct (IH H1 H2 Hne); [left | right]; by right.
Qed.

(** ... and in only one of them. *)
Lemma couplets_of_one_order deck c1 c2 :
  NoDup deck →
  mkCouplet c1 c2 ∈ couplets_of deck → mkCouplet c2 c1 ∈ couplets_of deck → False.
Proof.
  induction 1 as [| x xs Hx Hxs IH]; simpl; [by intros ?%elem_of_nil |].
  rewrite !elem_of_app, !list_elem_of_fmap.
  intros [(y & [= -> ->] & Hy) | H1] [(z & [= -> ->] & Hz) | H2].
  - done.
  - apply elem_of_couplets_of in H2 as [_ H2]. done.
  - apply elem_of_couplets_of in H1 as [_ H1]. done.
  - by apply IH.
Qed.

Lemma assemble_deck_NoDup : NoDup assemble_deck.
Proof. by_evaluation. Qed.

Lemma elem_of_assemble_deck c :
  c ∈ assemble_deck ↔ 0 ≤ rank c < num_ranks ∧ 0 ≤ suit c < num_suits.
Proof.
  unfold assemble_deck. rewrite list_elem_of_In, in_flat_map.
  setoid_rewrite <- list_elem_of_In. setoid_rewrite list_elem_of_fmap.
  setoid_rewrite elem_of_rank_range. setoid_rewrite elem_of_suit_range.
  split.
  - intros (r & Hr & s & -> & Hs). done.
  - intros [Hr Hs]. exists (rank c). split; [done |].
    exists (suit c). split; [by destruct c | done].
Qed.

Lemma elem_of_remaining_deck board c :
  c ∈ remaining_deck board ↔ c ∈ assemble_deck ∧ c ∉ board.
Proof.
  unfold remaining_deck. rewrite list_elem_of_filter, Is_true_true.
  rewrite card_is_compatible_spec. tauto.
Qed.

Lemma remaining_deck_NoDup board : NoDup (remaining_deck board).
Proof. apply NoDup_filter, assemble_deck_NoDup. Qed.

(** ** The resolver places a couplet in its first level *)

Lemma scan_level_stopped sc i sl level :
  scan_level sc i (false, sl) level = (false, sl).
Proof. unfold scan_level. induction level as [| gc level IH]; [done | exact IH]. Qed.

Lemma scan_level_scanning sc i sl level :
  scan_level sc i (true, sl) level
  = if existsb (CoupletOps.fulfills sc) level
    then (false, alter (λ l, l ++ [sc]) i sl)
    else (true, sl).
Proof.
  induction level as [| gc level IH]; [done |].
  unfold scan_level in *. simpl.
  destruct (CoupletOps.fulfills sc gc); simpl; [| exact IH].
  apply (scan_level_stopped sc i _ level).
Qed.

Lemma place_stopped (gl : list (list Couplet)) sc idxs sl :
  fold_left (λ state level_index, scan_level sc level_index state (gl !!! level_index))
            idxs (false, sl) = (false, sl).
Proof.
  induction idxs as [| i idxs IH]; [done |].
  simpl. rewrite scan_level_stopped. exact IH.
Qed.

Lemma place_scanning (pre rest : list (list Couplet)) sc sl :
  fold_left
    (λ state level_index,
       scan_level sc level_index state ((pre ++ rest) !!! level_index))
    (seq (length pre) (length rest)) (true, sl)
  = match index_from sc rest (length pre) with
    | Some i => (false, alter (λ l, l ++ [sc]) i sl)
    | None => (true, sl)
    end.
Proof.
  revert pre. induction rest as [| level rest IH]; intros pre; [done |].
  simpl. rewrite list_lookup_total_middle by done.
  rewrite scan_level_scanning.
  destruct (existsb (CoupletOps.fulfills sc) level).
  - apply place_stopped.
  - specialize (IH (pre ++ [level])).
    rewrite <- app_assoc, length_app in IH. simpl in IH.
    rewrite Nat.add_1_r in IH. exact IH.
Qed.

Lemma place_spec gl sl sc :
  place gl sl sc
  = match index_of_level_containing sc gl with
    | Some i => alter (λ l, l ++ [sc]) i sl
    | None => sl
    end.
Proof.
  unfold place, index_of_level_containing.
  pose proof (place_scanning [] gl sc sl) as H. simpl in H. rewrite H.
  by destruct (index_from sc gl 0).
Qed.

Lemma index_from_bounds sc levels k i :
  index_from sc levels k = Some i → (k ≤ i < k + length levels)%nat.
Proof.
  revert k. induction levels as [| level levels IH]; intros k; simpl; [done |].
  destruct (existsb (CoupletOps.fulfills sc) level).
  - intros [= ->]. lia.
  - intros H%IH. lia.
Qed.

Lemma index_of_level_containing_lt sc levels i :
  index_of_level_containing sc levels = Some i → (i < length levels)%nat.
Proof. intros H%index_from_bounds. lia. Qed.

Lemma index_from_first sc levels k i :
  index_from sc levels k = Some i ↔
  (k ≤ i)%nat
  ∧ (∃ level pattern, levels !! (i - k)%nat = Some level ∧ pattern ∈ level
                      ∧ CoupletOps.fulfills sc pattern = true)
  ∧ ∀ j level pattern, (j < i - k)%nat → levels !! j = Some level →
                       pattern ∈ level → CoupletOps.fulfills sc pattern = false.
Proof.
  revert k. induction levels as [| level levels IH]; intros k; simpl.
  - split; [done |]. intros (_ & (? & ? & H & _) & _). done.
  - destruct (existsb (CoupletOps.fulfills sc) level) eqn:E.
    + apply existsb_exists in E as (pattern & Hin & Hf).
      apply list_elem_of_In in Hin. split.
      * intros [= ->]. split; [lia |]. rewrite Nat.sub_diag. split.
        -- by exists level, pattern.
        -- intros j ? ? ?. lia.
      * intros (Hk & _ & Hfirst). f_equal.
        destruct (decide (i = k)) as [-> | Hne]; [done |].
        specialize (Hfirst 0%nat level pattern). simpl in Hfirst.
        rewrite Hfirst in Hf by (done || lia). done.
    + assert (∀ pattern, pattern ∈ level → CoupletOps.fulfills sc pattern = false)
        as Hnone.
      { intros pattern Hin. destruct (CoupletOps.fulfills sc pattern) eqn:Hf; [| done].
        rewrite <- E. symmetry. apply existsb_exists. exists pattern.
        by rewrite <- list_elem_of_In. }
      rewrite IH. split.
      * intros (Hk & (lv & pattern & Hlv & Hin & Hf) & Hfirst).
        split; [lia |]. split.
        -- exists lv, pattern. replace (i - k)%nat with (S (i - S k)) by lia. done.
        -- intros j lv' pattern' Hj. destruct j as [| j]; simpl.
           ++ intros [= <-]. apply Hnone.
           ++ apply Hfirst. lia.
      * intros (Hk & (lv & pattern & Hlv & Hin & Hf) & Hfirst).
        destruct (decide (i = k)) as [-> | Hne].
        { rewrite Nat.sub_diag in Hlv. simpl in Hlv. injection Hlv as <-.
          rewrite (Hnone pattern Hin) in Hf. done. }
        split; [lia |]. split.
        -- exists lv, pattern. replace (i - k)%nat with (S (i - S k)) in Hlv by lia.
           done.
        -- intros j lv' pattern' Hj Hlv'. apply (Hfirst (S j)); [lia | done].
Qed.

(** [index_of_level_containing] returns the first level with a pattern that
    the couplet fulfills. *)
Lemma index_of_level_containing_first sc levels i :
  index_of_level_containing sc levels = Some i ↔ first_level_fulfilled sc levels i.
Proof.
  unfold index_of_level_containing, first_level_fulfilled.
  rewrite index_from_first, Nat.sub_0_r. intuition lia.
Qed.

Lemma index_of_level_containing_Some sc levels level pattern :
  level ∈ levels → pattern ∈ level → CoupletOps.fulfills sc pattern = true →
  ∃ i, index_of_level_containing sc levels = Some i.
Proof.
  unfold index_of_level_containing. generalize 0%nat as k.
  induction levels as [| lv levels IH]; intros k Hlv Hin Hf; [by apply elem_of_nil in Hlv |].
  simpl. destruct (existsb (CoupletOps.fulfills sc) lv) eqn:E; [by eexists |].
  apply elem_of_cons in Hlv as [-> | Hlv]; [| by apply IH].
  assert (existsb (CoupletOps.fulfills sc) lv = true); [| congruence].
  apply existsb_exists. exists pattern. by rewrite <- list_elem_of_In.
Qed.

Lemma specify_fold_lookup gl couplets (sl : list (list Couplet)) i :
  fold_left (place gl) couplets sl !! i
  = (λ l, l ++ filter (λ sc, index_of_level_containing sc gl = Some i) couplets)
      <$> sl !! i.
Proof.
  revert sl. induction couplets as [| sc couplets IH]; intros sl.
  - simpl. destruct (sl !! i); simpl; by rewrite ?app_nil_r.
  - simpl. rewrite IH, place_spec, filter_cons.
    destruct (index_of_level_containing sc gl) as [j |] eqn:E.
    + destruct (decide (j = i)) as [-> | Hne].
      * rewrite list_lookup_alter_eq, decide_True by done.
        destruct (sl !! i); simpl; [| done]. by rewrite <- app_assoc.
      * rewrite list_lookup_alter_ne, decide_False by congruence. done.
    + case_decide; [congruence | done].
Qed.

Lemma specify_fold gl couplets :
  fold_left (place gl) couplets (map (λ _, []) gl)
  = map (λ j, filter (λ sc, index_of_level_containing sc gl = Some j) couplets)
        (seq 0 (length gl)).
Proof.
  apply list_eq. intros i.
  rewrite specify_fold_lookup, !list_lookup_fmap.
  destruct (decide (i < length gl)%nat) as [Hlt | Hge].
  - rewrite lookup_seq_lt by done.
    destruct (lookup_lt_is_Some_2 gl i Hlt) as [lv ->]. reflexivity.
  - rewrite lookup_seq_ge by lia. rewrite lookup_ge_None_2 by lia. reflexivity.
Qed.

Lemma filter_classes_skip {A} (f : A → option nat) x l js :
  (∀ j, j ∈ js → f x ≠ Some j) →
  map (λ j, filter (λ y, f y = Some j) (x :: l)) js
  = map (λ j, filter (λ y, f y = Some j) l) js.
Proof.
  intros H. apply map_ext_in. intros j Hj%list_elem_of_In.
  rewrite filter_cons. case_decide; [by destruct (H j Hj) | done].
Qed.

Lemma filter_classes_cons {A} (f : A → option nat) x l js i :
  NoDup js → f x = Some i → i ∈ js →
  concat (map (λ j, filter (λ y, f y = Some j) (x :: l)) js)
  ≡ₚ x :: concat (map (λ j, filter (λ y, f y = Some j) l) js).
Proof.
  induction 1 as [| j js Hj Hjs IH]; intros Hx Hi; [by apply elem_of_nil in Hi |].
  simpl map. simpl concat. rewrite filter_cons.
  destruct (decide (i = j)) as [-> | Hne].
  - rewrite decide_True by done. rewrite filter_classes_skip; [done |].
    intros j' Hj' E. rewrite Hx in E. injection E as ->. done.
  - apply elem_of_cons in Hi as [-> | Hi]; [done |].
    rewrite decide_False by congruence.
    rewrite (IH Hx Hi). by rewrite Permutation_middle.
Qed.

(** Sorting a list into the classes of a total index function permutes it. *)
Lemma filter_classes_Permutation {A} (f : A → option nat) l n :
  (∀ x, x ∈ l → ∃ i, f x = Some i ∧ (i < n)%nat) →
  concat (map (λ j, filter (λ y, f y = Some j) l) (seq 0 n)) ≡ₚ l.
Proof.
  induction l as [| x l IH]; intros Hall.
  - simpl. induction (seq 0 n) as [| j js IHjs]; [done | exact IHjs].
  - destruct (Hall x) as (i & Hi & Hlt); [left |].
    rewrite (filter_classes_cons f x l (seq 0 n) i); [| apply NoDup_seq | done |].
    + rewrite IH; [done |]. intros y Hy. apply Hall. by right.
    + apply elem_of_seq. lia.
Qed.

Lemma remove_empty_levels_concat levels :
  concat (remove_empty_levels levels) = concat levels.
Proof.
  unfold remove_empty_levels. induction levels as [| lv levels IH]; [done |].
  rewrite filter_cons. case_decide; simpl; rewrite IH; [done |].
  destruct lv; [done | simpl in *; lia].
Qed.

Lemma remove_empty_levels_nonempty levels :
  Forall (λ level, level ≠ []) (remove_empty_levels levels).
Proof.
  apply Forall_forall. intros lv [Hlen _]%list_elem_of_filter.
  intros ->. simpl in Hlen. lia.
Qed.

(** ** The generic ladder ends with the catch-all level *)

Lemma catch_all_fulfilled sc : CoupletOps.fulfills sc catch_all = true.
Proof. reflexivity. Qed.

Lemma all_levels_catch_all board gl :
  all_levels board = Ok gl → ∃ pre, gl = pre ++ [[catch_all]].
Proof.
  unfold all_levels. intros H.
  apply bind_Ok_inv in H as (sf & _ & H).
  apply bind_Ok_inv in H as (fk & _ & H).
  apply bind_Ok_inv in H as (fh & _ & H).
  apply bind_Ok_inv in H as (fl & _ & H).
  apply bind_Ok_inv in H as (st & _ & H).
  apply bind_Ok_inv in H as (tk & _ & H).
  apply bind_Ok_inv in H as (tp & _ & H).
  apply bind_Ok_inv in H as (op & _ & H).
  apply bind_Ok_inv in H as (hc & _ & H).
  injection H as <-.
  exists (sf ++ fk ++ fh ++ fl ++ st ++ tk ++ tp ++ op ++ hc).
  by rewrite <- !app_assoc.
Qed.

Lemma all_levels_total_index board gl sc :
  all_levels board = Ok gl →
  ∃ i, index_of_level_containing sc gl = Some i ∧ (i < length gl)%nat.
Proof.
  intros [pre ->]%all_levels_catch_all.
  destruct (index_of_level_containing_Some sc (pre ++ [[catch_all]])
              [catch_all] catch_all) as [i Hi].
  - apply elem_of_app. right. left.
  - left.
  - apply catch_all_fulfilled.
  - exists i. split; [done |]. by apply index_of_level_containing_lt in Hi.
Qed.

Lemma elem_of_concat {A} (ls : list (list A)) x :
  x ∈ concat ls ↔ ∃ l, l ∈ ls ∧ x ∈ l.
Proof.
  rewrite list_elem_of_In, in_concat. setoid_rewrite <- list_elem_of_In. done.
Qed.

Lemma NoDup_concat_unique {A} (ls : list (list A)) i j l1 l2 x :
  NoDup (concat ls) → ls !! i = Some l1 → ls !! j = Some l2 →
  x ∈ l1 → x ∈ l2 → i = j.
Proof.
  revert i j. induction ls as [| l ls IH]; intros i j Hnd Hi Hj H1 H2; [done |].
  simpl in Hnd. apply NoDup_app in Hnd as (Hl & Hdisj & Hls).
  destruct i as [| i], j as [| j]; simpl in *.
  - done.
  - injection Hi as ->. exfalso. apply (Hdisj x H1).
    apply elem_of_concat. exists l2. split; [| done].
    by apply list_elem_of_lookup_2 in Hj.
  - injection Hj as ->. exfalso. apply (Hdisj x H2).
    apply elem_of_concat. exists l1. split; [| done].
    by apply list_elem_of_lookup_2 in Hi.
  - f_equal. by apply IH.
Qed.

(** ** The generic ladder is built without an exception

    On a board whose ranks are ranks of the deck no builder raises: the
    [KeyError] of [tally_ranks], the [IndexError] of [couplify_ranks] and of
    [subboard[0]], and the [None] of [highest_repeated_rank] do not
    occur. *)

Lemma mapM_is_ok {A B} (f : A → result B) l :
  (∀ x, x ∈ l → is_ok (f x) = true) → ∃ r, mapM f l = Ok r.
Proof.
  induction l as [| x l IH]; intros Hall; [by eexists |].
  destruct IH as [r Hr]; [intros y Hy; apply Hall; by right |].
  specialize (Hall x (list_elem_of_here _ _)).
  cbn. destruct (f x) as [y |]; [| done]. cbn. rewrite Hr. by eexists.
Qed.

Lemma tally_loop_Ok ranks (t : gmap Z Z) :
  (∀ r, r ∈ ranks → is_Some (t !! r)) →
  ∃ t', tally_loop ranks t = Ok t' ∧ ∀ r, is_Some (t' !! r) ↔ is_Some (t !! r).
Proof.
  revert t. induction ranks as [| r ranks IH]; intros t Hall; [by exists t |].
  simpl. destruct (Hall r) as [n Hn]; [left |]. rewrite Hn.
  destruct (IH (<[r := n + 1]> t)) as (t' & Ht' & Hkeys).
  - intros r' Hr'. rewrite lookup_insert_is_Some'. right. apply Hall. by right.
  - exists t'. split; [done |]. intros r'. rewrite Hkeys, lookup_insert_is_Some'.
    split; [intros [-> | ?]; [by eexists | done] | by right].
Qed.

Lemma initial_tallies_keys :
  Forall (λ r, (list_to_map (map (λ r, (r, 0)) rank_range) : gmap Z Z) !! r = Some 0)
         rank_range.
Proof. by_evaluation. Qed.

Lemma tally_ranks_Ok board :
  Forall (λ card, 0 ≤ rank card < num_ranks) board →
  ∃ t, tally_ranks board = Ok t ∧ rank_tally_mapping t.
Proof.
  intros Hboard. unfold tally_ranks, extract_ranks.
  pose proof initial_tallies_keys as Hinit. rewrite Forall_forall in Hinit.
  destruct (tally_loop_Ok (map rank board)
              (list_to_map (map (λ r, (r, 0)) rank_range))) as (t & Ht & Hkeys).
  - intros r (c & -> & Hc)%list_elem_of_fmap.
    rewrite Forall_forall in Hboard. specialize (Hboard c Hc).
    rewrite Hinit; [by eexists | by apply elem_of_rank_range].
  - exists t. split; [done |]. apply Forall_forall. intros r Hr.
    rewrite Hkeys, Hinit; [by eexists | done].
Qed.

(** The keys of the dict that [tally_ranks] returns are the ranks of
    [rank_range]: the subscripts [rank_tallies[rank]] of the builders, read
    with [tally], do not raise. *)
Lemma tally_ranks_keys board t :
  tally_ranks board = Ok t → rank_tally_mapping t.
Proof.
  unfold tally_ranks. intros Ht.
  pose proof initial_tallies_keys as Hinit. rewrite Forall_forall in Hinit.
  assert (∀ ranks (t0 t' : gmap Z Z), tally_loop ranks t0 = Ok t' →
            ∀ r, is_Some (t0 !! r) → is_Some (t' !! r)) as Hkeep.
  { induction ranks as [| r ranks IH]; intros t0 t'; simpl.
    - by intros [= ->].
    - destruct (t0 !! r) as [n |] eqn:E; [| done]. intros Hloop r' Hr'.
      apply (IH _ _ Hloop). rewrite lookup_insert_is_Some'. by right. }
  apply Forall_forall. intros r Hr. apply (Hkeep _ _ _ Ht).
  rewrite Hinit; [by eexists | done].
Qed.

Lemma highest_repeated_rank_Some t :
  max_tally t = 2 → ∃ r, highest_repeated_rank t = Some r.
Proof.
  intros Hmax. destruct (max_tally_witness t 2) as (r0 & Hr0 & Ht0); [lia.. |].
  pose proof (first_repeated_sorted t rank_range rank_range_sorted) as Hscan.
  fold (highest_repeated_rank t) in Hscan.
  destruct (highest_repeated_rank t) as [r |]; [by exists r |].
  specialize (Hscan r0 Hr0). lia.
Qed.

Lemma four_of_a_kind_levels_Ok board :
  Forall (λ card, 0 ≤ rank card < num_ranks) board →
  ∃ levels, four_of_a_kind_levels board = Ok levels.
Proof.
  intros (t & Ht & _)%tally_ranks_Ok. unfold four_of_a_kind_levels.
  rewrite Ht, bind_Ok. by eexists.
Qed.

Lemma full_house_levels_Ok board :
  Forall (λ card, 0 ≤ rank card < num_ranks) board →
  ∃ levels, full_house_levels board = Ok levels.
Proof.
  intros (t & Ht & _)%tally_ranks_Ok. unfold full_house_levels.
  rewrite Ht, bind_Ok. repeat case_match; by eexists.
Qed.

Lemma three_of_a_kind_levels_Ok board :
  Forall (λ card, 0 ≤ rank card < num_ranks) board →
  ∃ levels, three_of_a_kind_levels board = Ok levels.
Proof.
  intros (t & Ht & _)%tally_ranks_Ok. unfold three_of_a_kind_levels.
  rewrite Ht, bind_Ok. repeat case_match; by eexists.
Qed.

Lemma two_pair_levels_Ok board :
  Forall (λ card, 0 ≤ rank card < num_ranks) board →
  ∃ levels, two_pair_levels board = Ok levels.
Proof.
  intros (t & Ht & _)%tally_ranks_Ok. unfold two_pair_levels.
  rewrite Ht, bind_Ok.
  destruct (max_tally t =? 1); [by eexists |].
  destruct (max_tally t =? 2) eqn:E; [| by eexists].
  apply Z.eqb_eq in E. destruct (highest_repeated_rank_Some t E) as [r ->].
  by eexists.
Qed.

Lemma one_pair_levels_Ok board :
  Forall (λ card, 0 ≤ rank card < num_ranks) board →
  ∃ levels, one_pair_levels board = Ok levels.
Proof.
  intros (t & Ht & _)%tally_ranks_Ok. unfold one_pair_levels.
  rewrite Ht, bind_Ok. repeat case_match; by eexists.
Qed.

Lemma high_card_levels_Ok board :
  Forall (λ card, 0 ≤ rank card < num_ranks) board →
  ∃ levels, high_card_levels board = Ok levels.
Proof.
  intros (t & Ht & _)%tally_ranks_Ok. unfold high_card_levels.
  rewrite Ht, bind_Ok. repeat case_match; by eexists.
Qed.

(** Taking a three-card subset out of the five ranks of a straight leaves
    two ranks for [couplify_ranks]. *)
Lemma straight_remainder :
  Forall (λ high_rank,
            Forall (λ subset,
                      (2 ≤ length (filter (λ rank, rank ∉ subset)
                                          (straight_ranks high_rank)))%nat)
                   (subsets_of_size 3 (straight_ranks high_rank)))
         (reverse (py_range five num_ranks)).
Proof. by_evaluation. Qed.

Lemma couplify_ranks_is_ok ranks s :
  (2 ≤ length ranks)%nat → is_ok (couplify_ranks ranks s) = true.
Proof. destruct ranks as [| r0 [| r1 rest]]; simpl; [lia | lia | done]. Qed.

Lemma straight_level_with_suit_Ok high_rank board_ranks s :
  high_rank ∈ reverse (py_range five num_ranks) →
  ∃ level, straight_level_with_suit high_rank board_ranks s = Ok level.
Proof.
  intros Hhigh. unfold straight_level_with_suit. fold (straight_ranks high_rank).
  apply mapM_is_ok. intros subset [Hsub _]%list_elem_of_filter.
  apply couplify_ranks_is_ok.
  pose proof straight_remainder as H. rewrite Forall_forall in H.
  specialize (H high_rank Hhigh). rewrite Forall_forall in H. by apply H.
Qed.

Lemma straight_levels_with_suit_Ok board s :
  ∃ levels, straight_levels_with_suit board s = Ok levels.
Proof.
  unfold straight_levels_with_suit.
  destruct (mapM_is_ok
              (λ rank, straight_level_with_suit rank
                         (unique_ranks (extract_ranks board true)) s)
              (reverse (py_range five num_ranks))) as [levels ->].
  - intros high Hhigh.
    by destruct (straight_level_with_suit_Ok high
                   (unique_ranks (extract_ranks board true)) s Hhigh) as [? ->].
  - rewrite bind_Ok. by eexists.
Qed.

Lemma straight_flush_levels_Ok board :
  ∃ levels, straight_flush_levels board = Ok levels.
Proof.
  unfold straight_flush_levels.
  match goal with |- context [mapM ?f ?l] =>
    destruct (mapM_is_ok f l) as [blocks ->] end.
  - intros subboard _. case_bool_decide as Hlen; [| done].
    destruct subboard as [| first_card rest]; [simpl in Hlen; lia |].
    by destruct (straight_levels_with_suit_Ok (first_card :: rest) (suit first_card))
      as [? ->].
  - rewrite bind_Ok. by eexists.
Qed.

Lemma all_levels_Ok board :
  Forall (λ card, 0 ≤ rank card < num_ranks) board →
  ∃ pre, all_levels board = Ok (pre ++ [[catch_all]]).
Proof.
  intros Hboard. unfold all_levels.
  destruct (straight_flush_levels_Ok board) as [sf ->].
  destruct (four_of_a_kind_levels_Ok board Hboard) as [fk ->].
  destruct (full_house_levels_Ok board Hboard) as [fh ->].
  rewrite flush_levels_Ok.
  destruct (straight_levels_with_suit_Ok board anything) as [st Hst].
  unfold straight_levels. rewrite Hst.
  destruct (three_of_a_kind_levels_Ok board Hboard) as [tk ->].
  destruct (two_pair_levels_Ok board Hboard) as [tp ->].
  destruct (one_pair_levels_Ok board Hboard) as [op ->].
  destruct (high_card_levels_Ok board Hboard) as [hc ->].
  rewrite !bind_Ok. eexists. unfold mret, result_ret.
  rewrite !app_assoc. reflexivity.
Qed.

(** ** Matching against physical cards *)

Lemma couplet_fulfills_itself c1 c2 :
  CoupletOps.fulfills (mkCouplet c1 c2) (mkCouplet c1 c2) = true
  ∧ CoupletOps.fulfills (mkCouplet c1 c2) (mkCouplet c2 c1) = true.
Proof.
  unfold CoupletOps.fulfills. simpl. rewrite !card_fulfills_refl.
  split; [reflexivity | apply orb_true_r].
Qed.

Lemma physical_not_wildcard p :
  physical p → rank p ≠ anything ∧ suit p ≠ anything.
Proof. unfold physical, num_ranks, num_suits, anything. lia. Qed.

Lemma card_fulfills_physical c p :
  physical p → CardOps.fulfills c p = true → c = p.
Proof.
  intros [Hr Hs]%physical_not_wildcard. unfold CardOps.fulfills.
  rewrite andb_true_iff, !orb_true_iff, !Z.eqb_eq.
  destruct c, p; simpl in *. intros [[? | ->] [? | ->]]; done.
Qed.

Lemma couplet_fulfills_concrete cp cp' :
  physical (card_1 cp') → physical (card_2 cp') →
  CoupletOps.fulfills cp cp' = true →
  (card_1 cp = card_1 cp' ∧ card_2 cp = card_2 cp')
  ∨ (card_1 cp = card_2 cp' ∧ card_2 cp = card_1 cp').
Proof.
  intros H1 H2. unfold CoupletOps.fulfills.
  rewrite orb_true_iff, !andb_true_iff.
  intros [[Ha Hb] | [Ha Hb]]; [left | right];
    split; by apply card_fulfills_physical.
Qed.

Lemma index_of_level_containing_None cp levels :
  (∀ level cp', level ∈ levels → cp' ∈ level →
                CoupletOps.fulfills cp cp' = false) →
  index_of_level_containing cp levels = None.
Proof.
  unfold index_of_level_containing. generalize 0%nat as k.
  induction levels as [| level levels IH]; intros k Hall; [done |].
  simpl. destruct (existsb (CoupletOps.fulfills cp) level) eqn:E.
  - apply existsb_exists in E as (cp' & Hin%list_elem_of_In & Hf).
    rewrite (Hall level cp') in Hf; [done | left | done].
  - apply IH. intros lv cp' Hlv. apply Hall. by right.
Qed.

Lemma physical_remaining board c :
  physical c → c ∉ board → c ∈ remaining_deck board.
Proof.
  intros Hc Hb. apply elem_of_remaining_deck. split; [| done].
  by apply elem_of_assemble_deck.
Qed.

(** ** Counting two-card combinations *)

Lemma couplets_of_filter (P : Card → bool) deck :
  filter (λ cp, P (card_1 cp) && P (card_2 cp)) (couplets_of deck)
  = couplets_of (filter (λ c, P c) deck).
Proof.
  induction deck as [| x xs IH]; [reflexivity |].
  simpl couplets_of. rewrite filter_app, IH, filter_cons.
  assert (filter (λ cp, P (card_1 cp) && P (card_2 cp)) (map (mkCouplet x) xs)
          = if P x then map (mkCouplet x) (filter (λ c, P c) xs) else []) as ->.
  { clear IH. induction xs as [| y ys IHys]; [by destruct (P x) |].
    simpl map. rewrite !filter_cons, IHys. simpl.
    destruct (P x), (P y); simpl; done. }
  destruct (P x) eqn:E.
  - rewrite decide_True by done. reflexivity.
  - rewrite decide_False by (by intros []). reflexivity.
Qed.

Lemma remove_incompatible_couplets_of deck holding :
  remove_incompatible_couplets (couplets_of deck) holding
  = couplets_of (filter (λ c, CardOps.is_compatible c holding) deck).
Proof.
  unfold remove_incompatible_couplets, CoupletOps.is_compatible.
  apply (couplets_of_filter (λ c, CardOps.is_compatible c holding)).
Qed.

Lemma length_couplets_of deck :
  (2 * length (couplets_of deck) = length deck * (length deck - 1))%nat.
Proof.
  induction deck as [| x xs IH]; [reflexivity |].
  simpl couplets_of. rewrite length_app, length_map. simpl length.
  destruct (length xs) as [| n]; simpl in *; lia.
Qed.

(** Removing the cards of [l] from a duplicate-free deck removes at most
    [length l] cards. *)
Lemma length_filter_compatible deck l :
  NoDup deck →
  (length deck ≤ length (filter (λ c, CardOps.is_compatible c l) deck) + length l)%nat.
Proof.
  intros Hnd.
  rewrite <- (filter_app_complement (λ c, CardOps.is_compatible c l) deck) at 1.
  rewrite length_app. apply Nat.add_le_mono_l.
  apply submseteq_length, NoDup_submseteq; [by apply NoDup_filter |].
  intros c [Hc _]%list_elem_of_filter.
  destruct (decide (c ∈ l)) as [? | Hn]; [done |].
  apply card_is_compatible_spec in Hn. by rewrite Hn in Hc.
Qed.

Lemma length_assemble_deck : length assemble_deck = 52%nat.
Proof. reflexivity. Qed.

Lemma level_counts (levels : list (list Couplet)) i level holding :
  levels !! i = Some level →
  (length (remove_incompatible_couplets (flatten (take i levels)) holding)
   + length (remove_incompatible_couplets level holding)
   + length (remove_incompatible_couplets (flatten (drop (S i) levels)) holding)
   = length (remove_incompatible_couplets (flatten levels) holding))%nat.
Proof.
  intros Hi. rewrite <- (take_drop_middle levels i level Hi) at 3.
  unfold flatten, remove_incompatible_couplets.
  rewrite concat_app. simpl concat. rewrite !filter_app, !length_app. lia.
Qed.

(** ** The concrete ladder *)

Lemma specify_Ok gl board :
  specify gl board
  = Ok (remove_empty_levels
          (first_match_classes gl (couplets_of (remaining_deck board)))).
Proof.
  unfold specify. fold (remaining_deck board).
  rewrite couplify_subsets, bind_Ok, specify_fold. reflexivity.
Qed.

(** The facts about the concrete ladder of a board whose generic ladder
    [gl] was built. *)
Section Ladder.

Variable board : list Card.
Variable gl : list (list Couplet).
Hypothesis Hgl : all_levels board = Ok gl.

Let levels : list (list Couplet) :=
  remove_empty_levels
    (first_match_classes gl (couplets_of (remaining_deck board))).

Lemma ladder_Permutation :
  concat levels ≡ₚ couplets_of (remaining_deck board).
Proof.
  unfold levels. rewrite remove_empty_levels_concat.
  apply filter_classes_Permutation. intros cp _.
  by apply (all_levels_total_index board).
Qed.

Lemma ladder_NoDup : NoDup (concat levels).
Proof.
  rewrite ladder_Permutation.
  apply couplets_of_NoDup, remaining_deck_NoDup.
Qed.

Lemma ladder_index c1 c2 :
  c1 ∈ remaining_deck board → c2 ∈ remaining_deck board → c1 ≠ c2 →
  ∃ i, index_of_level_containing (mkCouplet c1 c2) levels = Some i.
Proof.
  intros H1 H2 Hne.
  destruct (couplet_fulfills_itself c1 c2) as [Hsame Hswap].
  destruct (couplets_of_complete _ c1 c2 H1 H2 Hne) as [Hcp | Hcp];
    rewrite <- ladder_Permutation in Hcp;
    apply elem_of_concat in Hcp as (level & Hlevel & Hcp);
    by eapply index_of_level_containing_Some.
Qed.

(** The couplets of a holding of distinct physical cards off the board are
    found in the ladder. *)
Lemma holding_couplets_found holding :
  Forall physical holding → NoDup holding → (∀ c, c ∈ holding → c ∉ board) →
  ∀ cp, cp ∈ couplets_of holding →
        ∃ i, index_of_level_containing cp levels = Some i.
Proof.
  intros Hphys Hnodup Hdisj [c1 c2] Hcp.
  rewrite Forall_forall in Hphys.
  pose proof (couplets_of_distinct holding _ Hnodup Hcp) as Hne.
  apply elem_of_couplets_of in Hcp as [H1 H2]. simpl in *.
  apply ladder_index; [| | done]; apply physical_remaining; auto.
Qed.

(** A couplet with twice the same card, or with a card of the board, is in
    no level of the ladder. *)
Lemma not_in_ladder cp :
  card_1 cp = card_2 cp ∨ card_1 cp ∈ board ∨ card_2 cp ∈ board →
  index_of_level_containing cp levels = None.
Proof.
  intros Hbad. apply index_of_level_containing_None.
  intros level cp' Hlevel Hcp'.
  destruct (CoupletOps.fulfills cp cp') eqn:Hf; [exfalso | done].
  assert (cp' ∈ couplets_of (remaining_deck board)) as Hin.
  { rewrite <- ladder_Permutation. apply elem_of_concat. by exists level. }
  pose proof (couplets_of_distinct _ _ (remaining_deck_NoDup board) Hin) as Hne.
  apply elem_of_couplets_of in Hin as [H1 H2].
  apply elem_of_remaining_deck in H1 as [H1 Hb1].
  apply elem_of_remaining_deck in H2 as [H2 Hb2].
  apply elem_of_assemble_deck in H1, H2.
  destruct (couplet_fulfills_concrete cp cp' H1 H2 Hf) as [[Ha Hb] | [Ha Hb]];
    destruct Hbad as [Hsame | [Hon | Hon]]; congruence.
Qed.

(** The couplets of the ladder that are compatible with a holding are the
    two-card combinations of the cards that are neither on the board nor in
    the holding. *)
Lemma compatible_couplets_count holding :
  length (remove_incompatible_couplets (flatten levels) holding)
  = length (couplets_of
              (filter (λ c, CardOps.is_compatible c holding) (remaining_deck board))).
Proof.
  rewrite <- remove_incompatible_couplets_of.
  unfold remove_incompatible_couplets, flatten.
  by rewrite ladder_Permutation.
Qed.

End Ladder.

(** C1. For a board of cards whose ranks are ranks of the deck, the generic
    ladder [all_levels board] is built, [specify] resolves it, and the
    concrete ladder partitions the two-card combinations of the deck
    without the board: its levels together list every combination once
    (no omission, no double count: each unordered pair of distinct
    remaining cards is there in exactly one order, in exactly one level),
    each combination sits in the class of the first generic level with a
    pattern that it fulfills, the classes keep the ladder order, and no
    level of the output is empty.  The remaining cards are the cards of
    the deck without the board: the physical cards that are not on the
    board, each of them once. *)
Theorem specify_partitions (board : list Card) :
  Forall (λ card, 0 ≤ rank card < num_ranks) board →
  ∃ generic_levels levels,
    all_levels board = Ok generic_levels
    ∧ specify generic_levels board = Ok levels
    ∧ concat levels ≡ₚ couplets_of (remaining_deck board)
    ∧ NoDup (concat levels)
    ∧ (∀ cp, cp ∈ concat levels →
         card_1 cp ∈ remaining_deck board ∧ card_2 cp ∈ remaining_deck board
         ∧ card_1 cp ≠ card_2 cp)
    ∧ (∀ c1 c2,
         c1 ∈ remaining_deck board → c2 ∈ remaining_deck board → c1 ≠ c2 →
         (mkCouplet c1 c2 ∈ concat levels ∨ mkCouplet c2 c1 ∈ concat levels)
         ∧ ¬ (mkCouplet c1 c2 ∈ concat levels ∧ mkCouplet c2 c1 ∈ concat levels))
    ∧ (∀ cp, cp ∈ concat levels →
         ∃ i level,
           levels !! i = Some level ∧ cp ∈ level
           ∧ ∀ i' level', levels !! i' = Some level' → cp ∈ level' → i' = i)
    ∧ Forall (λ level, level ≠ []) levels
    ∧ levels
      = remove_empty_levels
          (map (λ j, filter (λ cp, index_of_level_containing cp generic_levels
                                   = Some j)
                            (couplets_of (remaining_deck board)))
               (seq 0 (length generic_levels)))
    ∧ (∀ cp j, index_of_level_containing cp generic_levels = Some j
               ↔ first_level_fulfilled cp generic_levels j)
    ∧ (∀ c, c ∈ remaining_deck board ↔ physical c ∧ c ∉ board)
    ∧ NoDup (remaining_deck board).
Proof.
  intros Hboard. destruct (all_levels_Ok board Hboard) as [pre Hgl].
  set (gl := pre ++ [[catch_all]]) in *.
  set (couplets := couplets_of (remaining_deck board)).
  exists gl, (remove_empty_levels (first_match_classes gl couplets)).
  pose proof (ladder_Permutation board gl Hgl) as Hperm.
  pose proof (ladder_NoDup board gl Hgl) as Hnodup.
  fold couplets in Hperm, Hnodup.
  pose proof (remaining_deck_NoDup board) as Hdeck.
  split; [done |]. split; [apply specify_Ok |].
  split; [done |]. split; [done |].
  split; [| split; [| split; [| split; [| split; [| split; [| split]]]]]].
  - intros cp Hcp. rewrite Hperm in Hcp.
    destruct (elem_of_couplets_of _ _ Hcp). split; [done |]. split; [done |].
    by apply (couplets_of_distinct (remaining_deck board)).
  - intros c1 c2 H1 H2 Hne. rewrite !Hperm. split.
    + by apply couplets_of_complete.
    + intros [Ha Hb]. by apply (couplets_of_one_order (remaining_deck board) c1 c2).
  - intros cp Hcp. apply elem_of_concat in Hcp as (level & Hlevel & Hcp).
    apply list_elem_of_lookup in Hlevel as [i Hi].
    exists i, level. split; [done |]. split; [done |].
    intros i' level' Hi' Hcp'.
    by apply (NoDup_concat_unique _ i' i level' level cp Hnodup).
  - apply remove_empty_levels_nonempty.
  - reflexivity.
  - intros cp j. apply index_of_level_containing_first.
  - intros c. rewrite elem_of_remaining_deck, elem_of_assemble_deck. done.
  - done.
Qed.

(** ** The couplets of a holding are found in the concrete ladder *)

Lemma best_level_loop_Ok levels couplets best :
  (∀ cp, cp ∈ couplets → ∃ i, index_of_level_containing cp levels = Some i) →
  ∃ best',
    best_level_loop levels couplets best = Ok best'
    ∧ (best' ≤ best)%nat
    ∧ (couplets ≠ [] → (best' < length levels)%nat).
Proof.
  revert best. induction couplets as [| cp couplets IH]; intros best Hall.
  - exists best. by split.
  - simpl. destruct (Hall cp) as [i Hi]; [left |]. rewrite Hi.
    destruct (IH (if (i <? best)%nat then i else best)) as (best' & -> & Hle & _).
    { intros cp' Hcp'. apply Hall. by right. }
    exists best'. split; [done |].
    pose proof (index_of_level_containing_lt _ _ _ Hi).
    destruct (Nat.ltb_spec i best); split; intros; lia.
Qed.


(** ** Binomial coefficients *)

Lemma fact_pos n : 0 < fact n.
Proof. induction n as [| n IH]; [done |]. change (0 < Z.of_nat (S n) * fact n). nia. Qed.

Lemma binom_0_r n : binom n 0 = 1.
Proof. by destruct n. Qed.

Lemma binom_S n k : binom (S n) (S k) = binom n k + binom n (S k).
Proof. reflexivity. Qed.

Lemma binom_nonneg n k : 0 ≤ binom n k.
Proof.
  revert k. induction n as [| n IH]; intros [| k]; simpl; try lia.
  pose proof (IH k). pose proof (IH (S k)). lia.
Qed.

Lemma binom_gt n k : (n < k)%nat → binom n k = 0.
Proof.
  revert k. induction n as [| n IH]; intros [| k] Hlt; simpl; try lia.
  rewrite !IH by lia. reflexivity.
Qed.

Lemma binom_diag n : binom n n = 1.
Proof.
  induction n as [| n IH]; [done |]. simpl. rewrite IH, binom_gt by lia. done.
Qed.

Lemma binom_fact n k :
  (k ≤ n)%nat → binom n k * (fact k * fact (n - k)) = fact n.
Proof.
  revert k. induction n as [| n IH]; intros k Hk.
  - replace k with 0%nat by lia. reflexivity.
  - destruct k as [| k].
    + rewrite binom_0_r, Nat.sub_0_r. change (fact 0) with 1. lia.
    + destruct (decide (k = n)) as [-> | Hne].
      * rewrite binom_diag, Nat.sub_diag. change (fact 0) with 1. lia.
      * rewrite binom_S. change (S n - S k)%nat with (n - k)%nat.
        pose proof (IH k ltac:(lia)) as IH1.
        pose proof (IH (S k) ltac:(lia)) as IH2.
        replace (n - k)%nat with (S (n - S k)) in * by lia.
        change (fact (S n)) with (Z.of_nat (S n) * fact n).
        change (fact (S k)) with (Z.of_nat (S k) * fact k) in *.
        change (fact (S (n - S k)))
          with (Z.of_nat (S (n - S k)) * fact (n - S k)) in *.
        replace (Z.of_nat (S n))
          with (Z.of_nat (S k) + Z.of_nat (S (n - S k))) by lia.
        nia.
Qed.

(** [math.comb] computes the binomial coefficient. *)
Lemma comb_binom n k : comb n k = binom n k.
Proof.
  unfold comb. destruct (Nat.ltb_spec n k) as [Hlt | Hle].
  - by rewrite binom_gt.
  - rewrite <- (binom_fact n k Hle). apply Z.div_mul.
    pose proof (fact_pos k). pose proof (fact_pos (n - k)). nia.
Qed.

Lemma binom_pos n k : (k ≤ n)%nat → 0 < binom n k.
Proof.
  intros Hle. pose proof (binom_fact n k Hle). pose proof (binom_nonneg n k).
  pose proof (fact_pos n). pose proof (fact_pos k). pose proof (fact_pos (n - k)).
  nia.
Qed.

Lemma binom_mono n m k : (n ≤ m)%nat → binom n k ≤ binom m k.
Proof.
  induction 1 as [| m Hle IH]; [done |].
  etrans; [exact IH |]. destruct k as [| k]; [by rewrite !binom_0_r |].
  rewrite binom_S. pose proof (binom_nonneg m k). lia.
Qed.

Lemma binom_zero_iff n k : binom n k = 0 ↔ (n < k)%nat.
Proof.
  split; [| apply binom_gt]. intros H.
  destruct (Nat.lt_ge_cases n k) as [? | Hle]; [done |].
  pose proof (binom_pos n k Hle). lia.
Qed.

Lemma vsum_nonneg e w r m : 0 ≤ vsum e w r m.
Proof.
  induction m as [| m IH]; simpl; [done |].
  pose proof (binom_nonneg e m). pose proof (binom_nonneg w (r - m)). nia.
Qed.

Lemma vsum_mono e w r m m' : (m ≤ m')%nat → vsum e w r m ≤ vsum e w r m'.
Proof.
  induction 1 as [| m' Hle IH]; [done |]. simpl.
  pose proof (binom_nonneg e m'). pose proof (binom_nonneg w (r - m')). nia.
Qed.

Lemma vsum_0_l w r m : vsum 0 w r (S m) = binom w r.
Proof.
  induction m as [| m IH].
  - simpl. rewrite Nat.sub_0_r. lia.
  - change (vsum 0 w r (S (S m)))
      with (vsum 0 w r (S m) + binom 0 (S m) * binom w (r - S m)).
    rewrite IH. simpl. lia.
Qed.

Lemma vsum_S_l e w r m :
  vsum (S e) w (S r) (S m) = vsum e w (S r) (S m) + vsum e w r m.
Proof.
  induction m as [| m IH].
  - cbn [vsum]. rewrite !binom_0_r. lia.
  - change (vsum (S e) w (S r) (S (S m)))
      with (vsum (S e) w (S r) (S m) + binom (S e) (S m) * binom w (r - m)).
    change (vsum e w (S r) (S (S m)))
      with (vsum e w (S r) (S m) + binom e (S m) * binom w (r - m)).
    change (vsum e w r (S m)) with (vsum e w r m + binom e m * binom w (r - m)).
    rewrite IH, binom_S. lia.
Qed.

(** The Vandermonde convolution. *)
Lemma vandermonde e w r : vsum e w r (S r) = binom (e + w) r.
Proof.
  revert r. induction e as [| e IH]; intros r; [apply vsum_0_l |].
  destruct r as [| r]; [simpl; rewrite !binom_0_r; lia |].
  rewrite vsum_S_l, !IH. change (S e + w)%nat with (S (e + w)).
  rewrite binom_S. lia.
Qed.

Lemma vsum_le_binom e w r m : (m ≤ S r)%nat → vsum e w r m ≤ binom (e + w) r.
Proof. intros H. rewrite <- vandermonde. by apply vsum_mono. Qed.

(** ** The pot fraction *)

Lemma true_div_Ok a b : b ≠ 0 → true_div a b = Ok (inject_Z a / inject_Z b)%Q.
Proof. intros Hb. unfold true_div. by rewrite (proj2 (Z.eqb_neq b 0) Hb). Qed.

Lemma true_div_zero a : true_div a 0 = Raise ZeroDivisionError.
Proof. reflexivity. Qed.

Lemma true_div_inv a b q :
  true_div a b = Ok q → b ≠ 0 ∧ q = (inject_Z a / inject_Z b)%Q.
Proof.
  unfold true_div. destruct (Z.eqb_spec b 0); [done |]. by intros [= <-].
Qed.

Lemma true_div_outcome a b :
  (∃ q, true_div a b = Ok q) ∨ true_div a b = Raise ZeroDivisionError.
Proof. unfold true_div. destruct (b =? 0); [by right | left; by eexists]. Qed.

Lemma inject_Z_pos b : 0 < b → (0 < inject_Z b)%Q.
Proof. intros H. change 0%Q with (inject_Z 0). by rewrite <- Zlt_Qlt. Qed.

Lemma inject_Z_nonneg a : 0 ≤ a → (0 <= inject_Z a)%Q.
Proof. intros H. change 0%Q with (inject_Z 0). by rewrite <- Zle_Qle. Qed.

Lemma ratio_nonneg a b : 0 ≤ a → 0 < b → (0 <= inject_Z a / inject_Z b)%Q.
Proof.
  intros Ha Hb. apply Qle_shift_div_l; [by apply inject_Z_pos |].
  rewrite Qmult_0_l. by apply inject_Z_nonneg.
Qed.

Lemma ratio_le_1 a b : a ≤ b → 0 < b → (inject_Z a / inject_Z b <= 1)%Q.
Proof.
  intros Ha Hb. apply Qle_shift_div_r; [by apply inject_Z_pos |].
  rewrite Qmult_1_l. by rewrite <- Zle_Qle.
Qed.

Lemma ratio_mono a a' b :
  a ≤ a' → 0 < b → (inject_Z a / inject_Z b <= inject_Z a' / inject_Z b)%Q.
Proof.
  intros Ha Hb. apply Qmult_le_compat_r; [by rewrite <- Zle_Qle |].
  apply Qinv_le_0_compat, Qlt_le_weak. by apply inject_Z_pos.
Qed.

Lemma ratio_plus a a' b :
  0 < b →
  (inject_Z (a + a') / inject_Z b == inject_Z a / inject_Z b + inject_Z a' / inject_Z b)%Q.
Proof.
  intros Hb. rewrite inject_Z_plus. field.
  intros H. pose proof (inject_Z_pos b Hb) as Hpos. rewrite H in Hpos.
  by apply Qlt_irrefl in Hpos.
Qed.

(** Sharing a non-negative amount among [S k] winners does not increase
    it. *)
Lemma share_le (x : Q) (k : nat) :
  (0 <= x)%Q → (0 <= x / inject_Z (Z.of_nat (S k)) <= x)%Q.
Proof.
  intros Hx. assert (0 < inject_Z (Z.of_nat (S k)))%Q as Hpos
    by (apply inject_Z_pos; lia).
  assert (1 <= inject_Z (Z.of_nat (S k)))%Q as Hone
    by (change 1%Q with (inject_Z 1); rewrite <- Zle_Qle; lia).
  split.
  - apply Qle_shift_div_l; [done |]. by rewrite Qmult_0_l.
  - apply Qle_shift_div_r; [done |].
    nra.
Qed.

(** With no equipotent-or-worse population to draw from, the first
    iteration of the [try] block raises, and the accumulator is left as it
    was. *)
Lemma tie_loop_zero e w k ks acc :
  comb (e + w) num_opponents_couplets = 0 →
  tie_loop e w (k :: ks) acc = (acc, Raise ZeroDivisionError).
Proof. intros H. simpl. rewrite H. reflexivity. Qed.

Lemma tie_loop_bounds e w j len acc :
  0 < comb (e + w) num_opponents_couplets →
  (0 <= acc)%Q →
  (acc <= inject_Z (vsum e w num_opponents_couplets j)
          / inject_Z (comb (e + w) num_opponents_couplets))%Q →
  ∃ acc',
    tie_loop e w (seq j len) acc = (acc', Ok tt)
    ∧ (0 <= acc')%Q
    ∧ (acc' <= inject_Z (vsum e w num_opponents_couplets (j + len))
               / inject_Z (comb (e + w) num_opponents_couplets))%Q.
Proof.
  intros HD. revert j acc. induction len as [| len IH]; intros j acc Hacc0 Hacc.
  - exists acc. rewrite Nat.add_0_r. by split.
  - cbn [seq tie_loop]. rewrite true_div_Ok by lia.
    set (t := comb e j * comb w (num_opponents_couplets - j)).
    assert (0 ≤ t) as Ht.
    { unfold t. rewrite !comb_binom.
      pose proof (binom_nonneg e j).
      pose proof (binom_nonneg w (num_opponents_couplets - j)). nia. }
    pose proof (ratio_nonneg t _ Ht HD) as Hx.
    pose proof (share_le _ j Hx) as [Hs0 Hs1].
    destruct (IH (S j)
                (acc + inject_Z t / inject_Z (comb (e + w) num_opponents_couplets)
                       / inject_Z (Z.of_nat (S j)))%Q)
      as (acc' & Hloop & H0 & H1).
    + lra.
    + change (vsum e w num_opponents_couplets (S j))
        with (vsum e w num_opponents_couplets j
              + binom e j * binom w (num_opponents_couplets - j)).
      rewrite <- !comb_binom. fold t. rewrite (ratio_plus _ _ _ HD). lra.
    + exists acc'. split; [exact Hloop |]. split; [done |].
      by rewrite Nat.add_succ_r.
Qed.

Lemma tie_loop_outcome e w ks acc :
  snd (tie_loop e w ks acc) = Ok tt
  ∨ snd (tie_loop e w ks acc) = Raise ZeroDivisionError.
Proof.
  revert acc. induction ks as [| k ks IH]; intros acc; [by left |].
  simpl.
  destruct (true_div_outcome
              (comb e k * comb w (num_opponents_couplets - k))
              (comb (e + w) num_opponents_couplets)) as [[q ->] | ->];
    [apply IH | by right].
Qed.

(** Steps 5 to 7 raise exactly when the divisor of [prob_best_hand] is
    zero. *)
Lemma pot_fraction_Ok b e w :
  comb (b + e + w) num_opponents_couplets ≠ 0 →
  ∃ q, pot_fraction b e w = Ok q.
Proof.
  intros HB. unfold pot_fraction. rewrite true_div_Ok, bind_Ok by done.
  match goal with |- context [tie_loop ?e ?w ?ks ?acc] =>
    pose proof (tie_loop_outcome e w ks acc) as Hout;
    destruct (tie_loop e w ks acc) as [epf outcome] end.
  simpl in Hout. destruct Hout as [-> | ->]; by eexists.
Qed.

Lemma pot_fraction_raises b e w :
  comb (b + e + w) num_opponents_couplets = 0 →
  pot_fraction b e w = Raise ZeroDivisionError.
Proof. intros HB. unfold pot_fraction. rewrite HB. reflexivity. Qed.

(** The case that the [except] clause is written for: when the holding's
    level and the weaker ones hold fewer couplets than the opponents, while
    the whole ladder holds enough, the result is zero. *)
Lemma pot_fraction_degenerate b e w :
  (e + w < num_opponents_couplets)%nat →
  (num_opponents_couplets ≤ b + e + w)%nat →
  ∃ q, pot_fraction b e w = Ok q ∧ (q == 0)%Q.
Proof.
  intros Hfew Henough. unfold pot_fraction.
  assert (comb (e + w) num_opponents_couplets = 0) as Hz
    by (rewrite comb_binom; by apply binom_gt).
  rewrite true_div_Ok, bind_Ok
    by (rewrite comb_binom, binom_zero_iff; lia).
  replace (Nat.min (e + 1) (num_opponents_couplets + 1))
    with (S (Nat.min e num_opponents_couplets)) by lia.
  cbn [seq]. rewrite tie_loop_zero by done.
  eexists. split; [reflexivity |]. apply Qmult_0_r.
Qed.

Lemma pot_fraction_bounds b e w q :
  pot_fraction b e w = Ok q → (0 <= q <= 1)%Q.
Proof.
  unfold pot_fraction. intros H.
  apply bind_Ok_inv in H as (prob & Hprob & H).
  apply true_div_inv in Hprob as [HB ->].
  rewrite !comb_binom in *.
  set (n := num_opponents_couplets) in *.
  pose proof (binom_nonneg (e + w) n) as HA0.
  pose proof (binom_nonneg (b + e + w) n) as HB0.
  pose proof (binom_mono (e + w) (b + e + w) n ltac:(lia)) as HAB.
  assert (0 < binom (b + e + w) n) as HBpos by lia.
  pose proof (ratio_nonneg _ _ HA0 HBpos) as Hp0.
  pose proof (ratio_le_1 _ _ HAB HBpos) as Hp1.
  assert (∃ epf outcome,
            tie_loop e w (seq 0 (Nat.min (e + 1) (n + 1))) 0%Q = (epf, outcome)
            ∧ (0 <= epf <= 1)%Q) as (epf & outcome & Hloop & Hepf).
  { destruct (decide (binom (e + w) n = 0)) as [Hz | Hnz].
    - replace (Nat.min (e + 1) (n + 1)) with (S (Nat.min e n)) by lia.
      eexists _, _. split; [apply tie_loop_zero; by rewrite comb_binom |]. lra.
    - destruct (tie_loop_bounds e w 0 (Nat.min (e + 1) (n + 1)) 0%Q)
        as (epf & Hloop & H0 & H1).
      + rewrite comb_binom. fold n. lia.
      + lra.
      + apply ratio_nonneg; [apply vsum_nonneg | rewrite comb_binom; fold n; lia].
      + exists epf, (Ok tt). split; [exact Hloop |]. split; [done |].
        apply (Qle_trans _ _ _ H1). rewrite comb_binom. fold n.
        apply ratio_le_1; [| lia]. apply vsum_le_binom. lia. }
  rewrite Hloop in H.
  assert (q = (inject_Z (binom (e + w) n) / inject_Z (binom (b + e + w) n) * epf)%Q)
    as -> by (destruct outcome as [| []]; congruence).
  split; nra.
Qed.

(** ** Counting the couplets that are compatible with a holding *)

Lemma enough_couplets board holding :
  (length holding + length board ≤ 43)%nat →
  (num_opponents_couplets
   ≤ length (couplets_of
               (filter (λ c, CardOps.is_compatible c holding) (remaining_deck board))))%nat.
Proof.
  intros Hsize.
  pose proof (length_filter_compatible assemble_deck board assemble_deck_NoDup) as H1.
  fold (remaining_deck board) in H1.
  pose proof (length_filter_compatible (remaining_deck board) holding
                (remaining_deck_NoDup board)) as H2.
  rewrite length_assemble_deck in H1.
  pose proof (length_couplets_of
                (filter (λ c, CardOps.is_compatible c holding) (remaining_deck board)))
    as H3.
  change num_opponents_couplets with 30%nat. nia.
Qed.

(** ** The equity engine *)

(** Whatever [utility] returns is a probability. *)
Lemma utility_bounded holding board q :
  utility holding board = Ok q → (0 <= q <= 1)%Q.
Proof.
  unfold utility. intros H.
  apply bind_Ok_inv in H as (gl & _ & H).
  apply bind_Ok_inv in H as (levels & _ & H).
  apply bind_Ok_inv in H as (couplets & _ & H).
  apply bind_Ok_inv in H as (best & _ & H).
  apply bind_Ok_inv in H as (level & _ & H).
  by apply pot_fraction_bounds in H.
Qed.

(** For a holding of at least two distinct physical cards off the board,
    [utility] reaches its steps 5 to 7, with three counts that add up to
    the number of two-card combinations of the cards that are neither on
    the board nor in the holding. *)
Lemma utility_counts holding board :
  Forall (λ card, 0 ≤ rank card < num_ranks) board →
  Forall physical holding → NoDup holding →
  (∀ c, c ∈ holding → c ∉ board) →
  (2 ≤ length holding)%nat →
  ∃ nb ne nw,
    utility holding board = pot_fraction nb ne nw
    ∧ (nb + ne + nw)%nat
      = length (couplets_of
                  (filter (λ c, CardOps.is_compatible c holding)
                          (remaining_deck board))).
Proof.
  intros Hboard Hphys Hnodup Hdisj Hlen.
  destruct (all_levels_Ok board Hboard) as [pre Hgl].
  set (gl := pre ++ [[catch_all]]) in *.
  set (levels := remove_empty_levels
                   (first_match_classes gl (couplets_of (remaining_deck board)))).
  pose proof (holding_couplets_found board gl Hgl holding Hphys Hnodup Hdisj)
    as Hfound. fold levels in Hfound.
  destruct (best_level_loop_Ok levels (couplets_of holding) (length levels) Hfound)
    as (best & Hbest & _ & Hlt).
  assert (couplets_of holding ≠ []) as Hne.
  { destruct holding as [| x [| y rest]]; simpl in *; [lia | lia | done]. }
  destruct (lookup_lt_is_Some_2 levels best (Hlt Hne)) as [level Hlevel].
  eexists _, _, _. split.
  - unfold utility. rewrite Hgl, bind_Ok, specify_Ok, bind_Ok.
    fold levels. rewrite couplify_subsets, bind_Ok, Hbest, bind_Ok, Hlevel, bind_Ok.
    reflexivity.
  - rewrite (level_counts levels best level holding Hlevel).
    apply (compatible_couplets_count board gl Hgl holding).
Qed.

(** [utility] returns as soon as thirty couplets are left to the
    opponents, which is so when the holding and the board have at most 43
    cards together. *)
Lemma utility_Ok holding board :
  Forall (λ card, 0 ≤ rank card < num_ranks) board →
  Forall physical holding → NoDup holding →
  (∀ c, c ∈ holding → c ∉ board) →
  (2 ≤ length holding)%nat →
  (length holding + length board ≤ 43)%nat →
  ∃ q, utility holding board = Ok q.
Proof.
  intros Hboard Hphys Hnodup Hdisj Hlen Hsize.
  destruct (utility_counts holding board) as (nb & ne & nw & -> & Hsum); [done.. |].
  apply pot_fraction_Ok. rewrite comb_binom, binom_zero_iff.
  pose proof (enough_couplets board holding Hsize). lia.
Qed.

(** When fewer couplets are left than the opponents hold, the division for
    [prob_best_hand] raises, and nothing catches it. *)
Lemma utility_raises holding board :
  Forall (λ card, 0 ≤ rank card < num_ranks) board →
  Forall physical holding → NoDup holding →
  (∀ c, c ∈ holding → c ∉ board) →
  (2 ≤ length holding)%nat →
  (length (couplets_of
             (filter (λ c, CardOps.is_compatible c holding) (remaining_deck board)))
   < num_opponents_couplets)%nat →
  utility holding board = Raise ZeroDivisionError.
Proof.
  intros Hboard Hphys Hnodup Hdisj Hlen Hfew.
  destruct (utility_counts holding board) as (nb & ne & nw & -> & Hsum); [done.. |].
  apply pot_fraction_raises. rewrite comb_binom, binom_zero_iff. lia.
Qed.

(** C4. For a board and a holding of physical cards without duplicates and
    without a common card, the value that [utility] returns lies between 0
    and 1; and [utility] does return a value when the holding has at least
    two cards and holding and board have at most 43 cards together, as with
    the four-card holdings and five-card boards of the program.  (The
    quotients are exact rationals here.) *)
Theorem utility_bounds (holding board : list Card) :
  Forall physical board → NoDup board →
  Forall physical holding → NoDup holding →
  Forall (λ c, c ∉ board) holding →
  (∀ q, utility holding board = Ok q → (0 <= q <= 1)%Q)
  ∧ ((2 ≤ length holding)%nat → (length holding + length board ≤ 43)%nat →
     ∃ q, utility holding board = Ok q ∧ (0 <= q <= 1)%Q).
Proof.
  intros Hboard _ Hphys Hnodup Hdisj.
  split; [intros q; apply utility_bounded |].
  intros Hlen Hsize. destruct (utility_Ok holding board) as [q Hq]; try done.
  - eapply Forall_impl; [exact Hboard |]. by intros c [? _].
  - by apply Forall_forall.
  - exists q. split; [done |]. by apply utility_bounded in Hq.
Qed.

(** ** Holdings that are not valid *)

Lemma best_level_loop_TypeError levels couplets best cp :
  cp ∈ couplets → index_of_level_containing cp levels = None →
  best_level_loop levels couplets best = Raise TypeError.
Proof.
  intros Hcp Hnone. revert best.
  induction couplets as [| cp0 couplets IH]; intros best; [by apply elem_of_nil in Hcp |].
  simpl. destruct (index_of_level_containing cp0 levels) as [i |] eqn:E; [| done].
  apply elem_of_cons in Hcp as [-> | Hcp]; [congruence | by apply IH].
Qed.

Lemma duplicate_couplet holding :
  ¬ NoDup holding → ∃ c, mkCouplet c c ∈ couplets_of holding.
Proof.
  induction holding as [| x xs IH]; intros Hdup; [destruct Hdup; constructor |].
  destruct (decide (x ∈ xs)) as [Hin | Hnot].
  - exists x. simpl. apply elem_of_app. left. by apply list_elem_of_fmap_2.
  - destruct IH as [c Hc].
    + intros Hxs. apply Hdup. by constructor.
    + exists c. simpl. apply elem_of_app. by right.
Qed.

Lemma couplet_with_card holding c :
  c ∈ holding → (2 ≤ length holding)%nat →
  ∃ cp, cp ∈ couplets_of holding ∧ (card_1 cp = c ∨ card_2 cp = c).
Proof.
  induction holding as [| x xs IH]; intros Hc Hlen; [by apply elem_of_nil in Hc |].
  apply elem_of_cons in Hc as [<- | Hc].
  - destruct xs as [| y ys]; [simpl in Hlen; lia |].
    exists (mkCouplet c y). split; [left | by left].
  - exists (mkCouplet x c). split; [| by right].
    simpl. apply elem_of_app. left. by apply list_elem_of_fmap_2.
Qed.

Lemma utility_TypeError holding board :
  Forall (λ card, 0 ≤ rank card < num_ranks) board →
  (2 ≤ length holding)%nat →
  ¬ NoDup holding ∨ Exists (λ c, c ∈ board) holding →
  ∃ generic_levels levels,
    all_levels board = Ok generic_levels
    ∧ specify generic_levels board = Ok levels
    ∧ utility holding board = Raise TypeError.
Proof.
  intros Hboard Hlen Hbad.
  destruct (all_levels_Ok board Hboard) as [pre Hgl].
  eexists _, _. split; [exact Hgl |]. split; [apply specify_Ok |].
  assert (∃ cp, cp ∈ couplets_of holding
                ∧ (card_1 cp = card_2 cp ∨ card_1 cp ∈ board ∨ card_2 cp ∈ board))
    as (cp & Hcp & Hcards).
  { destruct Hbad as [Hdup | Hover].
    - destruct (duplicate_couplet holding Hdup) as [c Hc].
      exists (mkCouplet c c). split; [done | by left].
    - apply Exists_exists in Hover as (c & Hc & Hcb).
      destruct (couplet_with_card holding c Hc Hlen) as (cp & Hcp & [<- | <-]);
        exists cp; auto. }
  unfold utility. rewrite Hgl, bind_Ok, specify_Ok, bind_Ok.
  rewrite couplify_subsets, bind_Ok.
  rewrite (best_level_loop_TypeError _ _ _ cp Hcp); [reflexivity |].
  by apply (not_in_ladder board).
Qed.

(** C2, as the code has it.  [utility] validates nothing before it builds
    the ladder.  On a board whose ranks are ranks of the deck and for a
    holding of at least two cards: when the holding repeats a card or holds
    a card of the board, the ladder is built and resolved, and [utility]
    then fails with the [TypeError] of comparing [None], the level index of
    a couplet that is in no level, with an integer; when the holding is
    made of distinct physical cards off the board (at most 43 cards with
    the board), [utility] returns a value, whether the board repeats a card
    or not. *)
Theorem utility_no_validation (holding board : list Card) :
  Forall (λ card, 0 ≤ rank card < num_ranks) board →
  (2 ≤ length holding)%nat →
  (¬ NoDup holding ∨ Exists (λ c, c ∈ board) holding →
   ∃ generic_levels levels,
     all_levels board = Ok generic_levels
     ∧ specify generic_levels board = Ok levels
     ∧ utility holding board = Raise TypeError)
  ∧ (Forall physical holding → NoDup holding →
     Forall (λ c, c ∉ board) holding →
     (length holding + length board ≤ 43)%nat →
     ∃ q, utility holding board = Ok q).
Proof.
  intros Hboard Hlen. split.
  - by apply utility_TypeError.
  - intros Hphys Hnodup Hdisj Hsize. rewrite Forall_forall in Hdisj.
    by apply utility_Ok.
Qed.

(** C2, counterexample: the board A♥ A♥ K♦ 7♣ 2♥ repeats the ace of hearts,
    and [utility] returns a value for the holding A♦ K♥ Q♣ J♠ on it: a
    duplicate card does not always make [utility] fail. *)
Lemma utility_accepts_duplicate_board :
  ¬ (∀ holding board,
       ¬ NoDup holding ∨ ¬ NoDup board ∨ Exists (λ c, c ∈ board) holding →
       ∃ e, utility holding board = Raise e).
Proof.
  intros Hclaim.
  destruct (Hclaim scenario_holding duplicate_board) as [e He].
  { right. left. by_evaluation. }
  destruct (utility_Ok scenario_holding duplicate_board) as [q Hq].
  - by_evaluation.
  - by_evaluation.
  - by_evaluation.
  - apply Forall_forall. by_evaluation.
  - simpl. lia.
  - simpl. lia.
  - congruence.
Qed.

(** C3, at a failing input.  The board of the forty cards from the aces
    down to the fives and the holding of the four fours are valid; eight
    cards remain, that is 28 couplets, fewer than the 30 opponent couplets.
    The divisor [comb(28, 30)] of [prob_best_hand] is zero, the division
    stands before the [try], and [utility] raises [ZeroDivisionError]
    instead of returning 0. *)
Theorem utility_crowded_board_raises :
  Forall physical crowded_board ∧ NoDup crowded_board
  ∧ Forall physical crowded_holding ∧ NoDup crowded_holding
  ∧ Forall (λ c, c ∉ crowded_board) crowded_holding
  ∧ length (remove_incompatible_couplets
              (couplets_of (remaining_deck crowded_board)) crowded_holding)
    = 28%nat
  ∧ num_opponents_couplets = 30%nat
  ∧ utility crowded_holding crowded_board = Raise ZeroDivisionError.
Proof.
  repeat split;
    try by_evaluation;
    vm_compute; reflexivity.
Qed.

(** ** The theorems at the inputs of the examples *)

(** C1 at the scenario board. *)
Lemma specify_partitions_witness :
  Forall (λ card, 0 ≤ rank card < num_ranks) scenario_board
  ∧ ∃ generic_levels levels,
      all_levels scenario_board = Ok generic_levels
      ∧ specify generic_levels scenario_board = Ok levels
      ∧ concat levels ≡ₚ couplets_of (remaining_deck scenario_board)
      ∧ NoDup (concat levels)
      ∧ Forall (λ level, level ≠ []) levels
      ∧ (∀ c, c ∈ remaining_deck scenario_board
              ↔ physical c ∧ c ∉ scenario_board).
Proof.
  assert (Forall (λ card, 0 ≤ rank card < num_ranks) scenario_board) as H
    by (apply (bool_decide_unpack _); vm_compute; exact I).
  split; [exact H |].
  destruct (specify_partitions scenario_board H)
    as (gl & levels & H1 & H2 & H3 & H4 & _ & _ & _ & H8 & _ & _ & H11 & _).
  exists gl, levels. auto 10.
Defined.

(** C7 at the tallies of the scenario board: the pair of aces. *)
Lemma highest_repeated_rank_spec_witness :
  rank_tally_mapping scenario_tallies
  ∧ 2 ≤ max_tally scenario_tallies
  ∧ ∃ r n, highest_repeated_rank scenario_tallies = Some r
           ∧ r ∈ rank_range ∧ scenario_tallies !! r = Some n ∧ 2 ≤ n.
Proof.
  assert (rank_tally_mapping scenario_tallies) as H
    by (apply (bool_decide_unpack _); vm_compute; exact I).
  assert (2 ≤ max_tally scenario_tallies) as Hmax by (vm_compute; discriminate).
  split; [exact H |]. split; [exact Hmax |].
  destruct (highest_repeated_rank_spec scenario_tallies H) as [Hsome _].
  destruct (Hsome Hmax) as (r & n & H1 & H2 & H3 & H4 & _).
  exists r, n. auto.
Defined.

(** C4 at the scenario: A♦ K♥ Q♣ J♠ on A♥ A♠ K♦ 7♣ 2♥. *)
Lemma utility_bounds_witness :
  Forall physical scenario_board ∧ NoDup scenario_board
  ∧ Forall physical scenario_holding ∧ NoDup scenario_holding
  ∧ Forall (λ c, c ∉ scenario_board) scenario_holding
  ∧ ∃ q, utility scenario_holding scenario_board = Ok q ∧ (0 <= q <= 1)%Q.
Proof.
  assert (Forall physical scenario_board) as H1
    by (apply (bool_decide_unpack _); vm_compute; exact I).
  assert (NoDup scenario_board) as H2
    by (apply (bool_decide_unpack _); vm_compute; exact I).
  assert (Forall physical scenario_holding) as H3
    by (apply (bool_decide_unpack _); vm_compute; exact I).
  assert (NoDup scenario_holding) as H4
    by (apply (bool_decide_unpack _); vm_compute; exact I).
  assert (Forall (λ c, c ∉ scenario_board) scenario_holding) as H5
    by (apply (bool_decide_unpack _); vm_compute; exact I).
  repeat (split; [assumption |]).
  apply (utility_bounds scenario_holding scenario_board H1 H2 H3 H4 H5);
    simpl; lia.
Defined.


(** C2 at a holding with the ace of diamonds twice, on the scenario
    board. *)
Lemma utility_no_validation_witness :
  Forall (λ card, 0 ≤ rank card < num_ranks) scenario_board
  ∧ (2 ≤ length (mkCard ace diamonds :: scenario_holding))%nat
  ∧ ¬ NoDup (mkCard ace diamonds :: scenario_holding)
  ∧ utility (mkCard ace diamonds :: scenario_holding) scenario_board
    = Raise TypeError.
Proof.
  assert (Forall (λ card, 0 ≤ rank card < num_ranks) scenario_board) as H1
    by (apply (bool_decide_unpack _); vm_compute; exact I).
  assert (2 ≤ length (mkCard ace diamonds :: scenario_holding))%nat as H2
    by (simpl; lia).
  assert (¬ NoDup (mkCard ace diamonds :: scenario_holding)) as H3
    by (apply (bool_decide_unpack _); vm_compute; exact I).
  repeat (split; [assumption |]).
  destruct (utility_no_validation _ scenario_board H1 H2) as [Herr _].
  destruct (Herr (or_introl H3)) as (gl & levels & _ & _ & Hu). exact Hu.
Defined.

(** * Further properties of the program *)

(** ** Cards, couplets and the deck *)

(** X1. [Card.fulfills] is a preorder on cards and patterns: every card
    fulfills itself, and a card that fulfills a pattern fulfills whatever
    that pattern fulfills.  Against a target without a wildcard it is
    equality of rank and suit, as [is_copy] is against any target. *)
Theorem card_fulfills_preorder (c p q : Card) :
  CardOps.fulfills c c = true
  ∧ (CardOps.fulfills c p = true → CardOps.fulfills p q = true →
     CardOps.fulfills c q = true)
  ∧ (rank p ≠ anything → suit p ≠ anything →
     (CardOps.fulfills c p = true ↔ c = p))
  ∧ (CardOps.is_copy c p = true ↔ c = p).
Proof.
  split; [apply card_fulfills_refl |]. split; [| split; [| apply is_copy_eq]].
  - unfold CardOps.fulfills.
    rewrite !andb_true_iff, !orb_true_iff, !Z.eqb_eq.
    intros [Hr Hs] [Hr' Hs']. split.
    + destruct Hr' as [? | Hr']; [by left |].
      destruct Hr as [Hr | Hr]; [left | right]; congruence.
    + destruct Hs' as [? | Hs']; [by left |].
      destruct Hs as [Hs | Hs]; [left | right]; congruence.
  - intros Hr Hs. split; [| intros ->; apply card_fulfills_refl].
    unfold CardOps.fulfills.
    rewrite andb_true_iff, !orb_true_iff, !Z.eqb_eq.
    destruct c, p; simpl in *. intros [[? | ->] [? | ->]]; done.
Qed.

(** X2. A card is compatible with a list of cards exactly when it is not
    one of them, and a couplet exactly when neither of its cards is; the
    empty list forbids nothing.  [remove_incompatible_couplets] keeps, in
    their order, the couplets without a forbidden card, and removing
    twice removes nothing more. *)
Theorem is_compatible_characterised (c : Card) (cp : Couplet)
    (level : list Couplet) (forbidden : list Card) :
  (CardOps.is_compatible c forbidden = true ↔ c ∉ forbidden)
  ∧ (CoupletOps.is_compatible cp forbidden = true
     ↔ (card_1 cp ∉ forbidden) ∧ (card_2 cp ∉ forbidden))
  ∧ CoupletOps.is_compatible cp [] = true
  ∧ (cp ∈ remove_incompatible_couplets level forbidden
     ↔ cp ∈ level ∧ (card_1 cp ∉ forbidden) ∧ (card_2 cp ∉ forbidden))
  ∧ remove_incompatible_couplets level forbidden `sublist_of` level
  ∧ remove_incompatible_couplets
      (remove_incompatible_couplets level forbidden) forbidden
    = remove_incompatible_couplets level forbidden.
Proof.
  assert (∀ x, CoupletOps.is_compatible x forbidden = true
               ↔ (card_1 x ∉ forbidden) ∧ (card_2 x ∉ forbidden)) as Hcp.
  { intros x. unfold CoupletOps.is_compatible.
    by rewrite andb_true_iff, !card_is_compatible_spec. }
  split; [apply card_is_compatible_spec |]. split; [apply Hcp |].
  split; [reflexivity |]. unfold remove_incompatible_couplets.
  split; [| split].
  - rewrite list_elem_of_filter, Is_true_true, Hcp. tauto.
  - apply sublist_filter.
  - induction level as [| x level IH]; [done |].
    rewrite filter_cons. case_decide as Hx; [| exact IH].
    rewrite filter_cons, decide_True by done. by rewrite IH.
Qed.

(** X3. [assemble_deck] lists every physical card exactly once: its cards
    are the pairs of a rank of [rank_range] and a suit of [suit_range],
    there are [num_ranks * num_suits] of them without a repetition, and
    they come from the highest rank down, and within a rank from the
    highest suit down. *)
Theorem assemble_deck_complete :
  (∀ c, c ∈ assemble_deck ↔ physical c)
  ∧ NoDup assemble_deck
  ∧ Z.of_nat (length assemble_deck) = num_ranks * num_suits
  ∧ StronglySorted
      (λ c d, rank d < rank c ∨ (rank d = rank c ∧ suit d < suit c))
      assemble_deck.
Proof.
  split; [apply elem_of_assemble_deck |].
  split; [apply assemble_deck_NoDup |].
  split; [reflexivity |]. by_evaluation.
Qed.

(** ** Board analysis *)

Lemma tally_loop_counts ranks (t t' : gmap Z Z) :
  tally_loop ranks t = Ok t' →
  ∀ r, t' !! r
       = (λ n, n + Z.of_nat (length (filter (λ x, x = r) ranks))) <$> t !! r.
Proof.
  revert t. induction ranks as [| r0 ranks IH]; intros t; simpl.
  - intros [= <-] r. destruct (t !! r); simpl; [f_equal; lia | done].
  - destruct (t !! r0) as [n |] eqn:E; [| done]. intros Hloop r.
    rewrite (IH _ Hloop r), filter_cons.
    destruct (decide (r0 = r)) as [-> | Hne].
    + rewrite lookup_insert_eq, E. simpl. f_equal. lia.
    + by rewrite lookup_insert_ne.
Qed.

Lemma initial_tallies_lookup r :
  (list_to_map (map (λ r, (r, 0)) rank_range) : gmap Z Z) !! r
  = if decide (r ∈ rank_range) then Some 0 else None.
Proof.
  case_decide as Hr.
  - pose proof initial_tallies_keys as H. rewrite Forall_forall in H. by apply H.
  - apply not_elem_of_list_to_map_1. by rewrite <- list_fmap_compose, list_fmap_id.
Qed.

Lemma length_filter_rank board r :
  length (filter (λ x, x = r) (map rank board))
  = length (filter (λ card, rank card = r) board).
Proof.
  induction board as [| c board IH]; [done |].
  simpl map. rewrite !filter_cons. case_decide; simpl; by rewrite IH.
Qed.

(** The tally of a rank of the deck is the number of board cards of that
    rank. *)
Lemma tally_ranks_tally board t r :
  tally_ranks board = Ok t → r ∈ rank_range →
  t !! r = Some (Z.of_nat (length (filter (λ card, rank card = r) board)))
  ∧ tally t r = Z.of_nat (length (filter (λ card, rank card = r) board)).
Proof.
  unfold tally_ranks, extract_ranks. intros Ht Hr.
  pose proof (tally_loop_counts _ _ _ Ht r) as Hcount.
  rewrite initial_tallies_lookup, decide_True in Hcount by done.
  simpl in Hcount. rewrite length_filter_rank in Hcount.
  split; [done | by apply tally_lookup].
Qed.

(** X4. On a board whose ranks are ranks of the deck, [tally_ranks] returns
    a dict whose keys are the ranks of [rank_range] and whose value at a
    rank is the number of board cards of that rank. *)
Theorem tally_ranks_counts (board : list Card) :
  Forall (λ card, 0 ≤ rank card < num_ranks) board →
  ∃ rank_tallies,
    tally_ranks board = Ok rank_tallies
    ∧ (∀ r, r ∈ rank_range →
            rank_tallies !! r
            = Some (Z.of_nat (length (filter (λ card, rank card = r) board))))
    ∧ (∀ r, r ∉ rank_range → rank_tallies !! r = None).
Proof.
  intros Hboard. destruct (tally_ranks_Ok board Hboard) as (t & Ht & _).
  exists t. split; [done |]. split.
  - intros r Hr. by apply tally_ranks_tally.
  - intros r Hr. unfold tally_ranks, extract_ranks in Ht.
    by rewrite (tally_loop_counts _ _ _ Ht), initial_tallies_lookup, decide_False.
Qed.

Lemma tally_loop_KeyError ranks (t : gmap Z Z) :
  (∀ r, is_Some (t !! r) ↔ r ∈ rank_range) →
  Exists (λ r, r ∉ rank_range) ranks →
  tally_loop ranks t = Raise KeyError.
Proof.
  intros Hkeys Hbad. revert t Hkeys.
  induction Hbad as [r ranks Hr | r ranks Hbad IH]; intros t Hkeys; simpl.
  - destruct (t !! r) as [n |] eqn:E; [| done].
    destruct Hr. apply Hkeys. by eexists.
  - destruct (t !! r) as [n |] eqn:E; [| done]. apply IH.
    intros r'. rewrite lookup_insert_is_Some', <- Hkeys.
    split; [intros [-> | ?]; [by eexists | done] | by right].
Qed.

Lemma tally_ranks_raises board :
  Exists (λ card, ¬ (0 ≤ rank card < num_ranks)) board →
  tally_ranks board = Raise KeyError.
Proof.
  intros Hbad. unfold tally_ranks, extract_ranks. apply tally_loop_KeyError.
  - intros r. rewrite initial_tallies_lookup. case_decide; [| by split; [intros [] |]].
    split; [done | by eexists].
  - apply Exists_exists in Hbad as (c & Hc & Hr). apply Exists_exists.
    exists (rank c). split; [by apply list_elem_of_fmap_2 |].
    by rewrite elem_of_rank_range.
Qed.

(** X5. A board with a card whose rank is no rank of the deck (a wildcard
    rank, the deprecated ace, any integer outside [0, num_ranks)) makes
    [tally_ranks] raise [KeyError], the rank being no key of the dict; the
    exception goes through [all_levels], the board-only ranking and
    [utility], whatever the holding. *)
Theorem tally_ranks_KeyError (board : list Card) :
  Exists (λ card, ¬ (0 ≤ rank card < num_ranks)) board →
  tally_ranks board = Raise KeyError
  ∧ all_levels board = Raise KeyError
  ∧ rank_ladder board = Raise KeyError
  ∧ ∀ holding, utility holding board = Raise KeyError.
Proof.
  intros Hbad%tally_ranks_raises. split; [done |].
  assert (all_levels board = Raise KeyError) as Hall.
  { unfold all_levels. destruct (straight_flush_levels_Ok board) as [sf ->].
    rewrite bind_Ok. unfold four_of_a_kind_levels. by rewrite Hbad. }
  split; [done |]. split.
  - unfold rank_ladder. by rewrite Hall.
  - intros holding. unfold utility. by rewrite Hall.
Qed.

(** X6. [max_tally] of the tallies of a board is the greatest number of
    board cards of one rank: no rank has more, some rank has as many when
    the board is not empty, and it is 0 exactly for the empty board.  It
    never exceeds the size of the board. *)
Theorem max_tally_greatest (board : list Card) :
  Forall (λ card, 0 ≤ rank card < num_ranks) board →
  ∃ rank_tallies,
    tally_ranks board = Ok rank_tallies
    ∧ (∀ r, r ∈ rank_range →
            Z.of_nat (length (filter (λ card, rank card = r) board))
            ≤ max_tally rank_tallies)
    ∧ (board ≠ [] →
       ∃ r, r ∈ rank_range
            ∧ Z.of_nat (length (filter (λ card, rank card = r) board))
              = max_tally rank_tallies)
    ∧ (max_tally rank_tallies = 0 ↔ board = [])
    ∧ max_tally rank_tallies ≤ Z.of_nat (length board).
Proof.
  intros Hboard.
  destruct (tally_ranks_Ok board Hboard) as (t & Ht & _).
  exists t. split; [done |].
  assert (∀ r, r ∈ rank_range →
               tally t r = Z.of_nat (length (filter (λ card, rank card = r) board)))
    as Htally by (intros r Hr; by apply tally_ranks_tally).
  assert (board ≠ [] → 1 ≤ max_tally t) as Hpos.
  { destruct board as [| c board']; [done |]. intros _.
    apply Forall_cons in Hboard as [Hc _].
    assert (rank c ∈ rank_range) as Hr by by apply elem_of_rank_range.
    etrans; [| apply (max_tally_upper t _ Hr)].
    rewrite (Htally _ Hr), filter_cons, decide_True by done. simpl. lia. }
  split; [| split; [| split]].
  - intros r Hr. rewrite <- (Htally r Hr). by apply max_tally_upper.
  - intros Hne. specialize (Hpos Hne).
    destruct (max_tally_witness t (max_tally t)) as (r & Hr & Hge); [lia.. |].
    exists r. split; [done |]. rewrite <- (Htally r Hr).
    pose proof (max_tally_upper t r Hr). lia.
  - split.
    + intros Hz. destruct board as [| c board']; [done |].
      assert (1 ≤ max_tally t) by by apply Hpos. lia.
    + intros ->. apply Z.le_antisymm; [| apply max_tally_nonneg].
      apply max_tally_fold_upper; [done |]. intros r Hr. by rewrite Htally.
  - apply max_tally_fold_upper; [lia |]. intros r Hr. rewrite (Htally r Hr).
    pose proof (length_filter (λ card, rank card = r) board). lia.
Qed.

Lemma filter_keys_skip {A K} `{EqDecision K} (f : A → K) x l (keys : list K) :
  f x ∉ keys →
  map (λ k, filter (λ y, f y = k) (x :: l)) keys
  = map (λ k, filter (λ y, f y = k) l) keys.
Proof.
  intros H. apply map_ext_in. intros k Hk%list_elem_of_In.
  rewrite filter_cons_False; [done |]. intros Heq. by rewrite Heq in H.
Qed.

(** Grouping a list by the values of a key, one group per key of a list of
    distinct keys, permutes the elements whose key is listed. *)
Lemma filter_keys_Permutation {A K} `{EqDecision K} (f : A → K) l
    (keys : list K) :
  NoDup keys →
  concat (map (λ k, filter (λ y, f y = k) l) keys)
  ≡ₚ filter (λ y, f y ∈ keys) l.
Proof.
  intros Hnd. induction l as [| x l IH].
  - simpl. induction keys as [| k keys IHk]; [done |].
    simpl. apply IHk. by apply NoDup_cons in Hnd as [_ ?].
  - rewrite (filter_cons (λ y, f y ∈ keys)). case_decide as Hx.
    + rewrite <- IH. clear IH. induction Hnd as [| k keys Hk Hnd IHk];
        [by apply elem_of_nil in Hx |].
      simpl map. simpl concat. rewrite filter_cons.
      destruct (decide (f x = k)) as [Heq | Hne].
      * rewrite <- Heq in Hk. by rewrite (filter_keys_skip f x l keys Hk).
      * apply elem_of_cons in Hx as [? | Hx]; [done |].
        rewrite (IHk Hx). by rewrite Permutation_middle.
    + by rewrite (filter_keys_skip f x l keys Hx).
Qed.

(** X7. [partition_by_suit] splits the board into one sub-board per suit of
    the deck, from the highest suit down: the cards of a sub-board all have
    its suit and keep their board order, the sub-boards together hold each
    board card with a suit of the deck once, and a card with any other suit
    is in none of them. *)
Theorem partition_by_suit_partitions (board : list Card) :
  length (partition_by_suit board) = length suit_range
  ∧ (∀ i sub, partition_by_suit board !! i = Some sub →
       ∃ s, suit_range !! i = Some s
            ∧ sub `sublist_of` board
            ∧ ∀ card, card ∈ sub ↔ card ∈ board ∧ suit card = s)
  ∧ concat (partition_by_suit board)
    ≡ₚ filter (λ card, 0 ≤ suit card < num_suits) board.
Proof.
  unfold partition_by_suit. split; [apply length_map |]. split.
  - intros i sub Hsub. rewrite list_lookup_fmap in Hsub.
    destruct (suit_range !! i) as [s |]; [| done]. injection Hsub as <-.
    exists s. split; [done |]. split; [apply sublist_filter |].
    intros card. rewrite list_elem_of_filter. tauto.
  - rewrite (filter_keys_Permutation suit board suit_range).
    + erewrite list_filter_iff; [done |]. intros card. apply elem_of_suit_range.
    + by_evaluation.
Qed.

Lemma sublist_full_length {A} (l1 l2 : list A) :
  l1 `sublist_of` l2 → (length l2 ≤ length l1)%nat → l1 = l2.
Proof.
  induction 1 as [| x l1 l2 Hsub IH | x l1 l2 Hsub IH]; simpl; intros Hlen.
  - done.
  - f_equal. apply IH. lia.
  - apply sublist_length in Hsub. lia.
Qed.

Lemma unique_ranks_fold (ranks acc : list Z) :
  NoDup acc →
  let out :=
    fold_left
      (λ unique_board_ranks rank,
         if bool_decide (rank ∈ unique_board_ranks) then unique_board_ranks
         else unique_board_ranks ++ [rank])
      ranks acc in
  NoDup out ∧ (∀ r, r ∈ out ↔ r ∈ acc ∨ r ∈ ranks)
  ∧ ∃ added, out = acc ++ added ∧ added `sublist_of` ranks.
Proof.
  revert acc. induction ranks as [| r0 ranks IH]; intros acc Hnd; simpl.
  - split; [done |]. split.
    + intros r. rewrite elem_of_nil. tauto.
    + exists []. by rewrite app_nil_r.
  - case_bool_decide as Hin.
    + destruct (IH acc Hnd) as (H1 & H2 & added & H3 & H4).
      split; [done |]. split.
      * intros r. rewrite H2, elem_of_cons.
        split; [tauto |]. intros [? | [-> | ?]]; auto.
      * exists added. split; [done |]. by apply sublist_cons.
    + destruct (IH (acc ++ [r0])) as (H1 & H2 & added & H3 & H4).
      { apply NoDup_app. split; [done |]. split; [| apply NoDup_singleton].
        intros x Hx ->%list_elem_of_singleton. done. }
      split; [done |]. split.
      * intros r. rewrite H2, elem_of_app, list_elem_of_singleton, elem_of_cons.
        tauto.
      * exists (r0 :: added). split; [by rewrite H3, <- app_assoc |].
        by apply sublist_skip.
Qed.

(** The comprehension started on a list [acc] appends to it the ranks
    that it would collect when started on the empty list, those of [acc]
    left out. *)
Lemma unique_ranks_from (ranks acc : list Z) :
  fold_left
    (λ unique_board_ranks rank,
       if bool_decide (rank ∈ unique_board_ranks) then unique_board_ranks
       else unique_board_ranks ++ [rank])
    ranks acc
  = acc ++ filter (λ r, r ∉ acc) (unique_ranks ranks).
Proof.
  unfold unique_ranks.
  induction ranks as [| r ranks IH] using rev_ind.
  - simpl. by rewrite app_nil_r.
  - rewrite !fold_left_app. cbn [fold_left]. rewrite IH.
    set (unique := fold_left _ ranks []).
    destruct (decide (r ∈ unique)) as [Hin | Hout].
    + rewrite (bool_decide_eq_true_2 (r ∈ unique)) by done.
      rewrite bool_decide_eq_true_2; [done |].
      rewrite elem_of_app, list_elem_of_filter.
      destruct (decide (r ∈ acc)); auto.
    + rewrite (bool_decide_eq_false_2 (r ∈ unique)) by done.
      rewrite filter_app, filter_cons, filter_nil.
      destruct (decide (r ∈ acc)) as [Hacc | Hacc].
      * rewrite bool_decide_eq_true_2 by (apply elem_of_app; auto).
        rewrite decide_False by tauto. by rewrite app_nil_r.
      * rewrite bool_decide_eq_false_2.
        -- rewrite decide_True by done. by rewrite app_assoc.
        -- rewrite elem_of_app, list_elem_of_filter. tauto.
Qed.

(** X8. The comprehension that collects [unique_board_ranks] removes the
    repetitions of a list of ranks and nothing else, and keeps the ranks in
    the order of their first occurrence.  The result has no repetition and
    the same elements as the list.  It starts with the first rank of the
    list, followed by what the comprehension collects from the rest of the
    list with that rank left out.  At the first occurrence of a rank in the
    list, the result has that rank after exactly the ranks that occur in
    the list before it: before it stands what the comprehension collects
    from that part of the list.  A list without repetition is returned
    unchanged. *)
Theorem unique_ranks_dedup (ranks : list Z) :
  NoDup (unique_ranks ranks)
  ∧ (∀ r, r ∈ unique_ranks ranks ↔ r ∈ ranks)
  ∧ unique_ranks ranks `sublist_of` ranks
  ∧ (NoDup ranks → unique_ranks ranks = ranks)
  ∧ unique_ranks [] = []
  ∧ (∀ r, unique_ranks (r :: ranks)
          = r :: filter (λ x, x ≠ r) (unique_ranks ranks))
  ∧ (∀ before r after,
       ranks = before ++ r :: after → r ∉ before →
       ∃ later,
         unique_ranks ranks = unique_ranks before ++ r :: later
         ∧ (∀ x, x ∈ unique_ranks before ↔ x ∈ before)
         ∧ (∀ x, x ∈ later ↔ x ∈ after ∧ (x ∉ before) ∧ x ≠ r)).
Proof.
  destruct (unique_ranks_fold ranks [] (NoDup_nil_2)) as (H1 & H2 & added & H3 & H4).
  fold (unique_ranks ranks) in H1, H2, H3. simpl in H3.
  assert (∀ (l : list Z) x, x ∈ unique_ranks l ↔ x ∈ l) as Hmem.
  { intros l x.
    destruct (unique_ranks_fold l [] (NoDup_nil_2)) as (_ & Hl & _).
    fold (unique_ranks l) in Hl. rewrite Hl, elem_of_nil. tauto. }
  split; [done |]. split; [apply Hmem |].
  split; [by rewrite H3 |]. split.
  { intros Hnd. rewrite H3 in *. clear H3.
    assert (ranks ⊆+ added) as Hsub.
    { apply NoDup_submseteq; [done |]. intros r Hr. apply H2. by right. }
    apply submseteq_length in Hsub. by apply sublist_full_length. }
  split; [reflexivity |]. split.
  - intros r. unfold unique_ranks at 1. cbn [fold_left].
    rewrite bool_decide_eq_false_2 by apply not_elem_of_nil.
    rewrite (unique_ranks_from ranks ([] ++ [r])). cbn [app]. f_equal.
    apply list_filter_iff. intros x. rewrite list_elem_of_singleton. done.
  - intros before r after -> Hr.
    unfold unique_ranks at 1. rewrite fold_left_app. cbn [fold_left].
    fold (unique_ranks before).
    rewrite bool_decide_eq_false_2 by by rewrite Hmem.
    rewrite (unique_ranks_from after (unique_ranks before ++ [r])).
    rewrite <- app_assoc. cbn [app].
    eexists. split; [reflexivity |]. split; [apply Hmem |].
    intros x. rewrite list_elem_of_filter, elem_of_app, list_elem_of_singleton.
    rewrite !Hmem. tauto.
Qed.

(** ** Combinations *)

Lemma subsets_of_size_sound {A} n (l s : list A) :
  s ∈ subsets_of_size n l → s `sublist_of` l ∧ length s = n.
Proof.
  revert n s. induction l as [| x xs IH]; intros [| n] s; simpl.
  - intros ->%list_elem_of_singleton. by split.
  - by intros ?%elem_of_nil.
  - intros ->%list_elem_of_singleton. split; [apply sublist_nil_l | done].
  - rewrite elem_of_app, list_elem_of_fmap.
    intros [(s' & -> & Hs') | Hs].
    + destruct (IH _ _ Hs') as [Hsub Hlen].
      split; [by apply sublist_skip | by rewrite <- Hlen].
    + destruct (IH _ _ Hs) as [Hsub Hlen]. split; [by apply sublist_cons | done].
Qed.

Lemma subsets_of_size_complete {A} (l s : list A) :
  s `sublist_of` l → s ∈ subsets_of_size (length s) l.
Proof.
  induction 1 as [| x s l Hsub IH | x s l Hsub IH].
  - left.
  - simpl. apply elem_of_app. left. by apply list_elem_of_fmap_2.
  - destruct s as [| y s]; simpl in *.
    + left.
    + apply elem_of_app. by right.
Qed.

Lemma length_subsets_of_size {A} n (l : list A) :
  Z.of_nat (length (subsets_of_size n l)) = binom (length l) n.
Proof.
  revert n. induction l as [| x xs IH]; intros [| n]; simpl; try done.
  rewrite length_app, length_map, Nat2Z.inj_add, !IH. reflexivity.
Qed.

(** X9. [subsets_of_size n zet] lists the sub-lists of [zet] with [n]
    elements (positions kept in order), and only those; there are
    [math.comb(len(zet), n)] of them, none at all when [n] exceeds the
    length, and the single empty one when [n] is 0. *)
Theorem subsets_of_size_spec {A} (n : nat) (zet : list A) :
  (∀ s, s ∈ subsets_of_size n zet ↔ s `sublist_of` zet ∧ length s = n)
  ∧ Z.of_nat (length (subsets_of_size n zet)) = comb (length zet) n
  ∧ ((length zet < n)%nat → subsets_of_size n zet = [])
  ∧ subsets_of_size 0 zet = [[]].
Proof.
  split; [| split; [| split]].
  - intros s. split; [apply subsets_of_size_sound |].
    intros [Hsub <-]. by apply subsets_of_size_complete.
  - by rewrite comb_binom, length_subsets_of_size.
  - intros Hlt. apply length_zero_iff_nil.
    pose proof (length_subsets_of_size n zet) as H.
    rewrite binom_gt in H by done. lia.
  - by destruct zet.
Qed.

(** ** What the patterns of the level builders match *)

Lemma card_fulfills_iff c r s :
  CardOps.fulfills c (mkCard r s) = true
  ↔ (r = anything ∨ rank c = r) ∧ (s = anything ∨ suit c = s).
Proof.
  unfold CardOps.fulfills. cbn [rank suit].
  by rewrite andb_true_iff, !orb_true_iff, !Z.eqb_eq.
Qed.

Lemma couplet_fulfills_iff cp p1 p2 :
  CoupletOps.fulfills cp (mkCouplet p1 p2) = true
  ↔ (CardOps.fulfills (card_1 cp) p1 = true
     ∧ CardOps.fulfills (card_2 cp) p2 = true)
    ∨ (CardOps.fulfills (card_1 cp) p2 = true
       ∧ CardOps.fulfills (card_2 cp) p1 = true).
Proof.
  unfold CoupletOps.fulfills. cbn [card_1 card_2].
  by rewrite orb_true_iff, !andb_true_iff.
Qed.

(** A pattern of two ranks with any suits is fulfilled by the couplets
    with these two ranks. *)
Lemma fulfills_rank_pattern cp r1 r2 :
  r1 ≠ anything → r2 ≠ anything →
  CoupletOps.fulfills cp
    (mkCouplet (mkCard r1 anything) (mkCard r2 anything)) = true
  ↔ (rank (card_1 cp) = r1 ∧ rank (card_2 cp) = r2)
    ∨ (rank (card_1 cp) = r2 ∧ rank (card_2 cp) = r1).
Proof.
  intros H1 H2. rewrite couplet_fulfills_iff, !card_fulfills_iff. tauto.
Qed.

Lemma rank_range_not_wildcard r : r ∈ rank_range → r ≠ anything.
Proof. rewrite elem_of_rank_range. unfold num_ranks, anything. lia. Qed.

Lemma suit_range_not_wildcard s : s ∈ suit_range → s ≠ anything.
Proof. rewrite elem_of_suit_range. unfold num_suits, anything. lia. Qed.

Lemma elem_of_flat_map {A B} (f : A → list B) (l : list A) (y : B) :
  y ∈ flat_map f l ↔ ∃ x, x ∈ l ∧ y ∈ f x.
Proof.
  rewrite list_elem_of_In, in_flat_map. by setoid_rewrite <- list_elem_of_In.
Qed.

(** X10. On a board whose ranks are ranks of the deck, a couplet fulfills a
    pattern of [four_of_a_kind_levels] exactly when it completes four cards
    of one rank with the board: both its cards have a rank that is twice on
    the board, or one of its cards has a rank that is three or more times
    on the board. *)
Theorem four_of_a_kind_levels_match (board : list Card) :
  Forall (λ card, 0 ≤ rank card < num_ranks) board →
  ∃ levels,
    four_of_a_kind_levels board = Ok levels
    ∧ ∀ cp,
        fulfills_a_level cp levels
        ↔ ∃ r,
            r ∈ rank_range
            ∧ ((length (filter (λ card, rank card = r) board) = 2%nat
                ∧ rank (card_1 cp) = r ∧ rank (card_2 cp) = r)
               ∨ ((3 ≤ length (filter (λ card, rank card = r) board))%nat
                  ∧ (rank (card_1 cp) = r ∨ rank (card_2 cp) = r))).
Proof.
  intros Hboard. destruct (tally_ranks_Ok board Hboard) as (t & Ht & _).
  unfold four_of_a_kind_levels. rewrite Ht, bind_Ok. eexists. split; [done |].
  intros cp. unfold fulfills_a_level. split.
  - intros (level & pattern & Hlevel & Hpat & Hf).
    apply elem_of_flat_map in Hlevel as (r & Hr & Hlevel).
    pose proof (rank_range_not_wildcard r Hr) as Hw.
    destruct (tally_ranks_tally board t r Ht Hr) as [_ Htally].
    exists r. split; [done |].
    destruct (Z.eqb_spec (tally t r) 2) as [H2 | H2].
    + apply list_elem_of_singleton in Hlevel as ->.
      apply list_elem_of_singleton in Hpat as ->.
      apply fulfills_rank_pattern in Hf; [| done..]. left.
      split; [lia | tauto].
    + destruct (Z.geb_spec (tally t r) 3) as [H3 | H3];
        [| by apply elem_of_nil in Hlevel].
      apply list_elem_of_singleton in Hlevel as ->.
      apply list_elem_of_singleton in Hpat as ->.
      rewrite couplet_fulfills_iff, !card_fulfills_iff in Hf. right.
      split; [lia | tauto].
  - intros (r & Hr & Hcase).
    pose proof (rank_range_not_wildcard r Hr) as Hw.
    destruct (tally_ranks_tally board t r Ht Hr) as [_ Htally].
    destruct Hcase as [(Hc & H1 & H2) | (Hc & H12)].
    + exists [pair_couplet r], (pair_couplet r).
      split; [| split; [left |]].
      * apply elem_of_flat_map. exists r. split; [done |].
        rewrite (proj2 (Z.eqb_eq (tally t r) 2)) by lia. left.
      * apply fulfills_rank_pattern; auto.
    + eexists _, _. split; [| split; [left |]].
      * apply elem_of_flat_map. exists r. split; [done |].
        destruct (Z.eqb_spec (tally t r) 2) as [? | _]; [lia |].
        destruct (Z.geb_spec (tally t r) 3) as [_ | ?]; [left | lia].
      * rewrite couplet_fulfills_iff, !card_fulfills_iff. tauto.
Qed.

(** X11. For two distinct physical cards that are not on the board, the
    couplet fulfills a pattern of [flush_levels] exactly when the two cards
    have the same suit and the board has at least three cards of that
    suit. *)
Theorem flush_levels_match (board : list Card) (c1 c2 : Card) :
  physical c1 → physical c2 → c1 ≠ c2 → c1 ∉ board → c2 ∉ board →
  ∃ levels,
    flush_levels board = Ok levels
    ∧ (fulfills_a_level (mkCouplet c1 c2) levels
       ↔ suit c1 = suit c2 ∧ (3 ≤ suited_count board (suit c1))%nat).
Proof.
  intros [Hr1 Hs1] [Hr2 Hs2] Hne Hb1 Hb2.
  exists (flush_levels_spec board). split; [apply flush_levels_Ok |].
  unfold fulfills_a_level, flush_levels_spec, flush_levels_of_suit. split.
  - intros (level & pattern & Hlevel & Hpat & Hf).
    apply elem_of_flat_map in Hlevel as (s & Hs & Hlevel).
    pose proof (suit_range_not_wildcard s Hs) as Hw.
    case_bool_decide as Hcount; [| by apply elem_of_nil in Hlevel].
    apply list_elem_of_fmap in Hlevel as (r & -> & Hr).
    apply list_elem_of_singleton in Hpat as ->.
    rewrite couplet_fulfills_iff, !card_fulfills_iff in Hf.
    assert (suit c1 = s ∧ suit c2 = s) as [E1 E2] by (cbn in Hf; tauto).
    subst s. by split.
  - intros [Hsuit Hcount].
    assert (∃ c c', (c = c1 ∧ c' = c2 ∨ c = c2 ∧ c' = c1) ∧ three ≤ rank c)
      as (c & c' & Hcc & Hrank).
    { destruct (decide (three ≤ rank c1)); [exists c1, c2; tauto |].
      exists c2, c1. split; [tauto |].
      destruct c1 as [r1 s1], c2 as [r2 s2]. unfold three in *. simpl in *.
      destruct (decide (r1 = r2)); [congruence | lia]. }
    assert (rank c ∈ missing_suited_ranks board (suit c1)) as Hmiss.
    { apply elem_of_missing_suited_ranks. split.
      - destruct Hcc as [[-> _] | [-> _]]; lia.
      - destruct Hcc as [[-> _] | [-> _]]; [by destruct c1 |].
        rewrite Hsuit. by destruct c2. }
    exists (flush_level (suit c1) (rank c)), (mkCouplet (mkCard (rank c) (suit c1))
                                     (mkCard anything (suit c1))).
    split; [| split; [left |]].
    + apply elem_of_flat_map. exists (suit c1).
      split; [by apply elem_of_suit_range |].
      rewrite bool_decide_eq_true_2 by done. by apply list_elem_of_fmap_2.
    + rewrite couplet_fulfills_iff, !card_fulfills_iff. cbn [card_1 card_2].
      destruct Hcc as [[-> ->] | [-> ->]]; [left | right]; rewrite ?Hsuit; tauto.
Qed.

(** ** Full houses *)

Lemma first_occurrence {A} (P : A → Prop) `{∀ x, Decision (P x)} (l : list A) :
  Exists P l →
  ∃ l1 x l2, l = l1 ++ x :: l2 ∧ P x ∧ Forall (λ y, ¬ P y) l1.
Proof.
  induction l as [| y l IH]; intros HE; [by apply Exists_nil in HE |].
  destruct (decide (P y)) as [Hy | Hy].
  - by exists [], y, l.
  - apply Exists_cons in HE as [? | HE]; [done |].
    destruct (IH HE) as (l1 & x & l2 & -> & Hx & Hl1).
    exists (y :: l1), x, l2. split; [done |]. split; [done |].
    by constructor.
Qed.

(** The scan of [full_house_levels] on a board with three cards of one
    rank, once the flag [continue_scan] is off. *)
Lemma full_house_scan_stopped (t : gmap Z Z) (ranks : list Z)
    (levels : list (list Couplet)) :
  fold_left
    (λ '(continue_scan, levels) rank,
       if continue_scan : bool then
         let rank_tally := tally t rank in
         if rank_tally =? 1 then (continue_scan, levels ++ [[pair_couplet rank]])
         else if rank_tally >=? 3 then
           (false,
            levels ++
            map (λ inner_rank, [pair_couplet inner_rank])
                (filter (λ inner_rank,
                           tally t inner_rank = 0
                           ∨ (tally t inner_rank = 1 ∧ inner_rank < rank))
                        rank_range))
         else (continue_scan, levels)
       else (continue_scan, levels))
    ranks (false, levels)
  = (false, levels).
Proof. induction ranks as [| r ranks IH]; [done | apply IH]. Qed.

(** The same scan over ranks none of which has three cards on the
    board. *)
Lemma full_house_scan_before (t : gmap Z Z) (ranks : list Z)
    (levels : list (list Couplet)) :
  Forall (λ r, ¬ 3 ≤ tally t r) ranks →
  fold_left
    (λ '(continue_scan, levels) rank,
       if continue_scan : bool then
         let rank_tally := tally t rank in
         if rank_tally =? 1 then (continue_scan, levels ++ [[pair_couplet rank]])
         else if rank_tally >=? 3 then
           (false,
            levels ++
            map (λ inner_rank, [pair_couplet inner_rank])
                (filter (λ inner_rank,
                           tally t inner_rank = 0
                           ∨ (tally t inner_rank = 1 ∧ inner_rank < rank))
                        rank_range))
         else (continue_scan, levels)
       else (continue_scan, levels))
    ranks (true, levels)
  = (true,
     levels ++ map (λ r, [pair_couplet r]) (filter (λ r, tally t r = 1) ranks)).
Proof.
  revert levels. induction ranks as [| r ranks IH]; intros levels Hno.
  - simpl. by rewrite app_nil_r.
  - apply Forall_cons in Hno as [Hr Hno]. cbn [fold_left].
    rewrite filter_cons.
    destruct (Z.eqb_spec (tally t r) 1) as [H1 | H1].
    + rewrite IH by done. rewrite decide_True by done.
      cbn [map]. by rewrite <- app_assoc.
    + destruct (Z.geb_spec (tally t r) 3) as [H3 | H3]; [lia |].
      rewrite IH by done. by rewrite decide_False by done.
Qed.

(** The levels of [full_house_levels] on a board with three cards of one
    rank: the pocket pairs of the ranks with at most one card on the
    board. *)
Lemma full_house_scan_levels (t : gmap Z Z) (level : list Couplet) :
  (∀ r, r ∈ rank_range → 0 ≤ tally t r) →
  (∃ r, r ∈ rank_range ∧ 3 ≤ tally t r) →
  level ∈ snd (fold_left
    (λ '(continue_scan, levels) rank,
       if continue_scan : bool then
         let rank_tally := tally t rank in
         if rank_tally =? 1 then (continue_scan, levels ++ [[pair_couplet rank]])
         else if rank_tally >=? 3 then
           (false,
            levels ++
            map (λ inner_rank, [pair_couplet inner_rank])
                (filter (λ inner_rank,
                           tally t inner_rank = 0
                           ∨ (tally t inner_rank = 1 ∧ inner_rank < rank))
                        rank_range))
         else (continue_scan, levels)
       else (continue_scan, levels))
    rank_range (true, []))
  ↔ ∃ r, r ∈ rank_range ∧ tally t r ≤ 1 ∧ level = [pair_couplet r].
Proof.
  intros Hnonneg (r3 & Hr3 & Htrips).
  destruct (first_occurrence (λ r, 3 ≤ tally t r) rank_range)
    as (l1 & T & l2 & Hsplit & HT & Hl1).
  { apply Exists_exists. by exists r3. }
  pose proof rank_range_sorted as Hsorted.
  rewrite Hsplit in Hsorted.
  match goal with
  | |- context [fold_left ?f rank_range ?a] =>
      replace (fold_left f rank_range a) with (fold_left f (l1 ++ T :: l2) a)
        by (by rewrite <- Hsplit)
  end.
  rewrite fold_left_app, full_house_scan_before by done.
  cbn [fold_left app].
  destruct (Z.eqb_spec (tally t T) 1) as [? | _]; [lia |].
  destruct (Z.geb_spec (tally t T) 3) as [_ | ?]; [| lia].
  rewrite full_house_scan_stopped. cbn [snd].
  rewrite elem_of_app, !list_elem_of_fmap. split.
  - intros [(r & -> & [Hr Hin]%list_elem_of_filter)
           | (r & -> & [Hr Hin]%list_elem_of_filter)].
    + exists r. split; [| split; [lia | done]].
      rewrite Hsplit, elem_of_app. by left.
    + exists r. split; [done |]. split; [lia | done].
  - intros (r & Hr & Hle & ->).
    specialize (Hnonneg r Hr).
    destruct (decide (tally t r = 0)) as [H0 | H0].
    { right. exists r. split; [done |]. apply list_elem_of_filter. auto. }
    assert (tally t r = 1) as H1 by lia.
    rewrite Hsplit, elem_of_app, elem_of_cons in Hr.
    destruct Hr as [Hr | [-> | Hr]]; [| lia |].
    + left. exists r. split; [done |]. by apply list_elem_of_filter.
    + right. exists r. split; [done |]. apply list_elem_of_filter.
      split; [| rewrite Hsplit, elem_of_app, elem_of_cons; auto].
      right. split; [done |].
      apply StronglySorted_app_1_r, StronglySorted_inv in Hsorted as [_ Hlt].
      rewrite Forall_forall in Hlt. by apply Hlt.
Qed.

Lemma rank_on_board (board : list Card) (r : Z) :
  Forall (λ card, 0 ≤ rank card < num_ranks) board →
  (0 < length (filter (λ card, rank card = r) board))%nat →
  r ∈ rank_range.
Proof.
  intros Hboard Hpos.
  destruct (filter (λ card, rank card = r) board) as [| c l] eqn:E;
    [simpl in Hpos; lia |].
  assert (c ∈ filter (λ card, rank card = r) board) as Hc by (rewrite E; left).
  apply list_elem_of_filter in Hc as [<- Hc].
  rewrite Forall_forall in Hboard. apply elem_of_rank_range. by apply Hboard.
Qed.

(** X12. On a board whose ranks are ranks of the deck, [full_house_levels]
    returns, and the couplets that fulfill one of its levels are these.
    When some rank has two cards on the board and none has more: the
    pocket pairs of a rank with one card on the board, and the couplets of
    two different ranks of which one has two cards on the board and the
    other one or two.  When some rank has three cards or more on the
    board: the pocket pairs of a rank of the deck with at most one card on
    the board.  On a board without a repeated rank there is no level. *)
Theorem full_house_levels_match (board : list Card) :
  Forall (λ card, 0 ≤ rank card < num_ranks) board →
  let count r := length (filter (λ card, rank card = r) board) in
  ∃ levels,
    full_house_levels board = Ok levels
    ∧ ((∀ r, (count r ≤ 1)%nat) → levels = [])
    ∧ ∀ cp,
        let r1 := rank (card_1 cp) in
        let r2 := rank (card_2 cp) in
        fulfills_a_level cp levels
        ↔ ((∀ r, (count r ≤ 2)%nat) ∧ (∃ r, count r = 2%nat)
           ∧ ((r1 = r2 ∧ count r1 = 1%nat)
              ∨ (r1 ≠ r2 ∧ count r1 = 2%nat ∧ (1 ≤ count r2)%nat)
              ∨ (r1 ≠ r2 ∧ (1 ≤ count r1)%nat ∧ count r2 = 2%nat)))
          ∨ ((∃ r, (3 ≤ count r)%nat)
             ∧ r1 = r2 ∧ r1 ∈ rank_range ∧ (count r1 ≤ 1)%nat).
Proof.
  intros Hboard count.
  destruct (tally_ranks_Ok board Hboard) as (t & Ht & _).
  assert (∀ r, r ∈ rank_range → tally t r = Z.of_nat (count r)) as Htally
    by (intros r Hr; by apply tally_ranks_tally).
  assert (∀ r, (0 < count r)%nat → r ∈ rank_range) as Hon
    by (intros r; by apply rank_on_board).
  assert (∀ k, 0 < k → (k ≤ max_tally t ↔ ∃ r, (Z.to_nat k ≤ count r)%nat))
    as Hmax.
  { intros k Hk. split.
    - intros Hle. destruct (max_tally_witness t k Hk Hle) as (r & Hr & Hge).
      exists r. rewrite (Htally r Hr) in Hge. lia.
    - intros (r & Hr). assert (r ∈ rank_range) as Hin by (apply Hon; lia).
      pose proof (max_tally_upper t r Hin) as Hup.
      rewrite (Htally r Hin) in Hup. lia. }
  pose proof (Hmax 1 ltac:(lia)) as Hmax1.
  pose proof (Hmax 2 ltac:(lia)) as Hmax2.
  pose proof (Hmax 3 ltac:(lia)) as Hmax3.
  change (Z.to_nat 1) with 1%nat in Hmax1.
  change (Z.to_nat 2) with 2%nat in Hmax2.
  change (Z.to_nat 3) with 3%nat in Hmax3. clear Hmax.
  unfold full_house_levels. rewrite Ht, bind_Ok.
  destruct (Z.eqb_spec (max_tally t) 2) as [E2 | E2].
  - (* a paired board *)
    eexists. split; [done |].
    assert (∀ r, (count r ≤ 2)%nat) as Hle2.
    { intros r. destruct (Nat.le_gt_cases (count r) 2) as [? | Hgt]; [done |].
      assert (3 ≤ max_tally t) by (apply Hmax3; exists r; lia). lia. }
    assert (∃ r, count r = 2%nat) as Hex2.
    { destruct (proj1 Hmax2 ltac:(lia)) as (r & Hr). exists r.
      specialize (Hle2 r). lia. }
    split.
    { intros Hle1. destruct Hex2 as (r & Hr). specialize (Hle1 r). lia. }
    intros cp. set (r1 := rank (card_1 cp)). set (r2 := rank (card_2 cp)).
      unfold fulfills_a_level. split.
    + intros (level & pattern & Hlevel & Hpat & Hf). left.
      split; [done |]. split; [done |].
      apply elem_of_flat_map in Hlevel as (r & Hr & Hlevel).
      pose proof (rank_range_not_wildcard r Hr) as Hw.
      pose proof (Htally r Hr) as Hc.
      destruct (Z.eqb_spec (tally t r) 1) as [H1 | H1].
      * apply list_elem_of_singleton in Hlevel as ->.
        apply list_elem_of_singleton in Hpat as ->.
        apply fulfills_rank_pattern in Hf; [| done..].
        left. fold r1 r2 in Hf. split; [lia |].
        assert (r1 = r) as -> by tauto. lia.
      * destruct (Z.eqb_spec (tally t r) 2) as [H2 | H2];
          [| by apply elem_of_nil in Hlevel].
        apply list_elem_of_fmap in Hlevel as (inner & -> & Hinner).
        apply list_elem_of_filter in Hinner as [Hcase Hinner].
        apply list_elem_of_singleton in Hpat as ->.
        pose proof (rank_range_not_wildcard inner Hinner) as Hwi.
        pose proof (Htally inner Hinner) as Hci.
        assert (r ≠ inner) as Hne by (intros ->; lia).
        apply fulfills_rank_pattern in Hf; [| done..]. fold r1 r2 in Hf.
        right. destruct Hf as [[-> ->] | [-> ->]]; [left | right]; lia.
    + intros [(_ & _ & Hcase) | ((r & Hr) & _)];
        [| assert (3 ≤ max_tally t) by (apply Hmax3; by exists r); lia].
      assert (∀ r inner,
                count r = 2%nat → (1 ≤ count inner)%nat → r ≠ inner →
                ((r1 = r ∧ r2 = inner) ∨ (r1 = inner ∧ r2 = r)) →
                ∃ level pattern,
                  level ∈ flat_map
                    (λ rank,
                       let rank_tally := tally t rank in
                       if rank_tally =? 1 then [[pair_couplet rank]]
                       else if rank_tally =? 2 then
                         map (λ inner_rank,
                                [mkCouplet (mkCard rank anything)
                                           (mkCard inner_rank anything)])
                             (filter (λ inner_rank,
                                        tally t inner_rank = 1
                                        ∨ (tally t inner_rank = 2
                                           ∧ inner_rank < rank))
                                     rank_range)
                       else [])
                    rank_range
                  ∧ pattern ∈ level
                  ∧ CoupletOps.fulfills cp pattern = true) as Hmixed.
      { assert (∀ r inner,
                  count r = 2%nat → r ≠ inner →
                  (count inner = 1%nat ∨ (count inner = 2%nat ∧ inner < r)) →
                  ((r1 = r ∧ r2 = inner) ∨ (r1 = inner ∧ r2 = r)) →
                  ∃ level pattern,
                    level ∈ flat_map
                      (λ rank,
                         let rank_tally := tally t rank in
                         if rank_tally =? 1 then [[pair_couplet rank]]
                         else if rank_tally =? 2 then
                           map (λ inner_rank,
                                  [mkCouplet (mkCard rank anything)
                                             (mkCard inner_rank anything)])
                               (filter (λ inner_rank,
                                          tally t inner_rank = 1
                                          ∨ (tally t inner_rank = 2
                                             ∧ inner_rank < rank))
                                       rank_range)
                         else [])
                      rank_range
                    ∧ pattern ∈ level
                    ∧ CoupletOps.fulfills cp pattern = true) as Hordered.
        { intros r inner Hr Hne Hinner Hranks.
          assert (r ∈ rank_range) as Hrin by (apply Hon; lia).
          assert (inner ∈ rank_range) as Hiin by (apply Hon; lia).
          pose proof (Htally r Hrin) as Hc. pose proof (Htally inner Hiin) as Hci.
          exists [mkCouplet (mkCard r anything) (mkCard inner anything)],
                 (mkCouplet (mkCard r anything) (mkCard inner anything)).
          split; [| split; [left |]].
          - apply elem_of_flat_map. exists r. split; [done |]. cbv zeta.
            destruct (Z.eqb_spec (tally t r) 1) as [? | _]; [lia |].
            destruct (Z.eqb_spec (tally t r) 2) as [_ | ?]; [| lia].
            apply list_elem_of_fmap. exists inner. split; [done |].
            apply list_elem_of_filter. split; [lia | done].
          - apply fulfills_rank_pattern;
              [by apply rank_range_not_wildcard..|]. by fold r1 r2. }
        intros r inner Hr Hinner Hne Hranks.
        pose proof (Hle2 inner) as Hi2.
        destruct (decide (count inner = 1%nat)) as [Hi1 | Hi1];
          [apply (Hordered r inner); auto |].
        destruct (Z.lt_total inner r) as [Hlt | [-> | Hgt]]; [| done |].
        - apply (Hordered r inner); [done | done | right; lia | done].
        - apply (Hordered inner r); [lia | done | right; lia | tauto]. }
      destruct Hcase as [[Heq Hc1] | [(Hne & Hc1 & Hc2) | (Hne & Hc1 & Hc2)]].
      * assert (r1 ∈ rank_range) as Hrin by (apply Hon; lia).
        exists [pair_couplet r1], (pair_couplet r1).
        split; [| split; [left |]].
        -- apply elem_of_flat_map. exists r1. split; [done |]. cbv zeta.
           rewrite (proj2 (Z.eqb_eq (tally t r1) 1)); [left |].
           rewrite (Htally r1 Hrin). lia.
        -- apply fulfills_rank_pattern;
             [by apply rank_range_not_wildcard..|]. fold r1 r2. auto.
      * apply (Hmixed r1 r2); auto.
      * apply (Hmixed r2 r1); auto.
  - destruct (Z.geb_spec (max_tally t) 3) as [E3 | E3].
    + (* three cards of one rank on the board *)
      eexists. split; [done |].
      destruct (proj1 Hmax3 E3) as (r3 & Hr3).
      split.
      { intros Hle1. specialize (Hle1 r3). lia. }
      assert (∀ r, r ∈ rank_range → 0 ≤ tally t r) as Hnonneg
        by (intros r Hr; rewrite (Htally r Hr); lia).
      assert (∃ r, r ∈ rank_range ∧ 3 ≤ tally t r) as Htrips.
      { exists r3. assert (r3 ∈ rank_range) as Hin by (apply Hon; lia).
        split; [done |]. rewrite (Htally r3 Hin). lia. }
      intros cp. set (r1 := rank (card_1 cp)). set (r2 := rank (card_2 cp)).
      unfold fulfills_a_level. split.
      * intros (level & pattern & Hlevel & Hpat & Hf). right.
        split; [by exists r3 |].
        apply (full_house_scan_levels t level Hnonneg Htrips) in Hlevel
          as (r & Hr & Hle & ->).
        apply list_elem_of_singleton in Hpat as ->.
        pose proof (rank_range_not_wildcard r Hr) as Hw.
        apply fulfills_rank_pattern in Hf; [| done..]. fold r1 r2 in Hf.
        rewrite (Htally r Hr) in Hle.
        assert (r1 = r ∧ r2 = r) as [-> ->] by tauto.
        split; [done |]. split; [done | lia].
      * intros [(Hle2 & _) | (_ & Heq & Hrin & Hle)].
        { specialize (Hle2 r3). lia. }
        exists [pair_couplet r1], (pair_couplet r1).
        split; [| split; [left |]].
        -- apply (full_house_scan_levels t _ Hnonneg Htrips).
           exists r1. split; [done |]. split; [| done].
           rewrite (Htally r1 Hrin). lia.
        -- apply fulfills_rank_pattern;
             [by apply rank_range_not_wildcard..|]. fold r1 r2. auto.
    + (* no repeated rank *)
      pose proof (max_tally_nonneg t) as H0.
      eexists. split; [done |]. split; [done |].
      intros cp. set (r1 := rank (card_1 cp)). set (r2 := rank (card_2 cp)).
      unfold fulfills_a_level. split.
      * intros (level & pattern & Hlevel & _). by apply elem_of_nil in Hlevel.
      * intros [(_ & (r & Hr) & _) | ((r & Hr) & _)].
        -- assert (2 ≤ max_tally t) by (apply Hmax2; exists r; lia).
           assert (¬ 3 ≤ max_tally t) by lia. lia.
        -- assert (3 ≤ max_tally t) by (apply Hmax3; by exists r). lia.
Qed.

(** ** The rank levels of an unpaired board *)

Lemma count_NoDup (l : list Z) r :
  NoDup l →
  length (filter (λ x, x = r) l) = if decide (r ∈ l) then 1%nat else 0%nat.
Proof.
  induction 1 as [| x l Hx Hnd IH]; [done |].
  rewrite filter_cons. destruct (decide (x = r)) as [-> | Hne]; simpl; rewrite IH.
  - rewrite decide_False by done. rewrite decide_True by left. done.
  - destruct (decide (r ∈ l)) as [Hin | Hnin].
    + rewrite decide_True by by right. done.
    + rewrite decide_False; [done |]. rewrite not_elem_of_cons. split; congruence.
Qed.

Lemma count_repeated (l : list Z) :
  ¬ NoDup l → ∃ r, r ∈ l ∧ (2 ≤ length (filter (λ x, x = r) l))%nat.
Proof.
  induction l as [| x l IH]; intros Hdup; [destruct Hdup; constructor |].
  destruct (decide (x ∈ l)) as [Hin | Hnin].
  - exists x. split; [left |]. rewrite filter_cons, decide_True by done. simpl.
    assert (x ∈ filter (λ y, y = x) l) as H by by apply list_elem_of_filter.
    destruct (filter (λ y, y = x) l); [by apply elem_of_nil in H | simpl; lia].
  - destruct IH as (r & Hr & Hc); [intros ?; apply Hdup; by constructor |].
    exists r. split; [by right |]. rewrite filter_cons. case_decide; simpl; lia.
Qed.

(** On a non-empty board without a repeated rank every tally is 0 or 1. *)
Lemma unpaired_tallies board t :
  Forall (λ card, 0 ≤ rank card < num_ranks) board →
  tally_ranks board = Ok t → board ≠ [] → NoDup (map rank board) →
  max_tally t = 1
  ∧ ∀ r, r ∈ rank_range →
         tally t r = (if decide (r ∈ map rank board) then 1 else 0).
Proof.
  intros Hboard Ht Hne Hnd.
  assert (∀ r, r ∈ rank_range →
               tally t r = (if decide (r ∈ map rank board) then 1 else 0))
    as Htally.
  { intros r Hr. destruct (tally_ranks_tally board t r Ht Hr) as [_ ->].
    rewrite <- length_filter_rank, count_NoDup by done. by case_decide. }
  split; [| done]. apply Z.le_antisymm.
  - apply max_tally_fold_upper; [done |]. intros r Hr.
    rewrite (Htally r Hr). case_decide; lia.
  - destruct board as [| c board']; [done |].
    apply Forall_cons in Hboard as [Hc _].
    assert (rank c ∈ rank_range) as Hr by by apply elem_of_rank_range.
    etrans; [| apply (max_tally_upper t _ Hr)].
    rewrite (Htally _ Hr), decide_True; [done | left].
Qed.

Lemma kicker_levels_match kicker_rank_range cp :
  (∀ r, r ∈ kicker_rank_range → r ≠ anything) →
  fulfills_a_level cp (kicker_levels kicker_rank_range)
  ↔ rank (card_1 cp) ∈ kicker_rank_range
    ∧ rank (card_2 cp) ∈ kicker_rank_range
    ∧ rank (card_1 cp) ≠ rank (card_2 cp).
Proof.
  intros Hw. unfold fulfills_a_level, kicker_levels. split.
  - intros (level & pattern & Hlevel & Hpat & Hf).
    apply elem_of_flat_map in Hlevel as (hi & Hhi & Hlevel).
    apply list_elem_of_fmap in Hlevel as (lo & -> & Hlo).
    apply list_elem_of_filter in Hlo as [Hlt Hlo].
    apply list_elem_of_singleton in Hpat as ->.
    apply fulfills_rank_pattern in Hf; [| by apply Hw..].
    destruct Hf as [[-> ->] | [-> ->]]; repeat split; (done || lia).
  - intros (H1 & H2 & Hne).
    assert (∃ hi lo, hi ∈ kicker_rank_range ∧ lo ∈ kicker_rank_range ∧ lo < hi
                     ∧ ((rank (card_1 cp) = hi ∧ rank (card_2 cp) = lo)
                        ∨ (rank (card_1 cp) = lo ∧ rank (card_2 cp) = hi)))
      as (hi & lo & Hhi & Hlo & Hlt & Hranks).
    { destruct (Z.lt_ge_cases (rank (card_2 cp)) (rank (card_1 cp))).
      - exists (rank (card_1 cp)), (rank (card_2 cp)). tauto.
      - exists (rank (card_2 cp)), (rank (card_1 cp)).
        repeat split; [done | done | lia | tauto]. }
    exists [mkCouplet (mkCard hi anything) (mkCard lo anything)],
      (mkCouplet (mkCard hi anything) (mkCard lo anything)).
    split; [| split; [left |]].
    + apply elem_of_flat_map. exists hi. split; [done |].
      apply list_elem_of_fmap. exists lo. split; [done |].
      by apply list_elem_of_filter.
    + apply fulfills_rank_pattern; [by apply Hw.. |]. tauto.
Qed.

(** X13. On a non-empty board without a repeated rank (ranks of the deck),
    the four rank builders sort the couplets by how many of their ranks are
    on the board: [three_of_a_kind_levels] matches the pairs of a board
    rank, [two_pair_levels] the couplets of two different board ranks,
    [one_pair_levels] the pairs of a rank off the board and the couplets
    with one rank on and one rank off the board, [high_card_levels] the
    couplets of two different ranks off the board. *)
Theorem unpaired_board_levels (board : list Card) :
  Forall (λ card, 0 ≤ rank card < num_ranks) board →
  board ≠ [] → NoDup (map rank board) →
  ∃ tk tp op hc,
    three_of_a_kind_levels board = Ok tk
    ∧ two_pair_levels board = Ok tp
    ∧ one_pair_levels board = Ok op
    ∧ high_card_levels board = Ok hc
    ∧ ∀ cp,
        let r1 := rank (card_1 cp) in
        let r2 := rank (card_2 cp) in
        let on_board r := r ∈ map rank board in
        let off_board r := r ∈ rank_range ∧ r ∉ map rank board in
        (fulfills_a_level cp tk ↔ r1 = r2 ∧ on_board r1)
        ∧ (fulfills_a_level cp tp ↔ r1 ≠ r2 ∧ on_board r1 ∧ on_board r2)
        ∧ (fulfills_a_level cp op
           ↔ (r1 = r2 ∧ off_board r1)
             ∨ (on_board r1 ∧ off_board r2) ∨ (off_board r1 ∧ on_board r2))
        ∧ (fulfills_a_level cp hc ↔ r1 ≠ r2 ∧ off_board r1 ∧ off_board r2).
Proof.
  intros Hboard Hne Hnd.
  destruct (tally_ranks_Ok board Hboard) as (t & Ht & _).
  destruct (unpaired_tallies board t Hboard Ht Hne Hnd) as [Hmax Htally].
  assert (∀ r, r ∈ map rank board → r ∈ rank_range) as Hin_range.
  { intros r (c & -> & Hc)%list_elem_of_fmap. rewrite Forall_forall in Hboard.
    apply elem_of_rank_range. by apply Hboard. }
  assert (∀ r, r ∈ rank_range ∧ tally t r = 1 ↔ r ∈ map rank board) as Hon.
  { intros r. split.
    - intros [Hr H1]. rewrite (Htally r Hr) in H1. by case_decide.
    - intros Hr. split; [by apply Hin_range |].
      rewrite Htally by by apply Hin_range. by rewrite decide_True. }
  assert (∀ r, r ∈ rank_range ∧ tally t r = 0
               ↔ r ∈ rank_range ∧ r ∉ map rank board) as Hoff.
  { intros r. split; intros [Hr H0]; (split; [done |]).
    - rewrite (Htally r Hr) in H0. by case_decide.
    - by rewrite Htally, decide_False. }
  unfold three_of_a_kind_levels, two_pair_levels, one_pair_levels,
    high_card_levels.
  rewrite Ht, !bind_Ok, Hmax. cbn [Z.eqb Pos.eqb].
  eexists _, _, _, _. do 4 (split; [reflexivity |]).
  intros cp.
  split; [| split; [| split]].
  - unfold fulfills_a_level. split.
    + intros (level & pattern & Hlevel & Hpat & Hf).
      apply elem_of_flat_map in Hlevel as (r & Hr & Hlevel).
      destruct (Z.eqb_spec (tally t r) 1) as [H1 | H1];
        [| by apply elem_of_nil in Hlevel].
      apply list_elem_of_singleton in Hlevel as ->.
      apply list_elem_of_singleton in Hpat as ->.
      apply fulfills_rank_pattern in Hf; [| by apply rank_range_not_wildcard..].
      assert (rank (card_1 cp) = r ∧ rank (card_2 cp) = r) as [-> ->] by tauto.
      split; [done |]. by apply Hon.
    + intros [Heq Hr%Hon]. destruct Hr as [Hr H1].
      exists [pair_couplet (rank (card_1 cp))], (pair_couplet (rank (card_1 cp))).
      split; [| split; [left |]].
      * apply elem_of_flat_map. eexists. split; [exact Hr |].
        rewrite (proj2 (Z.eqb_eq _ _) H1). left.
      * apply fulfills_rank_pattern; [by apply rank_range_not_wildcard.. |].
        left. by rewrite <- Heq.
  - rewrite kicker_levels_match.
    + rewrite !list_elem_of_filter. pose proof (Hon (rank (card_1 cp))).
      pose proof (Hon (rank (card_2 cp))). tauto.
    + intros r [_ Hr]%list_elem_of_filter. by apply rank_range_not_wildcard.
  - unfold fulfills_a_level. split.
    + intros (level & pattern & Hlevel & Hpat & Hf).
      apply elem_of_flat_map in Hlevel as (r & Hr & Hlevel).
      pose proof (rank_range_not_wildcard r Hr) as Hw.
      apply elem_of_app in Hlevel as [Hlevel | Hlevel].
      * destruct (Z.eqb_spec (tally t r) 0) as [H0 | H0];
          [| by apply elem_of_nil in Hlevel].
        apply list_elem_of_singleton in Hlevel as ->.
        apply list_elem_of_singleton in Hpat as ->.
        apply fulfills_rank_pattern in Hf; [| done..].
        assert (rank (card_1 cp) = r ∧ rank (card_2 cp) = r) as [-> ->] by tauto.
        left. split; [done |]. by apply Hoff.
      * destruct (Z.eqb_spec (tally t r) 1) as [H1 | H1];
          [| by apply elem_of_nil in Hlevel].
        apply list_elem_of_fmap in Hlevel as (inner & -> & Hinner).
        apply list_elem_of_filter in Hinner as [H0 Hinner].
        apply list_elem_of_singleton in Hpat as ->.
        apply fulfills_rank_pattern in Hf;
          [| done | by apply rank_range_not_wildcard].
        assert (r ∈ map rank board) as Hron by by apply Hon.
        assert (inner ∈ rank_range ∧ inner ∉ map rank board) as Hioff
          by by apply Hoff.
        right. destruct Hf as [[-> ->] | [-> ->]]; [left | right]; done.
    + assert (∀ r inner, r ∈ map rank board →
                inner ∈ rank_range ∧ inner ∉ map rank board →
                [mkCouplet (mkCard r anything) (mkCard inner anything)]
                ∈ flat_map
                    (λ rank,
                       (if tally t rank =? 0 then [[pair_couplet rank]] else [])
                       ++ (if tally t rank =? 1
                           then map (λ inner_rank,
                                       [mkCouplet (mkCard rank anything)
                                                  (mkCard inner_rank anything)])
                                    (filter (λ inner_rank, tally t inner_rank = 0)
                                            rank_range)
                           else []))
                    rank_range) as Hmixed.
      { intros r inner [Hr H1]%Hon [Hi H0]%Hoff.
        apply elem_of_flat_map. exists r. split; [done |].
        apply elem_of_app. right. rewrite (proj2 (Z.eqb_eq _ _) H1).
        apply list_elem_of_fmap. exists inner. split; [done |].
        by apply list_elem_of_filter. }
      intros [[Heq Hr] | [[Hr Hi] | [Hi Hr]]].
      * apply Hoff in Hr as [Hr H0].
        exists [pair_couplet (rank (card_1 cp))], (pair_couplet (rank (card_1 cp))).
        split; [| split; [left |]].
        -- apply elem_of_flat_map. eexists. split; [exact Hr |].
           apply elem_of_app. left. rewrite (proj2 (Z.eqb_eq _ _) H0). left.
        -- apply fulfills_rank_pattern; [by apply rank_range_not_wildcard.. |].
           left. by rewrite <- Heq.
      * eexists _, _. split; [by apply (Hmixed _ _ Hr Hi) |]. split; [left |].
        apply fulfills_rank_pattern;
          [apply rank_range_not_wildcard; by apply Hin_range
          | apply rank_range_not_wildcard; by destruct Hi |]. by left.
      * eexists _, _. split; [by apply (Hmixed _ _ Hr Hi) |]. split; [left |].
        apply fulfills_rank_pattern;
          [apply rank_range_not_wildcard; by apply Hin_range
          | apply rank_range_not_wildcard; by destruct Hi |]. by right.
  - rewrite kicker_levels_match.
    + rewrite !list_elem_of_filter. pose proof (Hoff (rank (card_1 cp))).
      pose proof (Hoff (rank (card_2 cp))). tauto.
    + intros r [_ Hr]%list_elem_of_filter. by apply rank_range_not_wildcard.
Qed.

(** ** The resolver on any generic ladder *)

Lemma fulfills_a_level_index cp levels :
  fulfills_a_level cp levels
  ↔ ∃ i, index_of_level_containing cp levels = Some i.
Proof.
  split.
  - intros (level & pattern & Hlevel & Hpat & Hf).
    by apply (index_of_level_containing_Some cp levels level pattern).
  - intros [i Hi]. apply index_of_level_containing_first in Hi.
    destruct Hi as [(level & pattern & Hlevel & Hpat & Hf) _].
    exists level, pattern. split; [| done].
    by apply list_elem_of_lookup_2 in Hlevel.
Qed.

(** X14. [index_of_level_containing] returns the index of the first level
    that holds a pattern the couplet fulfills, an index below the number of
    levels, and [None] exactly when the couplet fulfills no pattern of any
    level (in particular for the empty ladder). *)
Theorem index_of_level_containing_spec (cp : Couplet)
    (levels : list (list Couplet)) :
  (∀ i, index_of_level_containing cp levels = Some i
        ↔ first_level_fulfilled cp levels i)
  ∧ (∀ i, index_of_level_containing cp levels = Some i →
          (i < length levels)%nat)
  ∧ (index_of_level_containing cp levels = None
     ↔ ¬ fulfills_a_level cp levels)
  ∧ index_of_level_containing cp [] = None.
Proof.
  split; [intros i; apply index_of_level_containing_first |].
  split; [intros i; apply index_of_level_containing_lt |].
  split; [| reflexivity].
  rewrite fulfills_a_level_index.
  destruct (index_of_level_containing cp levels) as [i |].
  - split; [done |]. intros H. destruct H. by exists i.
  - split; [| done]. by intros _ [i ?].
Qed.

Lemma first_match_classes_elem gl couplets cp :
  cp ∈ concat (first_match_classes gl couplets)
  ↔ cp ∈ couplets ∧ fulfills_a_level cp gl.
Proof.
  unfold first_match_classes. rewrite elem_of_concat, fulfills_a_level_index.
  split.
  - intros (level & Hlevel & Hcp).
    apply list_elem_of_fmap in Hlevel as (j & -> & Hj).
    apply list_elem_of_filter in Hcp as [Hidx Hcp]. split; [done | by exists j].
  - intros [Hcp [j Hj]]. eexists. split.
    + apply list_elem_of_fmap. exists j. split; [reflexivity |].
      apply elem_of_seq. apply index_of_level_containing_lt in Hj. lia.
    + by apply list_elem_of_filter.
Qed.

Lemma first_match_classes_NoDup gl couplets :
  NoDup couplets → NoDup (concat (first_match_classes gl couplets)).
Proof.
  intros Hnd. unfold first_match_classes.
  rewrite <- (map_map Some
                (λ k, filter (λ cp, index_of_level_containing cp gl = k) couplets)).
  rewrite (filter_keys_Permutation
             (λ cp, index_of_level_containing cp gl) couplets).
  - by apply NoDup_filter.
  - apply NoDup_fmap_2; [| apply NoDup_seq]. by intros ?? [= ->].
Qed.

(** X15. On any generic ladder, not only the one of [all_levels],
    [specify] returns: the couplets of its levels are the two-card
    combinations of the remaining deck that fulfill some pattern of the
    ladder, each once and in the order of the deck within a level; a
    combination that fulfills no pattern is dropped without a trace.  No
    level of the result is empty, there are at most as many as generic
    levels, and none for the empty ladder. *)
Theorem specify_any_ladder (generic_levels : list (list Couplet))
    (board : list Card) :
  ∃ levels,
    specify generic_levels board = Ok levels
    ∧ (∀ cp, cp ∈ concat levels
             ↔ cp ∈ couplets_of (remaining_deck board)
               ∧ fulfills_a_level cp generic_levels)
    ∧ NoDup (concat levels)
    ∧ Forall (λ level,
                level ≠ [] ∧ level `sublist_of` couplets_of (remaining_deck board))
             levels
    ∧ (length levels ≤ length generic_levels)%nat
    ∧ (generic_levels = [] → levels = []).
Proof.
  eexists. split; [apply specify_Ok |].
  rewrite remove_empty_levels_concat.
  split; [intros cp; apply first_match_classes_elem |].
  split; [apply first_match_classes_NoDup, couplets_of_NoDup, remaining_deck_NoDup |].
  split; [| split].
  - apply Forall_forall. intros level Hlevel.
    pose proof (remove_empty_levels_nonempty
                  (first_match_classes generic_levels
                     (couplets_of (remaining_deck board)))) as Hne.
    rewrite Forall_forall in Hne. split; [by apply Hne |].
    apply list_elem_of_filter in Hlevel as [_ Hlevel].
    apply list_elem_of_fmap in Hlevel as (j & -> & _). apply sublist_filter.
  - etrans; [apply length_filter |].
    unfold first_match_classes. by rewrite length_map, length_seq.
  - intros ->. reflexivity.
Qed.

(** ** The scan of the holding *)

(** The result of the loop of [utility] over the couplets of the holding. *)
Lemma best_level_loop_spec (levels : list (list Couplet))
    (couplets : list Couplet) (initial : nat) :
  (∀ best,
     best_level_loop levels couplets initial = Ok best ↔
     (∀ cp, cp ∈ couplets →
            ∃ i, index_of_level_containing cp levels = Some i ∧ (best ≤ i)%nat)
     ∧ (best ≤ initial)%nat
     ∧ (best = initial
        ∨ ∃ cp, cp ∈ couplets ∧ index_of_level_containing cp levels = Some best))
  ∧ (best_level_loop levels couplets initial = Raise TypeError ↔
     ∃ cp, cp ∈ couplets ∧ index_of_level_containing cp levels = None)
  ∧ ∀ e, best_level_loop levels couplets initial = Raise e → e = TypeError.
Proof.
  revert initial. induction couplets as [| cp0 couplets IH]; intros initial.
  - simpl. split; [| split].
    + intros best. split.
      * intros [= <-]. split; [by intros ? ?%elem_of_nil |]. split; [done | by left].
      * intros (_ & Hle & [-> | (cp & Hcp & _)]); [done | by apply elem_of_nil in Hcp].
    + split; [done |]. by intros (cp & Hcp%elem_of_nil & _).
    + done.
  - simpl. destruct (index_of_level_containing cp0 levels) as [i0 |] eqn:E0.
    + destruct (IH (if (i0 <? initial)%nat then i0 else initial))
        as (IHok & IHerr & IHexn).
      split; [| split; [| exact IHexn]].
      * intros best. rewrite IHok. split.
        -- intros (Hall & Hle & Hwit). split; [| split].
           ++ intros cp [-> | Hcp]%elem_of_cons; [| by apply Hall].
              exists i0. split; [done |]. destruct (Nat.ltb_spec i0 initial); lia.
           ++ destruct (Nat.ltb_spec i0 initial); lia.
           ++ destruct Hwit as [-> | (cp & Hcp & Hidx)].
              ** destruct (Nat.ltb_spec i0 initial); [right | by left].
                 exists cp0. split; [left | done].
              ** right. exists cp. split; [by right | done].
        -- intros (Hall & Hle & Hwit).
           destruct (Hall cp0) as (i & Hi & Hbi); [left |].
           assert (i = i0) as -> by congruence.
           split; [| split].
           ++ intros cp Hcp. apply Hall. by right.
           ++ destruct (Nat.ltb_spec i0 initial); lia.
           ++ destruct Hwit as [-> | (cp & [-> | Hcp]%elem_of_cons & Hidx)].
              ** left. destruct (Nat.ltb_spec i0 initial); lia.
              ** left. assert (best = i0) as -> by congruence.
                 destruct (Nat.ltb_spec i0 initial); lia.
              ** right. by exists cp.
      * rewrite IHerr. split.
        -- intros (cp & Hcp & Hidx). exists cp. split; [by right | done].
        -- intros (cp & [-> | Hcp]%elem_of_cons & Hidx); [congruence |].
           by exists cp.
    + split; [| split].
      * intros best. split; [done |]. intros (Hall & _).
        destruct (Hall cp0) as (i & Hi & _); [left | congruence].
      * split; [| done]. intros _. exists cp0. split; [left | done].
      * by intros e [= <-].
Qed.

(** X16. The loop of [utility] over the couplets of the holding ends with
    the least of the initial value and the level indices of the couplets:
    the holding is ranked by its strongest couplet.  It raises [TypeError]
    exactly when a couplet is in no level. *)
Theorem best_level_loop_min (levels : list (list Couplet))
    (couplets : list Couplet) (initial : nat) :
  (∀ best,
     best_level_loop levels couplets initial = Ok best ↔
     (∀ cp, cp ∈ couplets →
            ∃ i, index_of_level_containing cp levels = Some i ∧ (best ≤ i)%nat)
     ∧ (best ≤ initial)%nat
     ∧ (best = initial
        ∨ ∃ cp, cp ∈ couplets ∧ index_of_level_containing cp levels = Some best))
  ∧ (best_level_loop levels couplets initial = Raise TypeError ↔
     ∃ cp, cp ∈ couplets ∧ index_of_level_containing cp levels = None)
  ∧ ∀ e, best_level_loop levels couplets initial = Raise e → e = TypeError.
Proof. apply best_level_loop_spec. Qed.

(** X17. A holding with fewer than two cards has no couplet: on a board
    whose ranks are ranks of the deck, [best_level_index] keeps its dummy
    initial value [len(levels)] and the subscript [levels[best_level_index]]
    raises [IndexError]. *)
Theorem utility_short_holding (holding board : list Card) :
  Forall (λ card, 0 ≤ rank card < num_ranks) board →
  (length holding < 2)%nat →
  utility holding board = Raise IndexError.
Proof.
  intros Hboard Hlen. destruct (all_levels_Ok board Hboard) as [pre Hgl].
  unfold utility. rewrite Hgl, bind_Ok, specify_Ok, bind_Ok.
  rewrite couplify_subsets, bind_Ok.
  assert (couplets_of holding = []) as ->
    by (destruct holding as [| x [| y rest]]; simpl in *; (done || lia)).
  cbn [best_level_loop]. rewrite bind_Ok.
  by rewrite lookup_ge_None_2.
Qed.

(** ** The value of the pot fraction *)

(** The value that steps 5 to 7 return: the quotient of step 5 times the
    accumulator of the loop of step 6, however that loop ended. *)
Lemma pot_fraction_value b e w q :
  pot_fraction b e w = Ok q →
  binom (b + e + w) num_opponents_couplets ≠ 0
  ∧ q = (inject_Z (binom (e + w) num_opponents_couplets)
         / inject_Z (binom (b + e + w) num_opponents_couplets)
         * (tie_loop e w
              (seq 0 (Nat.min (e + 1) (num_opponents_couplets + 1))) 0).1)%Q.
Proof.
  unfold pot_fraction. intros H.
  apply bind_Ok_inv in H as (prob & Hprob & H).
  apply true_div_inv in Hprob as [HB ->]. rewrite !comb_binom in *.
  split; [done |].
  destruct (tie_loop e w _ 0) as [epf [[] | []]]; simpl; congruence.
Qed.

Lemma vsum_stable e w r m m' :
  (e < m)%nat → (m ≤ m')%nat → vsum e w r m' = vsum e w r m.
Proof.
  intros He. induction 1 as [| m' Hle IH]; [done |].
  simpl. rewrite IH, binom_gt by lia. lia.
Qed.

(** The loop of step 6 stops at [min(e, n)] ties: the terms it leaves out
    are zero, and the tie probabilities it adds up have sum 1. *)
Lemma vsum_loop_range e w r :
  vsum e w r (Nat.min (e + 1) (r + 1)) = binom (e + w) r.
Proof.
  rewrite <- vandermonde.
  destruct (Nat.le_gt_cases (e + 1) (r + 1)) as [Hle | Hgt].
  - rewrite Nat.min_l by done. symmetry. apply vsum_stable; lia.
  - rewrite Nat.min_r by lia. f_equal. lia.
Qed.

Lemma share_ge (x : Q) (j n : nat) :
  (0 <= x)%Q → (j ≤ n)%nat →
  (x / inject_Z (Z.of_nat (S n)) <= x / inject_Z (Z.of_nat (S j)))%Q.
Proof.
  intros Hx Hjn.
  assert (0 < inject_Z (Z.of_nat (S j)))%Q as Hj by (apply inject_Z_pos; lia).
  assert (0 < inject_Z (Z.of_nat (S n)))%Q as Hn by (apply inject_Z_pos; lia).
  assert (inject_Z (Z.of_nat (S j)) <= inject_Z (Z.of_nat (S n)))%Q as Hle
    by (rewrite <- Zle_Qle; lia).
  apply Qle_shift_div_r; [done |].
  set (y := (x / inject_Z (Z.of_nat (S j)))%Q).
  assert (0 <= y)%Q as Hy by (apply Qle_shift_div_l; [done | by rewrite Qmult_0_l]).
  assert (x == y * inject_Z (Z.of_nat (S j)))%Q as Hxy.
  { unfold y. field. intros H0. rewrite H0 in Hj. by apply Qlt_irrefl in Hj. }
  rewrite Hxy at 1. nra.
Qed.

Lemma tie_loop_lower e w j len acc :
  0 < comb (e + w) num_opponents_couplets →
  (j + len ≤ num_opponents_couplets + 1)%nat →
  (inject_Z (vsum e w num_opponents_couplets j)
   / inject_Z (comb (e + w) num_opponents_couplets)
   / inject_Z (Z.of_nat (S num_opponents_couplets)) <= acc)%Q →
  (inject_Z (vsum e w num_opponents_couplets (j + len))
   / inject_Z (comb (e + w) num_opponents_couplets)
   / inject_Z (Z.of_nat (S num_opponents_couplets))
   <= (tie_loop e w (seq j len) acc).1)%Q.
Proof.
  intros HD. revert j acc. induction len as [| len IH]; intros j acc Hrange Hacc.
  - simpl. by rewrite Nat.add_0_r.
  - cbn [seq tie_loop]. rewrite true_div_Ok by lia.
    set (t := comb e j * comb w (num_opponents_couplets - j)).
    assert (0 ≤ t) as Ht.
    { unfold t. rewrite !comb_binom.
      pose proof (binom_nonneg e j).
      pose proof (binom_nonneg w (num_opponents_couplets - j)). nia. }
    pose proof (ratio_nonneg t _ Ht HD) as Hx.
    pose proof (share_ge _ j num_opponents_couplets Hx ltac:(lia)) as Hshare.
    rewrite <- Nat.add_succ_comm. apply IH; [lia |].
    change (vsum e w num_opponents_couplets (S j))
      with (vsum e w num_opponents_couplets j
            + binom e j * binom w (num_opponents_couplets - j)).
    rewrite <- !comb_binom. fold t. rewrite (ratio_plus _ _ _ HD).
    set (X := (inject_Z t / inject_Z (comb (e + w) num_opponents_couplets))%Q) in *.
    set (V := (inject_Z (vsum e w num_opponents_couplets j)
               / inject_Z (comb (e + w) num_opponents_couplets))%Q) in *.
    assert ((V + X) / inject_Z (Z.of_nat (S num_opponents_couplets))
            == V / inject_Z (Z.of_nat (S num_opponents_couplets))
               + X / inject_Z (Z.of_nat (S num_opponents_couplets)))%Q as ->.
    { field. intros H0.
      assert (0 < inject_Z (Z.of_nat (S num_opponents_couplets)))%Q as Hpos
        by (apply inject_Z_pos; lia).
      rewrite H0 in Hpos. by apply Qlt_irrefl in Hpos. }
    lra.
Qed.

(** The accumulator of step 6 after the loop: zero when the first division
    raised, and otherwise between [1 / (n + 1)] and 1 for [n] opponent
    couplets. *)
Lemma tie_loop_accumulator e w :
  let epf :=
    (tie_loop e w
       (seq 0 (Nat.min (e + 1) (num_opponents_couplets + 1))) 0).1 in
  (comb (e + w) num_opponents_couplets = 0 → epf = 0%Q)
  ∧ (0 < comb (e + w) num_opponents_couplets →
     (1 / inject_Z (Z.of_nat (S num_opponents_couplets)) <= epf <= 1)%Q).
Proof.
  intros epf. subst epf. split.
  - intros Hz.
    replace (Nat.min (e + 1) (num_opponents_couplets + 1))
      with (S (Nat.min e num_opponents_couplets)) by lia.
    cbn [seq]. by rewrite tie_loop_zero.
  - intros HD. split.
    + pose proof (tie_loop_lower e w 0
                    (Nat.min (e + 1) (num_opponents_couplets + 1)) 0 HD) as H.
      simpl "+"%nat in H. rewrite vsum_loop_range, <- comb_binom in H.
      assert (inject_Z (comb (e + w) num_opponents_couplets)
              / inject_Z (comb (e + w) num_opponents_couplets) == 1)%Q as Hone.
      { field. intros H0. pose proof (inject_Z_pos _ HD) as Hpos.
        rewrite H0 in Hpos. by apply Qlt_irrefl in Hpos. }
      rewrite Hone in H. apply H; [lia |].
      simpl vsum. change (inject_Z 0) with 0%Q.
      assert (0 < inject_Z (comb (e + w) num_opponents_couplets))%Q
        by by apply inject_Z_pos.
      assert (0 < inject_Z (Z.of_nat (S num_opponents_couplets)))%Q
        by (apply inject_Z_pos; lia).
      apply Qle_shift_div_r; [done |]. rewrite Qmult_0_l.
      apply Qle_shift_div_r; [done |]. by rewrite Qmult_0_l.
    + destruct (tie_loop_bounds e w 0
                  (Nat.min (e + 1) (num_opponents_couplets + 1)) 0%Q HD)
        as (acc' & -> & _ & Hup).
      * lra.
      * apply ratio_nonneg; [apply vsum_nonneg | done].
      * simpl. apply (Qle_trans _ _ _ Hup). rewrite comb_binom.
        apply ratio_le_1; [| rewrite <- comb_binom; lia].
        apply vsum_le_binom. lia.
Qed.

Lemma inject_Z_nonzero z : z ≠ 0 → ¬ (inject_Z z == 0)%Q.
Proof.
  intros Hz H. apply Hz. change 0%Q with (inject_Z 0) in H.
  exact (proj1 (inject_Z_injective z 0) H).
Qed.

(** X18. When the compatible couplets are at least as many as the
    opponents hold, steps 5 to 7 of [utility] return, and the result is
    zero exactly when the holding's level and the weaker ones hold fewer
    couplets than the opponents hold: a holding that can be the best hand
    at all has a positive pot fraction. *)
Theorem pot_fraction_zero_iff (b e w : nat) :
  (num_opponents_couplets ≤ b + e + w)%nat →
  ∃ q,
    pot_fraction b e w = Ok q
    ∧ ((q == 0)%Q ↔ (e + w < num_opponents_couplets)%nat)
    ∧ ((num_opponents_couplets ≤ e + w)%nat → (0 < q)%Q).
Proof.
  intros Hn. destruct (pot_fraction_Ok b e w) as [q Hq].
  { rewrite comb_binom. pose proof (binom_pos _ _ Hn). lia. }
  exists q. split; [done |]. clear Hn. revert Hq.
  intros [HB ->]%pot_fraction_value.
  pose proof (tie_loop_accumulator e w) as [Hzero Hpos]. cbv zeta in *.
  set (epf := (tie_loop e w _ 0).1) in *.
  set (n := num_opponents_couplets) in *.
  pose proof (binom_nonneg (b + e + w) n) as HB0.
  assert (0 < inject_Z (binom (b + e + w) n))%Q as HBpos
    by (apply inject_Z_pos; lia).
  assert ((n ≤ e + w)%nat →
          (0 < inject_Z (binom (e + w) n) / inject_Z (binom (b + e + w) n) * epf)%Q)
    as Hgt.
  { intros Hle. pose proof (binom_pos (e + w) n Hle) as HD.
    destruct Hpos as [Hlow _]; [by rewrite comb_binom |].
    assert (0 < 1 / inject_Z (Z.of_nat (S n)))%Q as Hthird.
    { apply Qlt_shift_div_l; [apply inject_Z_pos; lia | lra]. }
    assert (0 < inject_Z (binom (e + w) n) / inject_Z (binom (b + e + w) n))%Q.
    { apply Qlt_shift_div_l; [done |]. rewrite Qmult_0_l. by apply inject_Z_pos. }
    nra. }
  split; [| done]. split.
  - intros Hq. destruct (Nat.lt_ge_cases (e + w) n) as [? | Hle]; [done |].
    specialize (Hgt Hle). rewrite Hq in Hgt. by apply Qlt_irrefl in Hgt.
  - intros Hlt. rewrite Hzero by (rewrite comb_binom; by apply binom_gt).
    apply Qmult_0_r.
Qed.

(** X19. With no tying couplet ([num_equipotent_couplets] is 0) and at
    least as many compatible couplets as the opponents hold, the pot
    fraction is the probability of having the best hand,
    [comb(w, n) / comb(b + w, n)]; with no better couplet either it is 1. *)
Theorem pot_fraction_without_ties (b w : nat) :
  (num_opponents_couplets ≤ b + w)%nat →
  ∃ q,
    pot_fraction b 0 w = Ok q
    ∧ (q == inject_Z (comb w num_opponents_couplets)
            / inject_Z (comb (b + w) num_opponents_couplets))%Q
    ∧ (b = 0%nat → (q == 1)%Q).
Proof.
  intros Hn. destruct (pot_fraction_Ok b 0 w) as [q Hq].
  { rewrite comb_binom, Nat.add_0_r. pose proof (binom_pos _ _ Hn). lia. }
  exists q. split; [done |]. clear Hn.
  destruct (pot_fraction_value b 0 w q Hq) as [HB ->].
  rewrite Nat.add_0_r in *. simpl (0 + w)%nat.
  change (Nat.min (0 + 1) (num_opponents_couplets + 1)) with 1%nat.
  cbn [seq tie_loop]. simpl (0 + w)%nat. rewrite Nat.sub_0_r.
  rewrite !comb_binom in *. change (binom 0 0) with 1. rewrite Z.mul_1_l.
  set (n := num_opponents_couplets) in *.
  assert (¬ (inject_Z (binom (b + w) n) == 0)%Q) as HBq
    by by apply inject_Z_nonzero.
  destruct (decide (binom w n = 0)) as [Hz | Hnz].
  - rewrite Hz. rewrite true_div_zero. cbn [fst]. split.
    + change (inject_Z 0) with 0%Q. field. done.
    + intros ->. simpl in HB. done.
  - rewrite true_div_Ok by done. simpl.
    assert (¬ (inject_Z (binom w n) == 0)%Q) as HDq by by apply inject_Z_nonzero.
    split.
    + change (inject_Z (Z.of_nat 1)) with 1%Q. field. done.
    + intros ->. simpl. change (inject_Z (Z.of_nat 1)) with 1%Q. field. done.
Qed.

(** X20. More better couplets never raise the pot fraction: with at
    least as many compatible couplets as the opponents hold, steps 5 to 7
    return for [b] better couplets and for [b + d], and the second result
    is not larger. *)
Theorem pot_fraction_antitone (b d e w : nat) :
  (num_opponents_couplets ≤ b + e + w)%nat →
  ∃ q q',
    pot_fraction b e w = Ok q
    ∧ pot_fraction (b + d) e w = Ok q' ∧ (q' <= q)%Q.
Proof.
  intros Hn. destruct (pot_fraction_Ok b e w) as [q Hq].
  { rewrite comb_binom. pose proof (binom_pos _ _ Hn). lia. }
  exists q. clear Hn.
  destruct (pot_fraction_value b e w q Hq) as [HB ->].
  set (n := num_opponents_couplets) in *.
  pose proof (binom_nonneg (b + e + w) n) as HB0.
  pose proof (binom_mono (b + e + w) (b + d + e + w) n ltac:(lia)) as HBB.
  destruct (pot_fraction_Ok (b + d) e w) as [q' Hq'].
  { rewrite comb_binom. fold n. lia. }
  exists q'. split; [done |]. split; [done |].
  destruct (pot_fraction_value _ _ _ _ Hq') as [_ ->]. fold n.
  pose proof (tie_loop_accumulator e w) as [Hzero Hpos]. cbv zeta in *.
  fold n in Hzero, Hpos.
  set (epf := (tie_loop e w _ 0).1) in *.
  assert (0 <= epf)%Q as Hepf.
  { destruct (decide (comb (e + w) n = 0)) as [Hz | Hnz].
    - rewrite (Hzero Hz). lra.
    - pose proof (binom_nonneg (e + w) n). rewrite comb_binom in Hnz.
      destruct Hpos as [Hlow _]; [rewrite comb_binom; lia |].
      assert (0 < 1 / inject_Z (Z.of_nat (S n)))%Q.
      { apply Qlt_shift_div_l; [apply inject_Z_pos; lia | lra]. }
      lra. }
  apply Qmult_le_compat_r; [| done].
  pose proof (binom_nonneg (e + w) n) as HA0.
  assert (0 < inject_Z (binom (b + e + w) n))%Q as H1 by (apply inject_Z_pos; lia).
  assert (0 < inject_Z (binom (b + d + e + w) n))%Q as H2
    by (apply inject_Z_pos; lia).
  apply Qle_shift_div_r; [done |].
  set (y := (inject_Z (binom (e + w) n) / inject_Z (binom (b + e + w) n))%Q).
  assert (0 <= y)%Q as Hy by (apply ratio_nonneg; lia).
  assert (inject_Z (binom (e + w) n) == y * inject_Z (binom (b + e + w) n))%Q
    as Hxy.
  { unfold y. field. intros H0. rewrite H0 in H1. by apply Qlt_irrefl in H1. }
  rewrite Hxy at 1.
  assert (inject_Z (binom (b + e + w) n) <= inject_Z (binom (b + d + e + w) n))%Q
    by by rewrite <- Zle_Qle.
  nra.
Qed.

(** ** Straights *)

Lemma sorted_reverse_spec ranks :
  StronglySorted Z.ge (sorted_reverse ranks)
  ∧ sorted_reverse ranks ≡ₚ ranks.
Proof.
  unfold sorted_reverse.
  assert (Transitive Z.ge) by (intros x y z; lia).
  assert (Total Z.ge) by (intros x y; lia).
  split.
  - apply StronglySorted_merge_sort; apply _.
  - apply merge_sort_Permutation.
Qed.

(** A strictly descending list of elements of a descending list is a
    sub-list of it. *)
Lemma descending_sublist (l1 l2 : list Z) :
  StronglySorted (λ x y, y < x) l1 → StronglySorted Z.ge l2 →
  (∀ x, x ∈ l1 → x ∈ l2) → l1 `sublist_of` l2.
Proof.
  intros H1 H2. revert l1 H1.
  induction H2 as [| y l2 H2 IH Hy]; intros l1 H1 Hsub.
  - destruct l1 as [| x l1]; [done |].
    specialize (Hsub x ltac:(left)). by apply elem_of_nil in Hsub.
  - destruct l1 as [| x l1]; [apply sublist_nil_l |].
    apply StronglySorted_inv in H1 as [H1 Hx].
    rewrite Forall_forall in Hx, Hy.
    destruct (decide (x = y)) as [-> | Hne].
    + apply sublist_skip, IH; [done |]. intros z Hz.
      specialize (Hx z Hz). specialize (Hsub z ltac:(by right)).
      apply elem_of_cons in Hsub as [-> | ?]; [lia | done].
    + assert (x ∈ l2) as Hxl.
      { specialize (Hsub x ltac:(left)).
        by apply elem_of_cons in Hsub as [? | ?]. }
      specialize (Hy x Hxl). apply sublist_cons, IH; [by constructor; [| apply Forall_forall] |].
      intros z [-> | Hz]%elem_of_cons; [done |].
      specialize (Hx z Hz). specialize (Hsub z ltac:(by right)).
      apply elem_of_cons in Hsub as [-> | ?]; [lia | done].
Qed.

Lemma mapM_elem {A B} (f : A → result B) l r y :
  mapM f l = Ok r → (y ∈ r ↔ ∃ x, x ∈ l ∧ f x = Ok y).
Proof.
  revert r. induction l as [| x0 l IH]; intros r Hr.
  - injection Hr as <-. split; [by intros ?%elem_of_nil |].
    by intros (x & ?%elem_of_nil & _).
  - cbn in Hr. apply bind_Ok_inv in Hr as (y0 & Hy0 & Hr).
    apply bind_Ok_inv in Hr as (ys & Hys & Hr). injection Hr as <-.
    rewrite elem_of_cons, (IH ys Hys). split.
    + intros [-> | (x & Hx & Hfx)]; [exists x0; split; [left | done] |].
      exists x. split; [by right | done].
    + intros (x & [-> | Hx]%elem_of_cons & Hfx); [left; congruence |].
      right. by exists x.
Qed.

Lemma window_splits :
  Forall (λ high_rank,
            Forall (λ subset, window_split high_rank subset = true)
                   (subsets_of_size 3 (straight_ranks high_rank)))
         (reverse (py_range five num_ranks)).
Proof. by_evaluation. Qed.

Lemma window_split_inv high_rank subset :
  window_split high_rank subset = true →
  ∃ a b c r0 r1,
    subset = [a; b; c]
    ∧ filter (λ rank, rank ∉ subset) (straight_ranks high_rank) = [r0; r1]
    ∧ c < b < a ∧ r1 < r0
    ∧ [r0; r1; a; b; c] ≡ₚ straight_ranks high_rank.
Proof.
  unfold window_split. intros H.
  destruct subset as [| a [| b [| c [| ? ?]]]]; try done.
  destruct (filter _ (straight_ranks high_rank)) as [| r0 [| r1 [| ? ?]]];
    try done.
  apply andb_prop in H as [H Hperm]. apply andb_prop in H as [Habc Hr].
  apply bool_decide_eq_true in Hperm, Habc, Hr.
  by exists a, b, c, r0, r1.
Qed.

Lemma descending_triple a b c :
  c < b < a → StronglySorted (λ x y, y < x) [a; b; c].
Proof.
  intros H. repeat constructor; lia.
Qed.

(** The couplets of the level of one straight. *)
Lemma straight_level_with_suit_elem (high_rank : Z) (board_ranks : list Z)
    (suit_to_record : Z) :
  high_rank ∈ reverse (py_range five num_ranks) →
  ∃ level,
    straight_level_with_suit high_rank board_ranks suit_to_record = Ok level
    ∧ ∀ cp,
        cp ∈ level
        ↔ ∃ r0 r1 a b c,
            a ∈ board_ranks ∧ b ∈ board_ranks ∧ c ∈ board_ranks
            ∧ c < b < a ∧ r1 < r0
            ∧ [r0; r1; a; b; c] ≡ₚ straight_ranks high_rank
            ∧ cp = mkCouplet (mkCard (r0 mod num_ranks) suit_to_record)
                             (mkCard (r1 mod num_ranks) suit_to_record).
Proof.
  intros Hhigh.
  destruct (straight_level_with_suit_Ok high_rank board_ranks suit_to_record Hhigh)
    as [level Hlevel].
  exists level. split; [done |].
  unfold straight_level_with_suit in Hlevel. fold (straight_ranks high_rank) in Hlevel.
  destruct (sorted_reverse_spec board_ranks) as [Hsorted Hperm].
  pose proof window_splits as Hsplit. rewrite Forall_forall in Hsplit.
  specialize (Hsplit high_rank Hhigh). rewrite Forall_forall in Hsplit.
  pose proof (reverse_py_range_sorted (high_rank - 4) (high_rank + 1)) as Hwin.
  fold (straight_ranks high_rank) in Hwin.
  intros cp. rewrite (mapM_elem _ _ _ cp Hlevel). split.
  - intros (subset & Hsubset & Hcp).
    apply list_elem_of_filter in Hsubset as [Hin_window Hin_board].
    destruct (window_split_inv _ _ (Hsplit subset Hin_window))
      as (a & b & c & r0 & r1 & -> & Hrest & Habc & Hr & Hp).
    rewrite Hrest in Hcp. injection Hcp as <-.
    apply subsets_of_size_sound in Hin_board as [Hsub _].
    assert (∀ x, x ∈ [a; b; c] → x ∈ board_ranks) as Hb.
    { intros x Hx. rewrite <- Hperm. by apply (elem_of_sublist _ _ _ Hx). }
    exists r0, r1, a, b, c.
    split; [apply Hb; left |]. split; [apply Hb; right; left |].
    split; [apply Hb; do 2 right; left |]. done.
  - intros (r0 & r1 & a & b & c & Ha & Hb & Hc & Habc & Hr & Hp & ->).
    assert (∀ x, x ∈ [a; b; c] → x ∈ straight_ranks high_rank) as Hin_win.
    { intros x Hx. rewrite <- Hp. by do 2 right. }
    assert ([a; b; c] ∈ subsets_of_size 3 (straight_ranks high_rank)) as Hsub_win.
    { apply (subsets_of_size_complete (straight_ranks high_rank) [a; b; c]).
      apply descending_sublist; [by apply descending_triple | | done].
      clear -Hwin. induction Hwin as [| x l Hl IH Hx]; constructor; [done |].
      eapply Forall_impl; [exact Hx |]. simpl. lia. }
    exists [a; b; c]. split.
    + apply list_elem_of_filter. split; [done |].
      apply (subsets_of_size_complete (sorted_reverse board_ranks) [a; b; c]).
      apply descending_sublist; [by apply descending_triple | done |].
      intros x Hx. rewrite Hperm.
      apply elem_of_cons in Hx as [-> | Hx]; [done |].
      apply elem_of_cons in Hx as [-> | Hx]; [done |].
      by apply list_elem_of_singleton in Hx as ->.
    + destruct (window_split_inv _ _ (Hsplit _ Hsub_win))
        as (a' & b' & c' & r0' & r1' & [= <- <- <-] & Hrest & _ & Hr' & Hp').
      rewrite Hrest.
      assert ([r0'; r1'] ≡ₚ [r0; r1]) as Hpair.
      { rewrite <- Hp in Hp'.
        change ([r0'; r1'] ++ [a; b; c] ≡ₚ [r0; r1] ++ [a; b; c]) in Hp'.
        by apply (inj (λ l, l ++ [a; b; c])) in Hp'. }
      assert (r0' = r0 ∧ r1' = r1) as [-> ->]; [| done].
      assert (r0' ∈ [r0; r1]) as H0 by (rewrite <- Hpair; left).
      assert (r1' ∈ [r0; r1]) as H1 by (rewrite <- Hpair; right; left).
      assert (r0 ∈ [r0'; r1']) as H2 by (rewrite Hpair; left).
      rewrite !elem_of_cons, !elem_of_nil in H0, H1, H2. lia.
Qed.

(** X21. The level that [straight_level_with_suit] builds for a high rank
    from five up to the ace holds exactly the couplets that complete the
    straight with three board ranks: for every three different ranks of the
    board among the five ranks of the straight, the couplet of the two
    other ranks of the straight (the higher one first, the deprecated ace
    turned into the ace, both with the recorded suit), and no other
    couplet. *)
Theorem straight_level_with_suit_spec (high_rank : Z) (board_ranks : list Z)
    (suit_to_record : Z) :
  high_rank ∈ reverse (py_range five num_ranks) →
  ∃ level,
    straight_level_with_suit high_rank board_ranks suit_to_record = Ok level
    ∧ ∀ cp,
        cp ∈ level
        ↔ ∃ r0 r1 a b c,
            a ∈ board_ranks ∧ b ∈ board_ranks ∧ c ∈ board_ranks
            ∧ c < b < a ∧ r1 < r0
            ∧ [r0; r1; a; b; c] ≡ₚ straight_ranks high_rank
            ∧ cp = mkCouplet (mkCard (r0 mod num_ranks) suit_to_record)
                             (mkCard (r1 mod num_ranks) suit_to_record).
Proof. apply straight_level_with_suit_elem. Qed.

Lemma fulfills_a_level_remove_empty cp levels :
  fulfills_a_level cp (remove_empty_levels levels) ↔ fulfills_a_level cp levels.
Proof.
  unfold fulfills_a_level, remove_empty_levels. split.
  - intros (level & pattern & [_ Hl]%list_elem_of_filter & Hp & Hf).
    by exists level, pattern.
  - intros (level & pattern & Hl & Hp & Hf). exists level, pattern.
    split; [| done]. apply list_elem_of_filter. split; [| done].
    destruct level; [by apply elem_of_nil in Hp | simpl; lia].
Qed.

Lemma straight_levels_with_suit_elem board s levels cp :
  straight_levels_with_suit board s = Ok levels →
  (∃ level, level ∈ levels ∧ cp ∈ level)
  ↔ ∃ high_rank r0 r1 a b c,
      five ≤ high_rank < num_ranks
      ∧ a ∈ extract_ranks board true ∧ b ∈ extract_ranks board true
      ∧ c ∈ extract_ranks board true
      ∧ c < b < a ∧ r1 < r0
      ∧ [r0; r1; a; b; c] ≡ₚ straight_ranks high_rank
      ∧ cp = mkCouplet (mkCard (r0 mod num_ranks) s)
                       (mkCard (r1 mod num_ranks) s).
Proof.
  unfold straight_levels_with_suit. intros H.
  apply bind_Ok_inv in H as (all & Hall & H). injection H as <-.
  pose proof (unique_ranks_fold (extract_ranks board true) [] NoDup_nil_2)
    as (_ & Hmem & _).
  fold (unique_ranks (extract_ranks board true)) in Hmem.
  assert (∀ r, r ∈ unique_ranks (extract_ranks board true)
               ↔ r ∈ extract_ranks board true) as Hu.
  { intros r. rewrite Hmem, elem_of_nil. tauto. }
  clear Hmem. split.
  - intros (level & [_ Hl]%list_elem_of_filter & Hcp).
    apply (mapM_elem _ _ _ level Hall) in Hl as (high & Hhigh & Hlevel).
    destruct (straight_level_with_suit_elem high
                (unique_ranks (extract_ranks board true)) s Hhigh)
      as (level' & Hlevel' & Hspec).
    rewrite Hlevel in Hlevel'. injection Hlevel' as <-.
    apply Hspec in Hcp as (r0 & r1 & a & b & c & Ha & Hb & Hc & Hrest).
    exists high, r0, r1, a, b, c.
    rewrite elem_of_reverse, elem_of_py_range in Hhigh.
    rewrite Hu in Ha, Hb, Hc. tauto.
  - intros (high & r0 & r1 & a & b & c & Hhigh & Ha & Hb & Hc & Hrest).
    assert (high ∈ reverse (py_range five num_ranks)) as Hin.
    { by rewrite elem_of_reverse, elem_of_py_range. }
    destruct (straight_level_with_suit_elem high
                (unique_ranks (extract_ranks board true)) s Hin)
      as (level & Hlevel & Hspec).
    assert (cp ∈ level) as Hcp.
    { apply Hspec. exists r0, r1, a, b, c. rewrite !Hu. tauto. }
    exists level. split; [| done].
    apply list_elem_of_filter. split.
    + destruct level; [by apply elem_of_nil in Hcp | simpl; lia].
    + apply (mapM_elem _ _ _ level Hall). by exists high.
Qed.

Lemma elem_of_extract_ranks board r :
  r ∈ extract_ranks board true
  ↔ (∃ card, card ∈ board ∧ rank card = r)
    ∨ (r = deprecated_ace ∧ ∃ card, card ∈ board ∧ rank card = ace).
Proof.
  unfold extract_ranks. rewrite elem_of_app, !list_elem_of_fmap.
  split.
  - intros [(card & -> & Hc) | (x & -> & [-> Hx]%list_elem_of_filter)].
    + left. by exists card.
    + right. split; [done |].
      apply list_elem_of_fmap in Hx as (card & Hr & Hc). by exists card.
  - intros [(card & Hc & <-) | (-> & card & Hc & Hr)].
    + left. by exists card.
    + right. exists ace. split; [done |]. apply list_elem_of_filter.
      split; [done |]. apply list_elem_of_fmap. by exists card.
Qed.

(** X22. [straight_levels] returns on every board, and a couplet fulfills
    one of its levels exactly when three different ranks of the board and
    the two ranks of the couplet, in one order or the other, are the five
    consecutive ranks of a straight whose high rank goes from the five to
    the ace.  A rank of the board is the rank of one of its cards; when
    the board has an ace, the deprecated ace, the rank below the deuce, is
    a rank of the board as well.  The suits of the couplet play no
    part. *)
Theorem straight_levels_match (board : list Card) (cp : Couplet) :
  let board_rank r :=
    (∃ card, card ∈ board ∧ rank card = r)
    ∨ (r = deprecated_ace ∧ ∃ card, card ∈ board ∧ rank card = ace) in
  ∃ levels,
    straight_levels board = Ok levels
    ∧ (fulfills_a_level cp levels
       ↔ ∃ high_rank r0 r1 a b c,
           five ≤ high_rank < num_ranks
           ∧ board_rank a ∧ board_rank b ∧ board_rank c
           ∧ c < b < a ∧ r1 < r0
           ∧ [r0; r1; a; b; c] ≡ₚ straight_ranks high_rank
           ∧ ((rank (card_1 cp) = r0 mod num_ranks
               ∧ rank (card_2 cp) = r1 mod num_ranks)
              ∨ (rank (card_1 cp) = r1 mod num_ranks
                 ∧ rank (card_2 cp) = r0 mod num_ranks))).
Proof.
  intros board_rank.
  assert (∀ r, r ∈ extract_ranks board true ↔ board_rank r) as Hrank
    by (intros r; apply elem_of_extract_ranks).
  destruct (straight_levels_with_suit_Ok board anything) as [levels Hlevels].
  exists levels. split; [done |].
  assert (∀ r, r mod num_ranks ≠ anything) as Hmod.
  { intros r. unfold num_ranks, anything.
    pose proof (Z.mod_pos_bound r 13). lia. }
  split.
  - intros (level & pattern & Hl & Hp & Hf).
    destruct (proj1 (straight_levels_with_suit_elem board anything levels pattern
                       Hlevels)) as (high & r0 & r1 & a & b & c & H).
    { by exists level. }
    destruct H as (Hh & Ha & Hb & Hc & H1 & H2 & H3 & ->).
    apply fulfills_rank_pattern in Hf; [| done | done].
    apply Hrank in Ha, Hb, Hc.
    exists high, r0, r1, a, b, c. tauto.
  - intros (high & r0 & r1 & a & b & c & Hh & Ha & Hb & Hc & H1 & H2 & H3 & Hr).
    apply Hrank in Ha, Hb, Hc.
    destruct (proj2 (straight_levels_with_suit_elem board anything levels
                       (mkCouplet (mkCard (r0 mod num_ranks) anything)
                                  (mkCard (r1 mod num_ranks) anything))
                       Hlevels)) as (level & Hl & Hp).
    { exists high, r0, r1, a, b, c. tauto. }
    exists level, (mkCouplet (mkCard (r0 mod num_ranks) anything)
                             (mkCard (r1 mod num_ranks) anything)).
    split; [done |]. split; [done |].
    by apply fulfills_rank_pattern.
Qed.

(** X23. [straight_flush_levels] returns on every board; none of its
    levels is empty, and no couplet of its levels uses a card of the
    board: the patterns that need a card already on the board are
    removed. *)
Theorem straight_flush_levels_compatible (board : list Card) :
  ∃ levels,
    straight_flush_levels board = Ok levels
    ∧ Forall (λ level,
                level ≠ []
                ∧ Forall (λ cp, (card_1 cp ∉ board) ∧ (card_2 cp ∉ board))
                         level)
             levels.
Proof.
  destruct (straight_flush_levels_Ok board) as [levels Hlevels].
  exists levels. split; [done |].
  unfold straight_flush_levels in Hlevels.
  apply bind_Ok_inv in Hlevels as (blocks & _ & H). injection H as <-.
  apply Forall_forall. intros level Hl. split.
  - pose proof (remove_empty_levels_nonempty
                  (map (λ inner_level, remove_incompatible_couplets inner_level board)
                       (concat blocks))) as Hne.
    rewrite Forall_forall in Hne. by apply Hne.
  - apply list_elem_of_filter in Hl as [_ Hl].
    apply list_elem_of_fmap in Hl as (inner & -> & _).
    apply Forall_forall. intros cp Hcp.
    unfold remove_incompatible_couplets in Hcp.
    apply list_elem_of_filter in Hcp as [Hc _].
    unfold CoupletOps.is_compatible in Hc.
    apply Is_true_true, andb_true_iff in Hc as [H1 H2].
    by rewrite !card_is_compatible_spec in H1, H2.
Qed.

(** ** The order of the holding *)

Lemma couplets_of_sublist (deck : list Card) (cp : Couplet) :
  cp ∈ couplets_of deck ↔ [card_1 cp; card_2 cp] `sublist_of` deck.
Proof.
  rewrite (mapM_elem couplify _ _ cp (couplify_subsets deck)). split.
  - intros (s & Hs & Hcp). apply subsets_of_size_sound in Hs as [Hsub Hlen].
    destruct s as [| a [| b [| ? ?]]]; try done.
    injection Hcp as <-. done.
  - intros Hsub. exists [card_1 cp; card_2 cp]. split.
    + by apply (subsets_of_size_complete deck [card_1 cp; card_2 cp]).
    + by destruct cp.
Qed.

Lemma couplets_of_Permutation (holding holding' : list Card) (cp : Couplet) :
  holding ≡ₚ holding' → cp ∈ couplets_of holding →
  cp ∈ couplets_of holding'
  ∨ mkCouplet (card_2 cp) (card_1 cp) ∈ couplets_of holding'.
Proof.
  intros Hperm Hcp. rewrite !couplets_of_sublist. cbn [card_1 card_2].
  apply couplets_of_sublist, sublist_submseteq in Hcp.
  rewrite Hperm in Hcp.
  apply submseteq_sublist_r in Hcp as (l & Hl & Hsub).
  apply Permutation_length_2_inv in Hl as [-> | ->]; auto.
Qed.

Lemma couplet_fulfills_swapped (cp pattern : Couplet) :
  CoupletOps.fulfills (mkCouplet (card_2 cp) (card_1 cp)) pattern
  = CoupletOps.fulfills cp pattern.
Proof.
  unfold CoupletOps.fulfills. cbn [card_1 card_2].
  destruct (CardOps.fulfills (card_1 cp) (card_1 pattern)),
    (CardOps.fulfills (card_2 cp) (card_2 pattern)),
    (CardOps.fulfills (card_1 cp) (card_2 pattern)),
    (CardOps.fulfills (card_2 cp) (card_1 pattern)); reflexivity.
Qed.

Lemma index_of_level_containing_swapped (cp : Couplet)
    (levels : list (list Couplet)) :
  index_of_level_containing (mkCouplet (card_2 cp) (card_1 cp)) levels
  = index_of_level_containing cp levels.
Proof.
  assert (∀ level,
            existsb (CoupletOps.fulfills (mkCouplet (card_2 cp) (card_1 cp))) level
            = existsb (CoupletOps.fulfills cp) level) as Hlevel.
  { induction level as [| p level IH]; [done |].
    simpl. by rewrite couplet_fulfills_swapped, IH. }
  unfold index_of_level_containing. generalize 0%nat.
  induction levels as [| level levels IH]; intros n; [done |].
  simpl. by rewrite Hlevel, IH.
Qed.

(** The result of the loop depends on the level indices of the couplets
    only, not on their order or number. *)
Lemma best_level_loop_indices (levels : list (list Couplet))
    (couplets couplets' : list Couplet) (initial : nat) :
  (∀ cp, cp ∈ couplets →
         ∃ cp', cp' ∈ couplets'
                ∧ index_of_level_containing cp' levels
                  = index_of_level_containing cp levels) →
  (∀ cp', cp' ∈ couplets' →
          ∃ cp, cp ∈ couplets
                ∧ index_of_level_containing cp levels
                  = index_of_level_containing cp' levels) →
  best_level_loop levels couplets initial
  = best_level_loop levels couplets' initial.
Proof.
  intros H12 H21.
  destruct (best_level_loop_spec levels couplets initial) as (Hok & Herr & Hexn).
  destruct (best_level_loop_spec levels couplets' initial)
    as (Hok' & Herr' & _).
  destruct (best_level_loop levels couplets initial) as [best | e] eqn:E.
  - symmetry. apply Hok'. destruct (proj1 (Hok best) eq_refl) as (Hall & Hle & Hwit).
    split; [| split; [done |]].
    + intros cp' Hcp'. destruct (H21 cp' Hcp') as (cp & Hcp & <-). by apply Hall.
    + destruct Hwit as [-> | (cp & Hcp & Hidx)]; [by left | right].
      destruct (H12 cp Hcp) as (cp' & Hcp' & Heq). exists cp'.
      split; [done | congruence].
  - rewrite (Hexn e eq_refl) in *. symmetry. apply Herr'.
    destruct (proj1 Herr eq_refl) as (cp & Hcp & Hidx).
    destruct (H12 cp Hcp) as (cp' & Hcp' & Heq). exists cp'.
    split; [done | congruence].
Qed.

Lemma remove_incompatible_couplets_Permutation (level : list Couplet)
    (holding holding' : list Card) :
  holding ≡ₚ holding' →
  remove_incompatible_couplets level holding
  = remove_incompatible_couplets level holding'.
Proof.
  intros Hperm. unfold remove_incompatible_couplets.
  apply list_filter_iff. intros cp.
  assert (∀ c, CardOps.is_compatible c holding
               = CardOps.is_compatible c holding') as Hc.
  { intros c. apply eq_true_iff_eq.
    rewrite !card_is_compatible_spec. by rewrite Hperm. }
  unfold CoupletOps.is_compatible. by rewrite !Hc.
Qed.

(** X24. The order in which the cards of the holding are given plays no
    part: [utility] returns the same value, or raises the same exception,
    for a holding and for any rearrangement of it. *)
Theorem utility_holding_order (holding holding' board : list Card) :
  holding ≡ₚ holding' →
  utility holding board = utility holding' board.
Proof.
  intros Hperm. unfold utility.
  destruct (all_levels board) as [generic_levels | e]; [| done].
  rewrite !bind_Ok.
  destruct (specify generic_levels board) as [levels | e]; [| done].
  rewrite !bind_Ok, !couplify_subsets, !bind_Ok.
  rewrite (best_level_loop_indices levels (couplets_of holding)
             (couplets_of holding') (length levels)).
  - destruct (best_level_loop levels (couplets_of holding') (length levels))
      as [best | e]; [| done].
    rewrite !bind_Ok.
    destruct (levels !! best) as [level |]; [| done].
    rewrite !bind_Ok.
    by rewrite !(remove_incompatible_couplets_Permutation _ holding holding').
  - intros cp Hcp.
    destruct (couplets_of_Permutation holding holding' cp Hperm Hcp) as [H | H].
    + by exists cp.
    + eexists. split; [exact H |]. apply index_of_level_containing_swapped.
  - intros cp Hcp. symmetry in Hperm.
    destruct (couplets_of_Permutation holding' holding cp Hperm Hcp) as [H | H].
    + by exists cp.
    + eexists. split; [exact H |]. apply index_of_level_containing_swapped.
Qed.

(** ** The order of the board *)

Lemma tally_ranks_Permutation (board board' : list Card) :
  board ≡ₚ board' → tally_ranks board = tally_ranks board'.
Proof.
  intros Hperm.
  destruct (decide (Forall (λ card, 0 ≤ rank card < num_ranks) board))
    as [Hvalid | Hbad].
  - assert (Forall (λ card, 0 ≤ rank card < num_ranks) board') as Hvalid'
      by by rewrite <- Hperm.
    destruct (tally_ranks_Ok board Hvalid) as (t & Ht & _).
    destruct (tally_ranks_Ok board' Hvalid') as (t' & Ht' & _).
    rewrite Ht, Ht'. f_equal. apply map_eq. intros r.
    unfold tally_ranks, extract_ranks in Ht, Ht'.
    rewrite (tally_loop_counts _ _ _ Ht r), (tally_loop_counts _ _ _ Ht' r).
    assert (length (filter (λ x, x = r) (map rank board))
            = length (filter (λ x, x = r) (map rank board'))) as Hcount
      by by rewrite Hperm.
    destruct (_ !! r) as [n |]; simpl; [| done]. by rewrite Hcount.
  - apply not_Forall_Exists in Hbad; [| apply _].
    assert (Exists (λ card, ¬ (0 ≤ rank card < num_ranks)) board') as Hbad'
      by by rewrite <- Hperm.
    by rewrite !tally_ranks_raises.
Qed.

Lemma mapM_map_ext {A B C} (f f' : A → list B) (g g' : list B → result C)
    (l : list A) :
  (∀ x, x ∈ l → g (f x) = g' (f' x)) →
  mapM g (map f l) = mapM g' (map f' l).
Proof.
  induction l as [| x l IH]; intros Hext; [done |].
  cbn. rewrite (Hext x) by left. rewrite IH; [done |].
  intros y Hy. apply Hext. by right.
Qed.

Lemma suited_head (board : list Card) (s : Z) (first_card : Card)
    (rest : list Card) :
  filter (λ card, suit card = s) board = first_card :: rest →
  suit first_card = s.
Proof.
  intros E.
  assert (first_card ∈ filter (λ card, suit card = s) board) as H
    by (rewrite E; left).
  by apply list_elem_of_filter in H as [? _].
Qed.

Lemma flush_levels_Permutation (board board' : list Card) :
  board ≡ₚ board' → flush_levels board = flush_levels board'.
Proof.
  intros Hperm. unfold flush_levels, partition_by_suit. f_equal.
  apply mapM_map_ext. intros s _.
  assert (filter (λ card, suit card = s) board
          ≡ₚ filter (λ card, suit card = s) board') as Hsub by by rewrite Hperm.
  rewrite <- (Permutation_length Hsub).
  case_bool_decide as Hlen; [| done].
  destruct (filter (λ card, suit card = s) board) as [| c sub] eqn:E;
    [simpl in Hlen; lia |].
  destruct (filter (λ card, suit card = s) board') as [| c' sub'] eqn:E';
    [by apply Permutation_nil_r in Hsub |].
  cbv zeta. rewrite (suited_head _ _ _ _ E), (suited_head _ _ _ _ E').
  do 2 f_equal. apply list_filter_iff. intros r.
  unfold extract_ranks. by rewrite Hsub.
Qed.

Lemma sorted_unique_ranks_Permutation (board board' : list Card) :
  board ≡ₚ board' →
  sorted_reverse (unique_ranks (extract_ranks board true))
  = sorted_reverse (unique_ranks (extract_ranks board' true)).
Proof.
  intros Hperm.
  assert (AntiSymm (=) Z.ge) by (intros x y; lia).
  destruct (sorted_reverse_spec (unique_ranks (extract_ranks board true)))
    as [Hs Hp].
  destruct (sorted_reverse_spec (unique_ranks (extract_ranks board' true)))
    as [Hs' Hp'].
  apply (StronglySorted_unique Z.ge); [done.. |].
  rewrite Hp, Hp'.
  pose proof (unique_ranks_fold (extract_ranks board true) [] NoDup_nil_2)
    as (Hnd & Hmem & _).
  pose proof (unique_ranks_fold (extract_ranks board' true) [] NoDup_nil_2)
    as (Hnd' & Hmem' & _).
  apply NoDup_Permutation; [done.. |]. intros r.
  unfold unique_ranks. rewrite Hmem, Hmem', !elem_of_nil.
  rewrite !elem_of_extract_ranks. by setoid_rewrite Hperm.
Qed.

Lemma straight_levels_with_suit_Permutation (board board' : list Card)
    (s : Z) :
  board ≡ₚ board' →
  straight_levels_with_suit board s = straight_levels_with_suit board' s.
Proof.
  intros Hperm. unfold straight_levels_with_suit, straight_level_with_suit.
  by rewrite (sorted_unique_ranks_Permutation board board' Hperm).
Qed.

Lemma straight_flush_levels_Permutation (board board' : list Card) :
  board ≡ₚ board' →
  straight_flush_levels board = straight_flush_levels board'.
Proof.
  intros Hperm. unfold straight_flush_levels, partition_by_suit.
  match goal with
  | |- ?m ≫= _ = ?m' ≫= _ => assert (m = m') as ->
  end.
  { apply mapM_map_ext. intros s _.
    assert (filter (λ card, suit card = s) board
            ≡ₚ filter (λ card, suit card = s) board') as Hsub
      by by rewrite Hperm.
    rewrite <- (Permutation_length Hsub).
    case_bool_decide as Hlen; [| done].
    destruct (filter (λ card, suit card = s) board) as [| c sub] eqn:E;
      [simpl in Hlen; lia |].
    destruct (filter (λ card, suit card = s) board') as [| c' sub'] eqn:E';
      [by apply Permutation_nil_r in Hsub |].
    cbv zeta. rewrite (suited_head _ _ _ _ E), (suited_head _ _ _ _ E').
    by apply straight_levels_with_suit_Permutation. }
  destruct (mapM _ _) as [blocks | e]; [| done].
  rewrite !bind_Ok. do 2 f_equal.
  apply map_ext. intros inner.
  by apply remove_incompatible_couplets_Permutation.
Qed.

Lemma all_levels_Permutation (board board' : list Card) :
  board ≡ₚ board' → all_levels board = all_levels board'.
Proof.
  intros Hperm. unfold all_levels.
  rewrite (straight_flush_levels_Permutation board board' Hperm).
  rewrite (flush_levels_Permutation board board' Hperm).
  unfold straight_levels.
  rewrite (straight_levels_with_suit_Permutation board board' _ Hperm).
  unfold four_of_a_kind_levels, full_house_levels, three_of_a_kind_levels,
    two_pair_levels, one_pair_levels, high_card_levels.
  by rewrite (tally_ranks_Permutation board board' Hperm).
Qed.

Lemma specify_Permutation (generic_levels : list (list Couplet))
    (board board' : list Card) :
  board ≡ₚ board' →
  specify generic_levels board = specify generic_levels board'.
Proof.
  intros Hperm. unfold specify.
  rewrite (list_filter_iff (λ card, CardOps.is_compatible card board)
             (λ card, CardOps.is_compatible card board')); [done |].
  intros c. rewrite !Is_true_true, !card_is_compatible_spec. by rewrite Hperm.
Qed.

(** X25. The order in which the cards of the board are given plays no
    part: the generic ladder, the concrete ladder and the value, or the
    exception, of [utility] are the same for a board and for any
    rearrangement of it. *)
Theorem board_order_irrelevant (board board' : list Card) :
  board ≡ₚ board' →
  all_levels board = all_levels board'
  ∧ rank_ladder board = rank_ladder board'
  ∧ ∀ holding, utility holding board = utility holding board'.
Proof.
  intros Hperm. split; [by apply all_levels_Permutation |]. split.
  - unfold rank_ladder. rewrite (all_levels_Permutation board board' Hperm).
    destruct (all_levels board') as [gl | e]; [| done].
    rewrite !bind_Ok. by apply specify_Permutation.
  - intros holding. unfold utility.
    rewrite (all_levels_Permutation board board' Hperm).
    destruct (all_levels board') as [gl | e]; [| done].
    rewrite !bind_Ok. by rewrite (specify_Permutation gl board board' Hperm).
Qed.

(** ** Printing ranks *)

Lemma rank_to_str_injective :
  Forall (λ r1, Forall (λ r2, rank_to_str r1 = rank_to_str r2 → r1 = r2)
                       rank_range)
         rank_range.
Proof. by_evaluation. Qed.

(** X26. [rank_to_str] shows the ranks of the deck with thirteen different
    strings; the deprecated ace is shown like the ace, and every other
    integer, the wildcard [anything] among them, as "X". *)
Theorem rank_to_str_unambiguous :
  (∀ r1 r2, r1 ∈ rank_range → r2 ∈ rank_range →
            rank_to_str r1 = rank_to_str r2 → r1 = r2)
  ∧ map rank_to_str rank_range
    = ["A"; "K"; "Q"; "J"; "Ю"; "9"; "8"; "7"; "6"; "5"; "4"; "3"; "2"]
  ∧ rank_to_str deprecated_ace = rank_to_str ace
  ∧ (∀ r, r ∉ rank_range → r ≠ deprecated_ace → rank_to_str r = "X")
  ∧ rank_to_str anything = "X".
Proof.
  split; [| split; [| split; [| split]]].
  - intros r1 r2 H1 H2. pose proof rank_to_str_injective as H.
    rewrite Forall_forall in H. specialize (H r1 H1).
    rewrite Forall_forall in H. by apply H.
  - vm_compute. reflexivity.
  - reflexivity.
  - intros r Hr Hd. rewrite elem_of_rank_range in Hr.
    unfold rank_to_str, ace, deprecated_ace, king, queen, jack, ten, nine,
      deuce, num_ranks in *.
    repeat match goal with
           | |- context [?a =? ?b] => destruct (Z.eqb_spec a b); try lia
           | |- context [?a <=? ?b] => destruct (Z.leb_spec a b); try lia
           | |- context [?a >=? ?b] => destruct (Z.geb_spec a b); try lia
           end; simpl; try done.
  - reflexivity.
Qed.

(** ** The further properties on the inputs of the examples *)

Lemma tally_ranks_counts_witness :
  Forall (λ card, 0 ≤ rank card < num_ranks) scenario_board
  ∧ ∃ rank_tallies,
      tally_ranks scenario_board = Ok rank_tallies
      ∧ rank_tallies !! ace = Some 2.
Proof.
  assert (Forall (λ card, 0 ≤ rank card < num_ranks) scenario_board) as H
    by by_evaluation.
  split; [exact H |].
  destruct (tally_ranks_counts scenario_board H) as (t & Ht & Hin & _).
  exists t. split; [exact Ht |]. apply (Hin ace). by_evaluation.
Defined.

Lemma tally_ranks_KeyError_witness :
  Exists (λ card, ¬ (0 ≤ rank card < num_ranks)) wildcard_board
  ∧ utility scenario_holding wildcard_board = Raise KeyError.
Proof.
  assert (Exists (λ card, ¬ (0 ≤ rank card < num_ranks)) wildcard_board) as H
    by by_evaluation.
  split; [exact H |].
  destruct (tally_ranks_KeyError wildcard_board H) as (_ & _ & _ & Hu).
  apply Hu.
Defined.

Lemma max_tally_greatest_witness :
  Forall (λ card, 0 ≤ rank card < num_ranks) scenario_board
  ∧ ∃ rank_tallies,
      tally_ranks scenario_board = Ok rank_tallies
      ∧ 2 ≤ max_tally rank_tallies ≤ 5.
Proof.
  assert (Forall (λ card, 0 ≤ rank card < num_ranks) scenario_board) as H
    by by_evaluation.
  split; [exact H |].
  destruct (max_tally_greatest scenario_board H) as (t & Ht & Hge & _ & _ & Hle).
  exists t. split; [exact Ht |]. split; [| exact Hle].
  apply (Hge ace). by_evaluation.
Defined.

Lemma four_of_a_kind_levels_match_witness :
  Forall (λ card, 0 ≤ rank card < num_ranks) scenario_board
  ∧ ∃ levels,
      four_of_a_kind_levels scenario_board = Ok levels
      ∧ fulfills_a_level (mkCouplet (mkCard ace diamonds) (mkCard ace clubs))
                         levels.
Proof.
  assert (Forall (λ card, 0 ≤ rank card < num_ranks) scenario_board) as H
    by by_evaluation.
  split; [exact H |].
  destruct (four_of_a_kind_levels_match scenario_board H) as (levels & Hl & Hm).
  exists levels. split; [exact Hl |]. apply Hm. exists ace.
  split; [by_evaluation |]. left. repeat split; reflexivity.
Defined.

Lemma scenario_board_counts (r : Z) :
  (length (filter (λ card, rank card = r) scenario_board) ≤ 2)%nat.
Proof.
  unfold scenario_board. rewrite !filter_cons, filter_nil. cbn [rank].
  unfold ace, king, seven, deuce.
  repeat case_decide; simpl; lia.
Qed.

Lemma full_house_levels_match_witness :
  Forall (λ card, 0 ≤ rank card < num_ranks) scenario_board
  ∧ ∃ levels,
      full_house_levels scenario_board = Ok levels
      ∧ fulfills_a_level (mkCouplet (mkCard king hearts) (mkCard king clubs))
                         levels.
Proof.
  assert (Forall (λ card, 0 ≤ rank card < num_ranks) scenario_board) as H
    by by_evaluation.
  split; [exact H |].
  destruct (full_house_levels_match scenario_board H) as (levels & Hl & _ & Hm).
  exists levels. split; [exact Hl |]. apply Hm. left.
  split; [exact scenario_board_counts |].
  split; [exists ace; vm_compute; reflexivity |].
  left. split; [reflexivity | vm_compute; reflexivity].
Defined.

Lemma flush_levels_match_witness :
  physical (mkCard king hearts) ∧ physical (mkCard queen hearts)
  ∧ mkCard king hearts ≠ mkCard queen hearts
  ∧ (mkCard king hearts ∉ unpaired_board)
  ∧ (mkCard queen hearts ∉ unpaired_board)
  ∧ ∃ levels,
      flush_levels unpaired_board = Ok levels
      ∧ fulfills_a_level (mkCouplet (mkCard king hearts) (mkCard queen hearts))
                         levels.
Proof.
  assert (physical (mkCard king hearts)) as H1 by by_evaluation.
  assert (physical (mkCard queen hearts)) as H2 by by_evaluation.
  assert (mkCard king hearts ≠ mkCard queen hearts) as H3 by by_evaluation.
  assert (mkCard king hearts ∉ unpaired_board) as H4 by by_evaluation.
  assert (mkCard queen hearts ∉ unpaired_board) as H5 by by_evaluation.
  repeat (split; [assumption |]).
  destruct (flush_levels_match unpaired_board _ _ H1 H2 H3 H4 H5)
    as (levels & Hl & Hm).
  exists levels. split; [exact Hl |]. apply Hm.
  split; [reflexivity | by_evaluation].
Defined.

Lemma unpaired_board_levels_witness :
  Forall (λ card, 0 ≤ rank card < num_ranks) unpaired_board
  ∧ unpaired_board ≠ [] ∧ NoDup (map rank unpaired_board)
  ∧ ∃ levels,
      three_of_a_kind_levels unpaired_board = Ok levels
      ∧ fulfills_a_level (mkCouplet (mkCard ace diamonds) (mkCard ace clubs))
                         levels.
Proof.
  assert (Forall (λ card, 0 ≤ rank card < num_ranks) unpaired_board) as H1
    by by_evaluation.
  assert (unpaired_board ≠ []) as H2 by discriminate.
  assert (NoDup (map rank unpaired_board)) as H3 by by_evaluation.
  repeat (split; [assumption |]).
  destruct (unpaired_board_levels unpaired_board H1 H2 H3)
    as (tk & tp & op & hc & Htk & _ & _ & _ & Hm).
  exists tk. split; [exact Htk |].
  destruct (Hm (mkCouplet (mkCard ace diamonds) (mkCard ace clubs))) as (Hiff & _).
  apply Hiff. split; [reflexivity | by_evaluation].
Defined.

Lemma utility_short_holding_witness :
  Forall (λ card, 0 ≤ rank card < num_ranks) scenario_board
  ∧ (length [mkCard ace diamonds] < 2)%nat
  ∧ utility [mkCard ace diamonds] scenario_board = Raise IndexError.
Proof.
  assert (Forall (λ card, 0 ≤ rank card < num_ranks) scenario_board) as H1
    by by_evaluation.
  assert (length [mkCard ace diamonds] < 2)%nat as H2 by (simpl; lia).
  split; [exact H1 |]. split; [exact H2 |].
  exact (utility_short_holding [mkCard ace diamonds] scenario_board H1 H2).
Defined.

Lemma pot_fraction_zero_iff_witness :
  (num_opponents_couplets ≤ 10 + 5 + 40)%nat
  ∧ ∃ q, pot_fraction 10 5 40 = Ok q ∧ (0 < q)%Q.
Proof.
  assert (num_opponents_couplets ≤ 10 + 5 + 40)%nat as H by by_evaluation.
  split; [exact H |].
  destruct (pot_fraction_zero_iff 10 5 40 H) as (q & Hq & _ & Hpos).
  exists q. split; [exact Hq |]. apply Hpos. by_evaluation.
Defined.

Lemma pot_fraction_without_ties_witness :
  (num_opponents_couplets ≤ 0 + 40)%nat
  ∧ ∃ q, pot_fraction 0 0 40 = Ok q ∧ (q == 1)%Q.
Proof.
  assert (num_opponents_couplets ≤ 0 + 40)%nat as H by by_evaluation.
  split; [exact H |].
  destruct (pot_fraction_without_ties 0 40 H) as (q & Hq & _ & Hone).
  exists q. split; [exact Hq |]. by apply Hone.
Defined.

Lemma pot_fraction_antitone_witness :
  (num_opponents_couplets ≤ 10 + 5 + 40)%nat
  ∧ ∃ q q',
      pot_fraction 10 5 40 = Ok q
      ∧ pot_fraction (10 + 3) 5 40 = Ok q' ∧ (q' <= q)%Q.
Proof.
  assert (num_opponents_couplets ≤ 10 + 5 + 40)%nat as H by by_evaluation.
  split; [exact H |]. apply (pot_fraction_antitone 10 3 5 40 H).
Defined.

Lemma straight_level_with_suit_spec_witness :
  ace ∈ reverse (py_range five num_ranks)
  ∧ ∃ level,
      straight_level_with_suit ace [king; queen; jack] hearts = Ok level
      ∧ mkCouplet (mkCard ace hearts) (mkCard ten hearts) ∈ level.
Proof.
  assert (ace ∈ reverse (py_range five num_ranks)) as H by by_evaluation.
  split; [exact H |].
  destruct (straight_level_with_suit_spec ace [king; queen; jack] hearts H)
    as (level & Hl & Hm).
  exists level. split; [exact Hl |]. apply Hm.
  exists ace, ten, king, queen, jack.
  repeat split; try by_evaluation.
Defined.

Lemma utility_holding_order_witness :
  scenario_holding ≡ₚ reverse scenario_holding
  ∧ utility scenario_holding scenario_board
    = utility (reverse scenario_holding) scenario_board.
Proof.
  assert (scenario_holding ≡ₚ reverse scenario_holding) as H by by_evaluation.
  split; [exact H |]. apply (utility_holding_order _ _ _ H).
Defined.

Lemma board_order_irrelevant_witness :
  scenario_board ≡ₚ reverse scenario_board
  ∧ utility scenario_holding scenario_board
    = utility scenario_holding (reverse scenario_board).
Proof.
  assert (scenario_board ≡ₚ reverse scenario_board) as H by by_evaluation.
  split; [exact H |].
  destruct (board_order_irrelevant _ _ H) as (_ & _ & Hu). apply Hu.
Defined.

(** X22 at a board with an ace, a deuce and a three: a four and a five
    make the straight to the five, the ace counting below the deuce. *)
Lemma straight_levels_match_witness :
  ∃ levels,
    straight_levels [mkCard ace hearts; mkCard deuce diamonds;
                     mkCard three clubs] = Ok levels
    ∧ fulfills_a_level (mkCouplet (mkCard five spades) (mkCard four hearts))
                       levels.
Proof.
  destruct (straight_levels_match
              [mkCard ace hearts; mkCard deuce diamonds; mkCard three clubs]
              (mkCouplet (mkCard five spades) (mkCard four hearts)))
    as (levels & Hl & Hm).
  exists levels. split; [exact Hl |]. apply Hm.
  exists five, five, four, three, deuce, deprecated_ace.
  split; [by_evaluation |].
  split; [left; exists (mkCard three clubs); split; [by_evaluation | reflexivity] |].
  split; [left; exists (mkCard deuce diamonds); split; [by_evaluation | reflexivity] |].
  split; [right; split; [reflexivity |];
          exists (mkCard ace hearts); split; [by_evaluation | reflexivity] |].
  split; [by_evaluation |]. split; [by_evaluation |].
  split; [by_evaluation |]. left. split; reflexivity.
Defined.
